(** * Autodialer: the call-queueing and sequential-execution core

    A shallow embedding of [app/utils.py], [app/models/call_log.py],
    [app/services/twilio_service.py] and [app/services/call_manager.py],
    and the properties of the number gate, the task queue builder, the
    call sequencer and the outcome finaliser; then of the parts of
    [app/routes/calls.py], [app/routes/ai_prompt.py] and
    [app/services/ai_service.py] that decide what is queued: the upload
    route up to the rendering of the page, the counters of the dashboard,
    the check of the assistant's answer and its fallback.

    Conventions.
    - A Python [str] is a [string] whose characters are the code points
      0..255.  On that range the class [\d] of Python's [re] is exactly
      ['0'..'9'] (the other Unicode decimal digits lie above 255).
    - [Optional[T]] is [option T]; [None] is [None].
    - The database, the clock and the Twilio client are collaborators:
      their answers come from oracles ([Env], [TwilioService]) indexed by
      the number of collaborator interactions made so far. *)

From Stdlib Require Import String Ascii ZArith QArith Lqa Bool List Lia.
From stdpp Require Import gmap.
Import ListNotations.

Local Open Scope string_scope.

(** ** Strings and a small backtracking regular-expression matcher *)

Module Re.

(** The fragment of Python's [re] syntax the repository uses. *)
Inductive regex : Type :=
| Eps                                  (* empty pattern *)
| Chr (c : ascii)                      (* a literal character *)
| Range (lo hi : ascii)                (* [lo-hi] *)
| Seq (r1 r2 : regex)                  (* r1 r2 *)
| Alt (r1 r2 : regex)                  (* r1|r2, leftmost first *)
| Opt (r : regex)                      (* r?, greedy *)
| StarRange (lo hi : ascii)            (* [lo-hi]*, greedy *)
| Group (r : regex)                    (* (r), capturing group 1 *)
| Eol.                                 (* $ without MULTILINE *)

Definition in_range (lo hi a : ascii) : bool :=
  (N_of_ascii lo <=? N_of_ascii a)%N && (N_of_ascii a <=? N_of_ascii hi)%N.

Fixpoint lit (s : string) : regex :=
  match s with
  | EmptyString => Eps
  | String c s' => Seq (Chr c) (lit s')
  end.

(** [r{n}] *)
Fixpoint times (n : nat) (r : regex) : regex :=
  match n with
  | O => Eps
  | S n' => Seq r (times n' r)
  end.

Section Matcher.
Context {R : Type}.

(** Greedy [[lo-hi]*]: take the longest run first, give characters
    back one at a time while the continuation fails. *)
Fixpoint star_range (lo hi : ascii) (s : string)
         (k : string -> option R) : option R :=
  match s with
  | String a s' =>
      if in_range lo hi a then
        match star_range lo hi s' k with
        | Some x => Some x
        | None => k s
        end
      else k s
  | EmptyString => k s
  end.

(** [rmatch r s cap k]: match [r] at the head of [s]; [cap] is the
    text of group 1 so far; [k] is what remains to be matched.  The
    first success in Python's priority order is returned. *)
Fixpoint rmatch (r : regex) (s : string) (cap : option string)
         (k : string -> option string -> option R) : option R :=
  match r with
  | Eps => k s cap
  | Chr c =>
      match s with
      | String a s' => if Ascii.eqb a c then k s' cap else None
      | EmptyString => None
      end
  | Range lo hi =>
      match s with
      | String a s' => if in_range lo hi a then k s' cap else None
      | EmptyString => None
      end
  | Seq r1 r2 => rmatch r1 s cap (fun s1 cap1 => rmatch r2 s1 cap1 k)
  | Alt r1 r2 =>
      match rmatch r1 s cap k with
      | Some x => Some x
      | None => rmatch r2 s cap k
      end
  | Opt r1 =>
      match rmatch r1 s cap k with
      | Some x => Some x
      | None => k s cap
      end
  | StarRange lo hi => star_range lo hi s (fun s' => k s' cap)
  | Group r1 =>
      rmatch r1 s cap
        (fun s1 _ => k s1 (Some (substring 0 (String.length s - String.length s1) s)))
  | Eol =>
      match s with
      | EmptyString => k s cap
      | String a EmptyString =>
          if Ascii.eqb a "010"%char then k s cap else None
      | _ => None
      end
  end.
End Matcher.

(** A match object: the text left after the match and group 1. *)
Record Match : Type := { rest : string; group1 : option string }.

(** [pattern.match(s)]: anchored at the start of [s]. *)
Definition re_match (r : regex) (s : string) : option Match :=
  rmatch r s None (fun s' cap => Some {| rest := s'; group1 := cap |}).

(** [pattern.sub("", s)]: scan left to right; where the pattern matches,
    drop the matched text and go on after it; elsewhere keep the
    character.  [skip] counts the characters of a match still to drop. *)
Fixpoint sub_scan (r : regex) (skip : nat) (s : string) : string :=
  match s with
  | EmptyString => EmptyString
  | String a s' =>
      match skip with
      | S n => sub_scan r n s'
      | O =>
          match re_match r s with
          | Some m =>
              match String.length s - String.length (rest m) with
              | O => String a (sub_scan r 0 s')
              | S n => sub_scan r n s'
              end
          | None => String a (sub_scan r 0 s')
          end
      end
  end.

Definition sub_empty (r : regex) (s : string) : string := sub_scan r 0 s.

End Re.

(** ** [app/utils.py] *)

(** [re.compile(r"^(?:\+91|0)?([6-9]\d{9})$")]; under [match] the leading
    [^] holds at position 0 and needs no constructor. *)
Definition INDIAN_NUMBER_REGEX : Re.regex :=
  Re.Seq (Re.Opt (Re.Alt (Re.lit "+91") (Re.Chr "0")))
    (Re.Seq (Re.Group (Re.Seq (Re.Range "6" "9") (Re.times 9 (Re.Range "0" "9"))))
       Re.Eol).

Definition ESC : ascii := "027"%char.

Definition TWILIO_TEST_PREFIX : string := "+1500".

Definition MAX_BULK_UPLOAD : nat := 100.

(** [re.compile(r"\x1B\[[0-?]*[ -/]*[@-~]")] *)
Definition ANSI_ESCAPE_REGEX : Re.regex :=
  Re.Seq (Re.Chr ESC) (Re.Seq (Re.Chr "[")
    (Re.Seq (Re.StarRange "0" "?") (Re.Seq (Re.StarRange " " "/") (Re.Range "@" "~")))).

Record NumberValidationResult : Type := {
  number : string;
  is_valid : bool;
  reason : option string
}.

Definition REASON_INDIAN : string :=
  "Indian numbers detected. Autodialer only places calls to Twilio test numbers (starting with +1500...) for safety.".

Definition REASON_INVALID : string :=
  "Invalid phone number format. Provide Twilio test numbers e.g. +15005550006.".

(** [str.startswith] *)
Definition startswith (s p : string) : bool := String.prefix p s.

(** What an f-string prints for an optional group. *)
Definition fmt_group (g : option string) : string :=
  match g with Some t => t | None => "None" end.

Definition validate_number (num : string) : NumberValidationResult :=
  if startswith num TWILIO_TEST_PREFIX then
    {| number := num; is_valid := true; reason := None |}
  else
    match Re.re_match INDIAN_NUMBER_REGEX num with
    | Some m =>
        {| number := "+91" ++ fmt_group (Re.group1 m);
           is_valid := false;
           reason := Some REASON_INDIAN |}
    | None =>
        {| number := num; is_valid := false; reason := Some REASON_INVALID |}
    end.

(** [if not value: return value] keeps [None] and the empty string. *)
Definition strip_ansi (value : option string) : option string :=
  match value with
  | None => None
  | Some EmptyString => Some EmptyString
  | Some v => Some (Re.sub_empty ANSI_ESCAPE_REGEX v)
  end.

(** ** [app/models/call_log.py] *)

Inductive CallStatus : Type := QUEUED | IN_PROGRESS | SUCCESS | FAILED | SKIPPED.

Definition CallStatus_eqb (a b : CallStatus) : bool :=
  match a, b with
  | QUEUED, QUEUED | IN_PROGRESS, IN_PROGRESS | SUCCESS, SUCCESS
  | FAILED, FAILED | SKIPPED, SKIPPED => true
  | _, _ => false
  end.

(** The terminal states of the life cycle. *)
Definition is_terminal (s : CallStatus) : bool :=
  match s with
  | SUCCESS | FAILED | SKIPPED => true
  | QUEUED | IN_PROGRESS => false
  end.

Module CallLog.

(** A row of table [calls].  Timestamps are readings of the clock. *)
Record t : Type := {
  id : Z;
  number : string;
  message : option string;
  status : CallStatus;
  duration : option Z;
  error : option string;
  call_sid : option string;
  created_at : Q;
  updated_at : Q
}.

(** [CallLog.mark]; [utcnow] is the clock reading at the call. *)
Definition mark (self : t) (new_status : CallStatus) (new_duration : option Z)
           (new_error : option string) (new_call_sid : option string)
           (utcnow : Q) : t :=
  {| id := id self;
     number := number self;
     message := message self;
     status := new_status;
     duration := match new_duration with Some d => Some d | None => duration self end;
     error := match new_error with Some e => Some e | None => error self end;
     call_sid := match new_call_sid with Some c => Some c | None => call_sid self end;
     created_at := created_at self;
     updated_at := utcnow |}.

End CallLog.

(** ** Exceptions, the environment and the effect monad *)

(** The classes of exception the core tells apart, all below [Exception]. *)
Inductive ExnClass : Type :=
| ValueError
| TwilioRestException
| SQLAlchemyError
| OtherException.

(** A raised exception: its class and [str(exc)]. *)
Record exn : Type := { exn_class : ExnClass; exn_str : string }.

Definition is_ValueError (e : exn) : bool :=
  match exn_class e with ValueError => true | _ => false end.

Definition is_TwilioRestException (e : exn) : bool :=
  match exn_class e with TwilioRestException => true | _ => false end.

Inductive Result (A : Type) : Type :=
| Ok (a : A)
| Raise (e : exn).
Arguments Ok {A} a.
Arguments Raise {A} e.

Definition raised {A} (r : Result A) : bool :=
  match r with Ok _ => false | Raise _ => true end.

(** What an observer of the collaborators sees. *)
Inductive Event : Type :=
| Persisted (call_id : Z) (st : CallStatus)   (* a committed write of a row *)
| Slept (seconds : Q)                         (* asyncio.sleep returned *)
| Dispatch (to_number msg : string)           (* place_call was invoked *)
| ClientCreate (to_number twiml from_ : string). (* calls.create was invoked *)

(** The state of the collaborators.  [next_id] is the primary key the
    table gives to the next row it inserts.  The column is
    [Column(Integer, primary_key=True)] and the engine, unless the
    deployment sets another, is SQLite: the key of a new row is the
    greatest key of the table plus one, so the key of a deleted row at the
    top of the range is handed out again. *)
Record World : Type := {
  rows : gmap Z CallLog.t;      (* committed rows of table calls *)
  next_id : Z;                  (* next primary key the table hands out *)
  clock : Q;                    (* seconds *)
  steps : nat;                  (* collaborator interactions so far *)
  trace : list (Q * Event)      (* time-stamped events, newest first *)
}.

(** The behaviour of the storage engine and of the scheduler, by
    interaction number. *)
Record Env : Type := {
  db_fault : nat -> option string;  (* the storage operation raises this *)
  latency : nat -> Q                (* time the interaction takes *)
}.

Definition M (A : Type) : Type := World -> Result A * World.

Definition ret {A} (a : A) : M A := fun w => (Ok a, w).

Definition bind {A B} (m : M A) (k : A -> M B) : M B :=
  fun w =>
    match m w with
    | (Ok a, w') => k a w'
    | (Raise e, w') => (Raise e, w')
    end.

Definition raise {A} (e : exn) : M A := fun w => (Raise e, w).

(** [try: ... except ...]: the outcome of [m] as a value. *)
Definition attempt {A} (m : M A) : M (Result A) :=
  fun w => let '(r, w') := m w in (Ok r, w').

Notation "x <- m ;; k" := (bind m (fun x => k))
  (at level 100, m at next level, right associativity).
Notation "m ;;; k" := (bind m (fun _ => k))
  (at level 100, right associativity).

Definition set_rows (r : gmap Z CallLog.t) (w : World) : World :=
  {| rows := r; next_id := next_id w; clock := clock w; steps := steps w; trace := trace w |}.

Definition set_next_id (n : Z) (w : World) : World :=
  {| rows := rows w; next_id := n; clock := clock w; steps := steps w; trace := trace w |}.

(** The key SQLite gives to the next row of a table: the greatest key in
    use plus one, 1 for an empty table. *)
Definition next_key (table : gmap Z CallLog.t) : Z :=
  (foldr Z.max 0 (List.map fst (map_to_list table)) + 1)%Z.

(** The world after one interaction with a collaborator that takes
    [extra + latency] seconds. *)
Definition advance (env : Env) (extra : Q) (w : World) : World :=
  {| rows := rows w; next_id := next_id w;
     clock := clock w + extra + latency env (steps w);
     steps := S (steps w); trace := trace w |}.

Definition observe (e : Event) (w : World) : World :=
  {| rows := rows w; next_id := next_id w; clock := clock w; steps := steps w;
     trace := (clock w, e) :: trace w |}.

(** One interaction with a collaborator; it is given its number. *)
Definition tick (env : Env) (extra : Q) : M nat :=
  fun w => (Ok (steps w), advance env extra w).

Definition emit (e : Event) : M unit := fun w => (Ok tt, observe e w).

Definition utcnow : M Q := fun w => (Ok (clock w), w).

Definition db_error (msg : string) : exn :=
  {| exn_class := SQLAlchemyError; exn_str := msg |}.

(** A storage round trip that may fail. *)
Definition storage_op (env : Env) : M unit :=
  n <- tick env 0 ;;
  match db_fault env n with
  | Some msg => raise (db_error msg)
  | None => ret tt
  end.

(** [await session.get(CallLog, call_id)] *)
Definition session_get (env : Env) (call_id : Z) : M (option CallLog.t) :=
  storage_op env ;;;
  fun w => (Ok (rows w !! call_id), w).

(** [await session.commit()] with the objects the session holds dirty or
    new, each under the primary key of its identity in the session.
    Nothing reaches [rows] unless the commit goes through. *)
Fixpoint write_rows (logs : list (Z * CallLog.t)) : M unit :=
  match logs with
  | [] => ret tt
  | (key, log) :: logs' =>
      (fun w => (Ok tt, set_rows (<[key := log]> (rows w)) w)) ;;;
      emit (Persisted key (CallLog.status log)) ;;;
      write_rows logs'
  end.

Definition session_commit (env : Env) (logs : list (Z * CallLog.t)) : M unit :=
  storage_op env ;;;
  write_rows logs.

(** [await asyncio.sleep(seconds)] *)
Definition asyncio_sleep (env : Env) (seconds : Q) : M unit :=
  tick env seconds ;;;
  emit (Slept seconds).

(** ** [app/services/twilio_service.py] *)

Module CallResult.
Record t : Type := {
  success : bool;
  sid : option string;
  duration : option Z;
  error : option string
}.
End CallResult.

(** What [self._client.calls.create] does: a call resource, or an
    exception. *)
Inductive ClientOutcome : Type :=
| Created (sid : string) (duration : option Z)
| Failed (e : exn).

Module TwilioService.

Record t : Type := {
  account_sid : string;
  auth_token : string;
  from_number : string;
  calls_create : nat -> string -> string -> string -> ClientOutcome
    (* interaction number, twiml, to, from_ *)
}.

Definition TEST_MODE_MESSAGE : string :=
  "Only Twilio test numbers are permitted. Use numbers beginning with +1500.".

Definition ensure_test_mode (num : string) : M unit :=
  if negb (startswith num TWILIO_TEST_PREFIX) then
    raise {| exn_class := ValueError; exn_str := TEST_MODE_MESSAGE |}
  else ret tt.

(** The f-string that builds the TwiML document. *)
Definition twiml_of (msg : string) : string :=
  "<Response><Say voice='Polly.Joanna'>" ++ msg ++ "</Say></Response>".

(** The [try] block of [place_call] and its two handlers. *)
Definition result_of (outcome : ClientOutcome) : CallResult.t :=
  match outcome with
  | Created call_sid call_duration =>
      {| CallResult.success := true; CallResult.sid := Some call_sid;
         CallResult.duration := call_duration; CallResult.error := None |}
  | Failed exc =>
      if is_TwilioRestException exc then
        {| CallResult.success := false; CallResult.sid := None;
           CallResult.duration := None;
           CallResult.error := strip_ansi (Some (exn_str exc)) |}
      else
        {| CallResult.success := false; CallResult.sid := None;
           CallResult.duration := None;
           CallResult.error :=
             strip_ansi (Some ("Unexpected error: " ++ exn_str exc)) |}
  end.

Definition place_call (env : Env) (self : t) (to_number msg : string)
  : M CallResult.t :=
  emit (Dispatch to_number msg) ;;;
  ensure_test_mode to_number ;;;
  let twiml := twiml_of msg in
  n <- tick env 0 ;;
  emit (ClientCreate to_number twiml (from_number self)) ;;;
  ret (result_of (calls_create self n twiml to_number (from_number self))).

End TwilioService.

(** ** [app/services/call_manager.py] *)

Definition RATE_LIMIT_SECONDS : Q := 2.5.

Module CallTask.
Record t : Type := { id : Z; number : string; message : string }.
End CallTask.

(** [x or ""] *)
Definition or_empty (x : option string) : string :=
  match x with
  | Some (String a s) => String a s
  | _ => EmptyString
  end.

(** The body of the loop of [enqueue_calls]: [nid] is the key the next
    insert gets, [pending] the rows flushed in this transaction. *)
Fixpoint enqueue_loop (env : Env) (numbers : list string) (msg : string)
         (nid : Z) (pending : list (Z * CallLog.t)) (tasks : list CallTask.t)
  : M (Z * list (Z * CallLog.t) * list CallTask.t) :=
  match numbers with
  | [] => ret (nid, pending, tasks)
  | num :: numbers' =>
      storage_op env ;;;                          (* session.add; flush *)
      now <- utcnow ;;
      let log :=
        {| CallLog.id := nid; CallLog.number := num;
           CallLog.message := Some msg; CallLog.status := QUEUED;
           CallLog.duration := None; CallLog.error := None;
           CallLog.call_sid := None;
           CallLog.created_at := now; CallLog.updated_at := now |} in
      enqueue_loop env numbers' msg (nid + 1)%Z (pending ++ [(nid, log)])
        (tasks ++ [ {| CallTask.id := CallLog.id log;
                       CallTask.number := CallLog.number log;
                       CallTask.message := or_empty (CallLog.message log) |} ])
  end.

Definition enqueue_calls (env : Env) (numbers : list string) (msg : string)
  : M (list CallTask.t) :=
  first_id <- (fun w => (Ok (next_id w), w)) ;;
  flushed <- enqueue_loop env numbers msg first_id [] [] ;;
  let '(nid, pending, tasks) := flushed in
  session_commit env pending ;;;
  (fun w => (Ok tt, set_next_id nid w)) ;;;
  ret tasks.

Definition _update_status (env : Env) (call_id : Z) (st : CallStatus)
           (err : option string) : M unit :=
  log <- session_get env call_id ;;
  match log with
  | None => ret tt
  | Some log =>
      now <- utcnow ;;
      session_commit env [(call_id, CallLog.mark log st None err None now)]
  end.

Definition _finalise (env : Env) (call_id : Z) (result : CallResult.t) : M unit :=
  let st := if CallResult.success result then SUCCESS else FAILED in
  log <- session_get env call_id ;;
  match log with
  | None => ret tt
  | Some log =>
      now <- utcnow ;;
      session_commit env
        [(call_id,
          CallLog.mark log st (CallResult.duration result) (CallResult.error result)
            (CallResult.sid result) now)]
  end.

(** The body of the loop of [execute_call_sequence]. *)
Definition process_task (env : Env) (twilio_service : TwilioService.t)
           (task : CallTask.t) : M unit :=
  _update_status env (CallTask.id task) IN_PROGRESS None ;;;
  asyncio_sleep env RATE_LIMIT_SECONDS ;;;
  outcome <- attempt (TwilioService.place_call env twilio_service
                        (CallTask.number task) (CallTask.message task)) ;;
  match outcome with
  | Raise exc =>
      if is_ValueError exc then
        _update_status env (CallTask.id task) SKIPPED (Some (exn_str exc))
      else raise exc
  | Ok result => _finalise env (CallTask.id task) result
  end.

Fixpoint execute_call_sequence (env : Env) (twilio_service : TwilioService.t)
         (tasks : list CallTask.t) : M unit :=
  match tasks with
  | [] => ret tt
  | task :: tasks' =>
      process_task env twilio_service task ;;;
      execute_call_sequence env twilio_service tasks'
  end.

(** ** The rest of [app/utils.py] *)

(** The whitespace of [str.strip()] among the code points below 256. *)
Definition is_space (a : ascii) : bool :=
  let n := N_of_ascii a in
  ((9 <=? n) && (n <=? 13) || (28 <=? n) && (n <=? 32)
   || (n =? 133) || (n =? 160))%N.

Fixpoint lstrip (s : string) : string :=
  match s with
  | EmptyString => EmptyString
  | String a s' => if is_space a then lstrip s' else s
  end.

Fixpoint rstrip (s : string) : string :=
  match s with
  | EmptyString => EmptyString
  | String a s' =>
      match rstrip s' with
      | EmptyString => if is_space a then EmptyString else String a EmptyString
      | t => String a t
      end
  end.

(** [str.strip()] *)
Definition strip (s : string) : string := lstrip (rstrip s).

(** [\d] on the code points below 256. *)
Definition is_digit (a : ascii) : bool := Re.in_range "0" "9" a.

(** The characters [[^\d\+]] leaves out. *)
Definition is_dial_char (a : ascii) : bool := is_digit a || Ascii.eqb a "+".

(** [re.sub(r"[^\d\+]", "", s)]: every character outside the class goes. *)
Fixpoint keep_dial_chars (s : string) : string :=
  match s with
  | EmptyString => EmptyString
  | String a s' =>
      if is_dial_char a then String a (keep_dial_chars s')
      else keep_dial_chars s'
  end.

(** [s[n:]] for [n >= 0]. *)
Fixpoint string_drop (n : nat) (s : string) : string :=
  match n, s with
  | O, _ => s
  | S n', String _ s' => string_drop n' s'
  | S _, EmptyString => EmptyString
  end.

(** The prefix rules of [normalize_number], on the sanitised text. *)
Definition canonical_prefix (number : string) : string :=
  let number :=
    if startswith number "00" then "+" ++ string_drop 2 number else number in
  let number :=
    if startswith number "0" && negb (startswith number "+")
    then string_drop 1 number else number in
  let number :=
    if startswith number "91" && (String.length number =? 12)%nat
    then "+" ++ number else number in
  if startswith number "+" && (1 <? String.length number)%nat then number
  else if (String.length number =? 10)%nat then "+91" ++ number
  else number.

Definition normalize_number (raw : string) : string :=
  canonical_prefix (keep_dial_chars (strip raw)).

(** The separators of [re.split(r"[,\n; ]+", ...)]. *)
Definition is_separator (a : ascii) : bool :=
  Ascii.eqb a "," || Ascii.eqb a "010" || Ascii.eqb a ";" || Ascii.eqb a " ".

(** [re.split] on runs of separators: [cur] is the piece being read,
    [in_run] tells that the last character was a separator. *)
Fixpoint split_loop (s : string) (cur : string) (in_run : bool) : list string :=
  match s with
  | EmptyString => [cur]
  | String a s' =>
      if is_separator a then
        if in_run then split_loop s' EmptyString true
        else cur :: split_loop s' EmptyString true
      else split_loop s' (cur ++ String a EmptyString) false
  end.

Definition re_split_separators (s : string) : list string :=
  split_loop s EmptyString false.

(** The truth value of a string. *)
Definition truthy (s : string) : bool :=
  match s with EmptyString => false | _ => true end.

Definition parse_numbers_from_text (value : string) : list string :=
  let candidates := re_split_separators (strip value) in
  let normalized :=
    List.map normalize_number
      (List.filter (fun token => truthy (strip token)) candidates) in
  List.filter truthy normalized.

(** The loop of [unique_preserve_order]. *)
Fixpoint unique_loop (numbers : list string) (seen : gset string)
         (unique : list string) : list string :=
  match numbers with
  | [] => unique
  | num :: numbers' =>
      if truthy num && negb (bool_decide (num ∈ seen))
      then unique_loop numbers' ({[ num ]} ∪ seen) (unique ++ [num])
      else unique_loop numbers' seen unique
  end.

Definition unique_preserve_order (numbers : list string) : list string :=
  unique_loop numbers ∅ [].

(** [l[:stop]]: a negative [stop] counts from the end. *)
Definition slice_to {A} (l : list A) (stop : Z) : list A :=
  if (0 <=? stop)%Z then firstn (Z.to_nat stop) l
  else firstn (length l - Z.to_nat (- stop)) l.

Definition limit_numbers (numbers : list string) (limit : Z) : list string :=
  slice_to numbers limit.

(** ** [app/routes/calls.py] and [app/routes/ai_prompt.py] *)

Definition DEFAULT_MESSAGE : string := "Hello from Autodialer test system.".

(** The warning an invalid verdict contributes: its reason, if it has a
    non-empty one. *)
Definition warning_of (item : NumberValidationResult) : option string :=
  if negb (is_valid item) then
    match reason item with
    | Some r => if truthy r then Some r else None
    | None => None
    end
  else None.

(** [upload_numbers] from the parsed candidates to the numbers it queues
    and the warnings it shows. *)
Definition screen_numbers (numbers : list string) : list string * list string :=
  let numbers := unique_preserve_order numbers in
  let numbers := limit_numbers numbers (Z.of_nat MAX_BULK_UPLOAD) in
  let validations := List.map validate_number numbers in
  let valid_numbers := List.map number (List.filter is_valid validations) in
  let warnings :=
    List.flat_map (fun item => match warning_of item with
                               | Some r => [r]
                               | None => []
                               end) validations in
  (valid_numbers, warnings).

(** The candidates of a request: those of the text area, then those
    [parse_numbers_from_csv] has read from the file, if a file came with
    the request. *)
Definition upload_candidates (numbers_text : string)
           (file_numbers : option (list string)) : list string :=
  let numbers :=
    if truthy numbers_text then parse_numbers_from_text numbers_text else [] in
  match file_numbers with
  | Some more => (numbers ++ more)%list
  | None => numbers
  end.

(** [upload_numbers], without the rendering of the page: the batch it
    queues and the warnings.  The tasks it returns are those it hands to
    the background run; with no accepted number it queues nothing and
    starts no run. *)
Definition upload_numbers (env : Env) (numbers_text : string)
           (file_numbers : option (list string))
  : M (list CallTask.t * list string) :=
  let numbers := upload_candidates numbers_text file_numbers in
  let '(valid_numbers, warnings) := screen_numbers numbers in
  match valid_numbers with
  | [] => ret ([], warnings)
  | _ =>
      tasks <- enqueue_calls env valid_numbers DEFAULT_MESSAGE ;;
      ret (tasks, warnings)
  end.

(** The request and the background job that follows it, once the page is
    rendered and sent; the rendering reads the table and writes nothing. *)
Definition upload_and_run (env : Env) (twilio_service : TwilioService.t)
           (numbers_text : string) (file_numbers : option (list string))
  : M (list CallTask.t * list string) :=
  queued <- upload_numbers env numbers_text file_numbers ;;
  execute_call_sequence env twilio_service (fst queued) ;;;
  ret queued.

Module PromptParseResult.
Record t : Type := {
  number : option string;
  message : option string;
  raw_response : string
}.
End PromptParseResult.

Module AIValidationFeedback.
Record t : Type := {
  number : option string;
  message : string;
  warnings : list string
}.
End AIValidationFeedback.

Definition NO_NUMBER_WARNING : string :=
  "No phone number could be extracted. Add a valid Twilio test number in your prompt.".

(** [x or default] on an optional string. *)
Definition or_default (x : option string) (default : string) : string :=
  match x with
  | Some (String a s) => String a s
  | _ => default
  end.

Definition _validate_ai_result (parsed : PromptParseResult.t)
  : AIValidationFeedback.t :=
  match PromptParseResult.number parsed with
  | None | Some EmptyString =>
      {| AIValidationFeedback.number := None;
         AIValidationFeedback.message :=
           or_default (PromptParseResult.message parsed) EmptyString;
         AIValidationFeedback.warnings := [NO_NUMBER_WARNING] |}
  | Some num =>
      let validation := validate_number num in
      if negb (is_valid validation) then
        {| AIValidationFeedback.number := None;
           AIValidationFeedback.message :=
             or_default (PromptParseResult.message parsed) EmptyString;
           AIValidationFeedback.warnings :=
             [or_default (reason validation) "Unsupported number provided."] |}
      else
        {| AIValidationFeedback.number := Some (number validation);
           AIValidationFeedback.message :=
             or_default (PromptParseResult.message parsed)
               "Hello from Autodialer test system.";
           AIValidationFeedback.warnings := [] |}
  end.

(** Every character of [s] satisfies [p]. *)
Fixpoint string_all (p : ascii -> bool) (s : string) : bool :=
  match s with
  | EmptyString => true
  | String a s' => p a && string_all p s'
  end.

(** [sep.join(parts)] *)
Fixpoint join (sep : string) (parts : list string) : string :=
  match parts with
  | [] => EmptyString
  | [part] => part
  | part :: parts' => part ++ sep ++ join sep parts'
  end.

(** The spellings of a national number [d] the normaliser knows: bare, with
    the trunk [0], with [91], with [0091] and with [+91]. *)
Definition spellings (d : string) : list string :=
  [d; "0" ++ d; "91" ++ d; "0091" ++ d; "+91" ++ d].

(** An event that is no call of the client outside the test range. *)
Definition in_test_range (te : Q * Event) : Prop :=
  match snd te with
  | ClientCreate to_number _ _ => startswith to_number TWILIO_TEST_PREFIX = true
  | _ => True
  end.

(** The later world has the trace of the earlier one and, on top of it,
    only events that satisfy [P]. *)
Definition extends_trace (P : Q * Event -> Prop) (w w' : World) : Prop :=
  exists evs, trace w' = (evs ++ trace w)%list /\ Forall P evs.

(** The arguments of one call of [mark], and the clock reading at it. *)
Module MarkCall.
Record t : Type := {
  status : CallStatus;
  duration : option Z;
  error : option string;
  call_sid : option string;
  utcnow : Q
}.
End MarkCall.

(** A row after a series of calls of [mark], oldest first. *)
Definition mark_all (log : CallLog.t) (calls : list MarkCall.t) : CallLog.t :=
  fold_left (fun row c =>
               CallLog.mark row (MarkCall.status c) (MarkCall.duration c)
                 (MarkCall.error c) (MarkCall.call_sid c) (MarkCall.utcnow c))
            calls log.

(** The columns no update writes. *)
Definition same_columns (log log' : CallLog.t) : Prop :=
  CallLog.id log' = CallLog.id log
  /\ CallLog.number log' = CallLog.number log
  /\ CallLog.message log' = CallLog.message log
  /\ CallLog.created_at log' = CallLog.created_at log.

(** The table of the later world has the rows of the earlier one, under
    the same keys and with the same fixed columns. *)
Definition same_rows (w w' : World) : Prop :=
  forall k,
    match rows w !! k, rows w' !! k with
    | Some log, Some log' => same_columns log log'
    | None, None => True
    | _, _ => False
    end.

(** ** [app/services/ai_service.py]: the fallback *)

(** [r{0,n}], greedy: as many as possible first, one less on each
    backtrack. *)
Fixpoint upto (n : nat) (r : Re.regex) : Re.regex :=
  match n with
  | O => Re.Eps
  | S n' => Re.Opt (Re.Seq r (upto n' r))
  end.

(** [r"\+?\d{7,15}"] *)
Definition FALLBACK_NUMBER_REGEX : Re.regex :=
  Re.Seq (Re.Opt (Re.Chr "+"))
    (Re.Seq (Re.times 7 (Re.Range "0" "9")) (upto 8 (Re.Range "0" "9"))).

(** The first item of [re.findall(pattern, s)], if there is one, for a
    pattern without groups that matches no empty text: the text of the
    leftmost match. *)
Fixpoint first_match (r : Re.regex) (s : string) : option string :=
  match Re.re_match r s with
  | Some m => Some (substring 0 (String.length s - String.length (Re.rest m)) s)
  | None =>
      match s with
      | EmptyString => None
      | String _ s' => first_match r s'
      end
  end.

Definition _fallback_number (prompt : string) : option string :=
  match first_match FALLBACK_NUMBER_REGEX prompt with
  | Some digits0 => Some (normalize_number digits0)
  | None => None
  end.

(** ** The statistics of [build_dashboard_context] *)

(** The rows of the table with status [st]. *)
Definition count_rows (st : CallStatus) (table : gmap Z CallLog.t) : nat :=
  length (List.filter (fun row => CallStatus_eqb (CallLog.status (snd row)) st)
            (map_to_list table)).

(** [select(CallLog.status, func.count()).group_by(CallLog.status)] on the
    committed rows: one line for each status that occurs, with the number
    of its rows.  The order of the lines is the engine's; the code reads
    them into a dict and nothing depends on it. *)
Definition stats_result (table : gmap Z CallLog.t) : list (CallStatus * nat) :=
  flat_map (fun st => match count_rows st table with
                      | O => []
                      | n => [(st, n)]
                      end)
           [QUEUED; IN_PROGRESS; SUCCESS; FAILED; SKIPPED].

(** [stats_map.get(status.value, default)] *)
Definition stats_get (stats_map : list (CallStatus * nat)) (st : CallStatus)
           (default : nat) : nat :=
  match List.find (fun line => CallStatus_eqb (fst line) st) stats_map with
  | Some line => snd line
  | None => default
  end.

Module DashboardStats.
Record t : Type := {
  success : nat;
  failed : nat;
  skipped : nat;
  queued : nat;
  in_progress : nat;
  total_calls : nat
}.
End DashboardStats.

(** The counters of the context [build_dashboard_context] returns. *)
Definition dashboard_stats (table : gmap Z CallLog.t) : DashboardStats.t :=
  let stats_map := stats_result table in
  {| DashboardStats.success := stats_get stats_map SUCCESS 0;
     DashboardStats.failed := stats_get stats_map FAILED 0;
     DashboardStats.skipped := stats_get stats_map SKIPPED 0;
     DashboardStats.queued := stats_get stats_map QUEUED 0;
     DashboardStats.in_progress := stats_get stats_map IN_PROGRESS 0;
     DashboardStats.total_calls := list_sum (List.map snd stats_map) |}.

(** ** What the patterns mean *)

(** Every character of [s] lies in [[lo-hi]]. *)
Fixpoint all_in (lo hi : ascii) (s : string) : bool :=
  match s with
  | EmptyString => true
  | String a s' => Re.in_range lo hi a && all_in lo hi s'
  end.

(** [lang r s s']: the pattern [r] matches a prefix of [s] and leaves
    [s']. *)
Fixpoint lang (r : Re.regex) (s s' : string) : Prop :=
  match r with
  | Re.Eps => s' = s
  | Re.Chr c => s = String c s'
  | Re.Range lo hi => exists a, Re.in_range lo hi a = true /\ s = String a s'
  | Re.Seq r1 r2 => exists m, lang r1 s m /\ lang r2 m s'
  | Re.Alt r1 r2 => lang r1 s s' \/ lang r2 s s'
  | Re.Opt r1 => lang r1 s s' \/ s' = s
  | Re.StarRange lo hi => exists run, all_in lo hi run = true /\ s = run ++ s'
  | Re.Group r1 => lang r1 s s'
  | Re.Eol => s' = s /\ (s = EmptyString \/ s = String "010" EmptyString)
  end.

(** The strings [INDIAN_NUMBER_REGEX] is written for: an optional [+91] or
    [0], a digit from 6 to 9, nine more digits, and nothing else but, as
    [$] allows, one final newline. *)
Definition indian_shape (s : string) : Prop :=
  exists (pre : string) (d : ascii) (ds nl : string),
    s = pre ++ String d ds ++ nl
    /\ (pre = "+91" \/ pre = "0" \/ pre = EmptyString)
    /\ Re.in_range "6" "9" d = true
    /\ String.length ds = 9%nat
    /\ all_in "0" "9" ds = true
    /\ (nl = EmptyString \/ nl = String "010" EmptyString).

(** An ANSI control sequence: ESC, [[], parameter characters, intermediate
    characters and one final character. *)
Definition csi_sequence (s : string) : Prop :=
  exists (params inters : string) (final : ascii),
    s = String ESC (String "[" (params ++ inters ++ String final EmptyString))
    /\ all_in "0" "?" params = true
    /\ all_in " " "/" inters = true
    /\ Re.in_range "@" "~" final = true.

(** No character of [s] is ESC. *)
Fixpoint esc_free (s : string) : bool :=
  match s with
  | EmptyString => true
  | String a s' => negb (Ascii.eqb a ESC) && esc_free s'
  end.

(** A text with control sequences in it: each segment is a stretch of
    text and the sequence that follows it; [last] is the text after the
    last sequence. *)
Fixpoint coloured (segments : list (string * string)) (last : string) : string :=
  match segments with
  | [] => last
  | (text, csi) :: segments' => text ++ csi ++ coloured segments' last
  end.

(** The same text without its control sequences. *)
Fixpoint plain_text (segments : list (string * string)) (last : string) : string :=
  match segments with
  | [] => last
  | (text, _) :: segments' => text ++ plain_text segments' last
  end.

(** [s] holds [n] digits in a row. *)
Definition has_digit_run (n : nat) (s : string) : Prop :=
  exists pre ds post : string,
    s = pre ++ ds ++ post
    /\ String.length ds = n
    /\ all_in "0" "9" ds = true.

(** [s] does not go on with a digit. *)
Definition no_digit_ahead (s : string) : Prop :=
  match s with
  | EmptyString => True
  | String a _ => is_digit a = false
  end.

(** The control characters: the codes below 32, and 127. *)
Definition is_control (a : ascii) : bool :=
  (N_of_ascii a <? 32)%N || (N_of_ascii a =? 127)%N.

Fixpoint control_free (s : string) : bool :=
  match s with
  | EmptyString => true
  | String a s' => negb (is_control a) && control_free s'
  end.

(** The text a failed call leaves as error detail, before the escape
    sequences are taken out. *)
Definition failure_text (exc : exn) : string :=
  if is_TwilioRestException exc then exn_str exc
  else "Unexpected error: " ++ exn_str exc.

(** ** Vocabulary of the properties *)

(** The storage engine never fails. *)
Definition reliable (env : Env) : Prop := forall n, db_fault env n = None.

(** No interaction takes negative time. *)
Definition causal (env : Env) : Prop := forall n, (0 <= latency env n)%Q.

(** The optional columns of a row as [enqueue_calls] creates it. *)
Definition blank (log : CallLog.t) : Prop :=
  CallLog.duration log = None
  /\ CallLog.error log = None
  /\ CallLog.call_sid log = None.

(** The world in which the sequencer invokes the transport for a task:
    after the in_progress update and the pause. *)
Definition at_dispatch (env : Env) (task : CallTask.t) (w : World) : World :=
  snd ((_update_status env (CallTask.id task) IN_PROGRESS None ;;;
        asyncio_sleep env RATE_LIMIT_SECONDS) w).

(** What the transport answers to the dispatch of a task. *)
Definition dispatch_outcome (env : Env) (twilio_service : TwilioService.t)
           (task : CallTask.t) (w : World) : Result CallResult.t :=
  fst (TwilioService.place_call env twilio_service
         (CallTask.number task) (CallTask.message task) (at_dispatch env task w)).

(** The events of a trace that are invocations of the transport. *)
Definition is_dispatch (e : Q * Event) : bool :=
  match snd e with Dispatch _ _ => true | _ => false end.

Definition dispatches (tr : list (Q * Event)) : list (Q * Event) :=
  List.filter is_dispatch tr.

(** The statuses committed for a row, oldest first. *)
Fixpoint transitions (call_id : Z) (tr : list (Q * Event)) : list CallStatus :=
  match tr with
  | [] => []
  | (_, Persisted k st) :: tr' =>
      if Z.eqb k call_id then transitions call_id tr' ++ [st]
      else transitions call_id tr'
  | _ :: tr' => transitions call_id tr'
  end.

(** A task is abandoned: its processing raises nothing and the transport
    is not invoked for it. *)
Definition abandons (env : Env) (twilio_service : TwilioService.t)
           (task : CallTask.t) (w : World) : Prop :=
  fst (process_task env twilio_service task w) = Ok tt
  /\ dispatches (trace (snd (process_task env twilio_service task w)))
     = dispatches (trace w).

(** The row [enqueue_calls] inserts for a number. *)
Definition queued_log (key : Z) (num msg : string) (now : Q) : CallLog.t :=
  {| CallLog.id := key; CallLog.number := num; CallLog.message := Some msg;
     CallLog.status := QUEUED; CallLog.duration := None; CallLog.error := None;
     CallLog.call_sid := None; CallLog.created_at := now;
     CallLog.updated_at := now |}.

(** The task handles of a batch, in the order of the numbers, with
    consecutive keys from [nid] on. *)
Fixpoint new_tasks (numbers : list string) (msg : string) (nid : Z)
  : list CallTask.t :=
  match numbers with
  | [] => []
  | num :: numbers' =>
      {| CallTask.id := nid; CallTask.number := num; CallTask.message := msg |}
        :: new_tasks numbers' msg (nid + 1)%Z
  end.

(** The rows of a batch, each stamped with the clock at its flush. *)
Fixpoint new_rows (env : Env) (numbers : list string) (msg : string) (nid : Z)
         (w : World) : list (Z * CallLog.t) :=
  match numbers with
  | [] => []
  | num :: numbers' =>
      (nid, queued_log nid num msg (clock (advance env 0 w)))
        :: new_rows env numbers' msg (nid + 1)%Z (advance env 0 w)
  end.

Fixpoint advance_n (env : Env) (n : nat) (w : World) : World :=
  match n with
  | O => w
  | S n' => advance_n env n' (advance env 0 w)
  end.

(** No storage failure among the [n] interactions from number [from] on. *)
Definition faultless (env : Env) (from n : nat) : Prop :=
  forall k, (k < n)%nat -> db_fault env (from + k) = None.

(** The builder returns task handles. *)
Definition returns_tasks (env : Env) (numbers : list string) (msg : string)
           (w : World) : Prop :=
  exists tasks, fst (enqueue_calls env numbers msg w) = Ok tasks.

(** The arguments of the [mark] that settles a row: a skip or a failure
    brings neither duration nor reference, a success no error detail. *)
Definition terminal_args (st : CallStatus) (d : option Z) (e s : option string)
  : Prop :=
  ((st = SKIPPED \/ st = FAILED) /\ d = None /\ s = None)
  \/ (st = SUCCESS /\ e = None).

(** The invariant of the data model on one row. *)
Definition fields_ok (log : CallLog.t) : Prop :=
  (CallLog.duration log <> None -> CallLog.status log = SUCCESS)
  /\ (CallLog.call_sid log <> None -> CallLog.status log = SUCCESS)
  /\ (CallLog.error log <> None ->
      CallLog.status log = FAILED \/ CallLog.status log = SKIPPED).

(** The events one task adds to the trace, newest first: nothing when the
    in_progress update fails; else the commit of in_progress if the row
    exists, the pause, the dispatch, the call of the client if the number
    passes the safety check, and the commit of the terminal status if the
    row is still there and the commit goes through. *)
Inductive task_events (task : CallTask.t) : list Event -> Prop :=
| te_aborted : task_events task []
| te_dispatched (fin cc ip : list Event) :
    (fin = []
     \/ exists st, is_terminal st = true
                   /\ fin = [Persisted (CallTask.id task) st]) ->
    (cc = []
     \/ exists from_, cc = [ClientCreate (CallTask.number task)
                              (TwilioService.twiml_of (CallTask.message task))
                              from_]) ->
    (ip = [] \/ ip = [Persisted (CallTask.id task) IN_PROGRESS]) ->
    task_events task
      (fin ++ cc
           ++ [Dispatch (CallTask.number task) (CallTask.message task);
               Slept RATE_LIMIT_SECONDS]
           ++ ip)%list.

(** The events of a run, newest first. *)
Inductive run_events : list CallTask.t -> list Event -> Prop :=
| re_done (tasks : list CallTask.t) : run_events tasks []
| re_task (task : CallTask.t) (tasks : list CallTask.t) (e1 e2 : list Event) :
    task_events task e1 ->
    run_events tasks e2 ->
    run_events (task :: tasks) (e2 ++ e1)%list.

(** Consecutive time stamps, newest first, are [gap] apart or more. *)
Fixpoint spaced (gap : Q) (ts : list Q) : Prop :=
  match ts with
  | t1 :: ((t2 :: _) as ts') => (t2 + gap <= t1)%Q /\ spaced gap ts'
  | _ => True
  end.

Definition dispatch_times (tr : list (Q * Event)) : list Q :=
  List.map fst (dispatches tr).

(** The time stamp of an event lies between [lo] and [hi], and that of a
    dispatch at least [gap] after [lo]. *)
Definition stamped (lo hi gap : Q) (te : Q * Event) : Prop :=
  (lo <= fst te)%Q /\ (fst te <= hi)%Q
  /\ (is_dispatch te = true -> (lo + gap <= fst te)%Q).

(** A storage update that wrote nothing. *)
Definition quiet_step (env : Env) (w w' : World) : Prop :=
  rows w' = rows w /\ next_id w' = next_id w /\ trace w' = trace w
  /\ (causal env -> (clock w <= clock w')%Q).

(** A storage update that committed [log'] under [key]. *)
Definition write_step (env : Env) (key : Z) (log' : CallLog.t) (w w' : World)
  : Prop :=
  rows w' = <[key := log']> (rows w) /\ next_id w' = next_id w
  /\ trace w' = (clock w', Persisted key (CallLog.status log')) :: trace w
  /\ (causal env -> (clock w <= clock w')%Q).

(** The world after the pause. *)
Definition paused (env : Env) (w : World) : World :=
  observe (Slept RATE_LIMIT_SECONDS) (advance env RATE_LIMIT_SECONDS w).

(** The dispatch the sequencer makes for a task. *)
Definition dispatch_of (task : CallTask.t) : Event :=
  Dispatch (CallTask.number task) (CallTask.message task).

(** No exception leaves the run. *)
Definition contains_errors (env : Env) (twilio_service : TwilioService.t)
           (tasks : list CallTask.t) (w : World) : Prop :=
  fst (execute_call_sequence env twilio_service tasks w) = Ok tt.

(** The world in which a run started in [w] takes up its task number [i];
    [None] when the run has fewer tasks or has ended before, by an
    exception. *)
Fixpoint world_at (env : Env) (twilio_service : TwilioService.t)
         (tasks : list CallTask.t) (w : World) (i : nat) : option World :=
  match tasks with
  | [] => None
  | task :: tasks' =>
      match i with
      | O => Some w
      | S i' =>
          match process_task env twilio_service task w with
          | (Ok _, w1) => world_at env twilio_service tasks' w1 i'
          | (Raise _, _) => None
          end
      end
  end.

(** The storage error an update of row [call_id] meets in [w], if any: at
    the lookup, or at the commit when the row is there. *)
Definition update_fault (env : Env) (call_id : Z) (w : World) : option string :=
  match db_fault env (steps w) with
  | Some m => Some m
  | None =>
      match rows w !! call_id with
      | None => None
      | Some _ => db_fault env (S (steps w))
      end
  end.

(** The world in which the sequencer settles a task: after the transport
    has answered. *)
Definition at_settle (env : Env) (twilio_service : TwilioService.t)
           (task : CallTask.t) (w : World) : World :=
  snd (TwilioService.place_call env twilio_service
         (CallTask.number task) (CallTask.message task) (at_dispatch env task w)).

(** The first storage error a task meets, if any: in its in_progress
    update or in the update that settles it. *)
Definition task_fault (env : Env) (twilio_service : TwilioService.t)
           (task : CallTask.t) (w : World) : option string :=
  match update_fault env (CallTask.id task) w with
  | Some m => Some m
  | None => update_fault env (CallTask.id task)
              (at_settle env twilio_service task w)
  end.

(** ** The core as a transition system

    The routes hand a batch to [enqueue_calls] and its task handles to a
    run of [execute_call_sequence] in the background.  A state holds the
    collaborators and the tasks each run has still to process; runs
    advance one task at a time, in any interleaving. *)

Record Sys : Type := {
  world : World;
  runs : list (list CallTask.t)
}.

(** The operations of the core. *)
Inductive core_step (env : Env) (twilio_service : TwilioService.t)
  : Sys -> Sys -> Prop :=
| step_enqueue (s : Sys) (numbers : list string) (msg : string)
               (tasks : list CallTask.t) (w' : World) :
    enqueue_calls env numbers msg (world s) = (Ok tasks, w') ->
    core_step env twilio_service s {| world := w'; runs := runs s ++ [tasks] |}
| step_enqueue_raise (s : Sys) (numbers : list string) (msg : string)
                     (e : exn) (w' : World) :
    enqueue_calls env numbers msg (world s) = (Raise e, w') ->
    core_step env twilio_service s {| world := w'; runs := runs s |}
| step_task (s : Sys) (before after : list (list CallTask.t))
            (task : CallTask.t) (rest : list CallTask.t) (w' : World) :
    runs s = (before ++ (task :: rest) :: after)%list ->
    process_task env twilio_service task (world s) = (Ok tt, w') ->
    core_step env twilio_service s
      {| world := w'; runs := before ++ rest :: after |}
| step_task_raise (s : Sys) (before after : list (list CallTask.t))
                  (task : CallTask.t) (rest : list CallTask.t) (e : exn)
                  (w' : World) :
    runs s = (before ++ (task :: rest) :: after)%list ->
    process_task env twilio_service task (world s) = (Raise e, w') ->
    core_step env twilio_service s {| world := w'; runs := before ++ after |}.

(** A row deleted behind the back of the core.  The table then gives the
    next row the greatest key left plus one: the key of the deleted row
    again, when it was the greatest. *)
Inductive outside_step : Sys -> Sys -> Prop :=
| step_delete (s : Sys) (key : Z) :
    outside_step s
      {| world := set_next_id (next_key (delete key (rows (world s))))
                    (set_rows (delete key (rows (world s))) (world s));
         runs := runs s |}.

(** The states the system gets to from an empty table, whose first key
    is 1. *)
Inductive reachable (env : Env) (twilio_service : TwilioService.t)
  : Sys -> Prop :=
| reach_init (w : World) :
    rows w = ∅ ->
    next_id w = 1%Z ->
    reachable env twilio_service {| world := w; runs := [] |}
| reach_core (s s' : Sys) :
    reachable env twilio_service s ->
    core_step env twilio_service s s' ->
    reachable env twilio_service s'
| reach_outside (s s' : Sys) :
    reachable env twilio_service s ->
    outside_step s s' ->
    reachable env twilio_service s'.

(** The tasks still to process. *)
Definition pending (s : Sys) : list CallTask.t := concat (runs s).

(** The key of every pending task is in use or was handed out after the
    rows that are left: the table will not hand it out again. *)
Definition keys_held (s : Sys) : Prop :=
  forall task, In task (pending s) ->
               (CallTask.id task < next_id (world s))%Z.

(** The states the system gets to while no deletion frees the key of a
    task that is still pending. *)
Inductive undisturbed (env : Env) (twilio_service : TwilioService.t)
  : Sys -> Prop :=
| und_init (w : World) :
    rows w = ∅ ->
    next_id w = 1%Z ->
    undisturbed env twilio_service {| world := w; runs := [] |}
| und_core (s s' : Sys) :
    undisturbed env twilio_service s ->
    core_step env twilio_service s s' ->
    undisturbed env twilio_service s'
| und_outside (s s' : Sys) :
    undisturbed env twilio_service s ->
    outside_step s s' ->
    keys_held s' ->
    undisturbed env twilio_service s'.


(** The error detail of a failure holds no control character. *)
Definition strips_control (exc : exn) : Prop :=
  forall t,
    CallResult.error (TwilioService.result_of (Failed exc)) = Some t ->
    control_free t = true.

(** ** Sample collaborators *)

Module Sample.

(** A storage engine that never fails, interactions that take no time. *)
Definition env_ok : Env :=
  {| db_fault := fun _ => None; latency := fun _ => 0%Q |}.

(** A storage engine whose interaction number [k] fails. *)
Definition env_fault_at (k : nat) : Env :=
  {| db_fault := fun n => if Nat.eqb n k then Some "database is locked" else None;
     latency := fun _ => 0%Q |}.

(** A client that completes the calls to [+15005550001] and is refused
    by the service for any other number. *)
Definition svc : TwilioService.t :=
  {| TwilioService.account_sid := "AC0";
     TwilioService.auth_token := "token";
     TwilioService.from_number := "+15005550006";
     TwilioService.calls_create := fun _ _ to_number _ =>
       if String.eqb to_number "+15005550001"
       then Created "CA1" (Some 3%Z)
       else Failed {| exn_class := TwilioRestException;
                      exn_str := "HTTP 400 error: Unable to create record" |} |}.

Definition queued_row (key : Z) (num : string) : CallLog.t :=
  {| CallLog.id := key; CallLog.number := num; CallLog.message := Some "hi";
     CallLog.status := QUEUED; CallLog.duration := None;
     CallLog.error := None; CallLog.call_sid := None;
     CallLog.created_at := 0%Q; CallLog.updated_at := 0%Q |}.

Definition empty_world : World :=
  {| rows := ∅; next_id := 1%Z; clock := 0%Q; steps := 0; trace := [] |}.

(** A table with one queued row, for [+15005550001]. *)
Definition one_row_world : World :=
  {| rows := {[ 1%Z := queued_row 1 "+15005550001" ]};
     next_id := 2%Z; clock := 0%Q; steps := 0; trace := [] |}.

Definition task1 : CallTask.t :=
  {| CallTask.id := 1%Z; CallTask.number := "+15005550001";
     CallTask.message := "hi" |}.

(** The service answers with two lines of text. *)
Definition two_line_error : exn :=
  {| exn_class := TwilioRestException;
     exn_str := "HTTP 400 error: Unable to create record"
                  ++ String "010" "The number is unverified" |}.

Definition task2 : CallTask.t :=
  {| CallTask.id := 2%Z; CallTask.number := "+15005550002";
     CallTask.message := "hi" |}.

(** A table with two queued rows. *)
Definition two_row_world : World :=
  {| rows := {[ 1%Z := queued_row 1 "+15005550001";
                2%Z := queued_row 2 "+15005550002" ]};
     next_id := 3%Z; clock := 0%Q; steps := 0; trace := [] |}.

(** The service answers with a text that a terminal would show in
    colour. *)
Definition coloured_error : exn :=
  {| exn_class := TwilioRestException;
     exn_str := "HTTP " ++ String ESC "[1;31m" ++ "400" ++ String ESC "[0m"
                        ++ " error: Unable to create record" |}.

(** A client the service refuses every call of, with this text. *)
Definition svc_coloured : TwilioService.t :=
  {| TwilioService.account_sid := "AC0";
     TwilioService.auth_token := "token";
     TwilioService.from_number := "+15005550006";
     TwilioService.calls_create := fun _ _ _ _ => Failed coloured_error |}.












End Sample.

(** * Properties *)

(** ** The number gate *)

Example validate_test_number :
  validate_number "+15005550006"
  = {| number := "+15005550006"; is_valid := true; reason := None |}.
Proof. reflexivity. Qed.

Example validate_indian_number :
  validate_number "+919876543210"
  = {| number := "+919876543210"; is_valid := false; reason := Some REASON_INDIAN |}.
Proof. reflexivity. Qed.

Example validate_indian_trunk_number :
  validate_number "09876543210"
  = {| number := "+919876543210"; is_valid := false; reason := Some REASON_INDIAN |}.
Proof. reflexivity. Qed.

Example validate_garbage :
  validate_number "garbage"
  = {| number := "garbage"; is_valid := false; reason := Some REASON_INVALID |}.
Proof. reflexivity. Qed.

(** A string that starts with [+1500] spells it out. *)
Lemma startswith_test_prefix (num : string) :
  startswith num TWILIO_TEST_PREFIX = true ->
  exists tail, num = "+1500" ++ tail.
Proof.
  unfold startswith, TWILIO_TEST_PREFIX.
  intros H.
  repeat (destruct num as [|? num]; [discriminate H|];
          cbn [String.prefix] in H;
          match type of H with
          | (if ?d then _ else _) = true =>
              destruct d as [->|]; [|discriminate H]
          end).
  now exists num.
Qed.

(** The Indian pattern never matches a string of the test range. *)
Lemma indian_regex_rejects_test_prefix (num : string) :
  startswith num TWILIO_TEST_PREFIX = true ->
  Re.re_match INDIAN_NUMBER_REGEX num = None.
Proof.
  intros H. destruct (startswith_test_prefix num H) as [tail ->].
  reflexivity.
Qed.

(** C5. The number gate is a total function of its argument alone, and its
    verdict is one of three: a candidate that starts with the test prefix
    is accepted unchanged; a candidate the Indian pattern matches is
    rejected with the safety reason; any other candidate is rejected, kept
    as it is, with the invalid-format reason.  The three cases exclude
    each other and leave nothing out. *)
Theorem validate_number_trichotomy (num : string) :
  (startswith num TWILIO_TEST_PREFIX = true ->
   validate_number num = {| number := num; is_valid := true; reason := None |})
  /\ (is_Some (Re.re_match INDIAN_NUMBER_REGEX num) ->
      is_valid (validate_number num) = false
      /\ reason (validate_number num) = Some REASON_INDIAN)
  /\ (startswith num TWILIO_TEST_PREFIX = false ->
      Re.re_match INDIAN_NUMBER_REGEX num = None ->
      validate_number num
      = {| number := num; is_valid := false; reason := Some REASON_INVALID |})
  /\ ((startswith num TWILIO_TEST_PREFIX = true
       /\ Re.re_match INDIAN_NUMBER_REGEX num = None)
      \/ (startswith num TWILIO_TEST_PREFIX = false
          /\ is_Some (Re.re_match INDIAN_NUMBER_REGEX num))
      \/ (startswith num TWILIO_TEST_PREFIX = false
          /\ Re.re_match INDIAN_NUMBER_REGEX num = None)).
Proof.
  assert (Hnone : forall o : option Re.Match, o = None -> ~ is_Some o)
    by (intros o -> [m Hm]; discriminate Hm).
  unfold validate_number.
  destruct (startswith num TWILIO_TEST_PREFIX) eqn:Hpre.
  - pose proof (indian_regex_rejects_test_prefix num Hpre) as Hno.
    split; [reflexivity|]. split; [intros Hs; destruct (Hnone _ Hno Hs)|].
    split; [discriminate|]. left. split; [reflexivity|exact Hno].
  - destruct (Re.re_match INDIAN_NUMBER_REGEX num) as [m|] eqn:Hm.
    + split; [discriminate|]. split; [intros _; split; reflexivity|].
      split; [discriminate|]. right. left. split; [reflexivity|eauto].
    + split; [discriminate|]. split; [intros Hs; destruct (Hnone _ eq_refl Hs)|].
      split; [reflexivity|]. right. right. split; reflexivity.
Qed.

Lemma validate_number_trichotomy_witness :
  validate_number "+15005550006"
  = {| number := "+15005550006"; is_valid := true; reason := None |}
  /\ reason (validate_number "+919876543210") = Some REASON_INDIAN
  /\ validate_number "garbage"
     = {| number := "garbage"; is_valid := false; reason := Some REASON_INVALID |}.
Proof.
  split; [|split].
  - apply (proj1 (validate_number_trichotomy "+15005550006")). reflexivity.
  - apply (proj1 (proj2 (validate_number_trichotomy "+919876543210"))).
    vm_compute. eauto.
  - apply (proj1 (proj2 (proj2 (validate_number_trichotomy "garbage"))));
      reflexivity.
Defined.



(** ** The effect monad and the storage session *)

Lemma bind_ok {A B} (m : M A) (k : A -> M B) (w w' : World) (a : A) :
  m w = (Ok a, w') -> bind m k w = k a w'.
Proof. unfold bind. now intros ->. Qed.

Lemma bind_raise {A B} (m : M A) (k : A -> M B) (w w' : World) (e : exn) :
  m w = (Raise e, w') -> bind m k w = (Raise e, w').
Proof. unfold bind. now intros ->. Qed.

Lemma storage_op_ok (env : Env) (w : World) :
  db_fault env (steps w) = None ->
  storage_op env w = (Ok tt, advance env 0 w).
Proof. unfold storage_op, bind, tick. now intros ->. Qed.

Lemma storage_op_fault (env : Env) (w : World) (msg : string) :
  db_fault env (steps w) = Some msg ->
  storage_op env w
  = (Raise (db_error msg), advance env 0 w).
Proof. unfold storage_op, bind, tick. now intros ->. Qed.

Lemma session_get_ok (env : Env) (call_id : Z) (w : World) :
  db_fault env (steps w) = None ->
  session_get env call_id w = (Ok (rows w !! call_id), advance env 0 w).
Proof.
  intros H. unfold session_get.
  rewrite (bind_ok _ _ _ _ _ (storage_op_ok env w H)). reflexivity.
Qed.

Lemma session_get_fault (env : Env) (call_id : Z) (w : World) (msg : string) :
  db_fault env (steps w) = Some msg ->
  session_get env call_id w
  = (Raise (db_error msg), advance env 0 w).
Proof.
  intros H. unfold session_get.
  now rewrite (bind_raise _ _ _ _ _ (storage_op_fault env w msg H)).
Qed.

(** The world after a commit of one row went through. *)
Lemma session_commit_one_ok (env : Env) (key : Z) (log : CallLog.t) (w : World) :
  db_fault env (steps w) = None ->
  session_commit env [(key, log)] w
  = (Ok tt,
     observe (Persisted key (CallLog.status log))
       (set_rows (<[key := log]> (rows w)) (advance env 0 w))).
Proof.
  intros H. unfold session_commit.
  rewrite (bind_ok _ _ _ _ _ (storage_op_ok env w H)). reflexivity.
Qed.

Lemma session_commit_fault (env : Env) (logs : list (Z * CallLog.t)) (w : World)
      (msg : string) :
  db_fault env (steps w) = Some msg ->
  session_commit env logs w
  = (Raise (db_error msg), advance env 0 w).
Proof.
  intros H. unfold session_commit.
  now rewrite (bind_raise _ _ _ _ _ (storage_op_fault env w msg H)).
Qed.

(** ** [_update_status] and [_finalise] *)

Lemma update_status_missing (env : Env) (call_id : Z) (st : CallStatus)
      (err : option string) (w : World) :
  db_fault env (steps w) = None ->
  rows w !! call_id = None ->
  _update_status env call_id st err w = (Ok tt, advance env 0 w).
Proof.
  intros Hf Hrow. unfold _update_status.
  rewrite (bind_ok _ _ _ _ _ (session_get_ok env call_id w Hf)).
  now rewrite Hrow.
Qed.

Lemma update_status_present (env : Env) (call_id : Z) (st : CallStatus)
      (err : option string) (w : World) (log : CallLog.t) :
  db_fault env (steps w) = None ->
  db_fault env (S (steps w)) = None ->
  rows w !! call_id = Some log ->
  _update_status env call_id st err w
  = (Ok tt,
     observe (Persisted call_id st)
       (set_rows
          (<[call_id := CallLog.mark log st None err None (clock (advance env 0 w))]>
             (rows w))
          (advance env 0 (advance env 0 w)))).
Proof.
  intros Hf1 Hf2 Hrow. unfold _update_status.
  rewrite (bind_ok _ _ _ _ _ (session_get_ok env call_id w Hf1)).
  rewrite Hrow. unfold utcnow, bind at 1.
  rewrite session_commit_one_ok by exact Hf2. reflexivity.
Qed.

Lemma finalise_present (env : Env) (call_id : Z) (result : CallResult.t)
      (w : World) (log : CallLog.t) :
  db_fault env (steps w) = None ->
  db_fault env (S (steps w)) = None ->
  rows w !! call_id = Some log ->
  let st := if CallResult.success result then SUCCESS else FAILED in
  _finalise env call_id result w
  = (Ok tt,
     observe (Persisted call_id st)
       (set_rows
          (<[call_id :=
               CallLog.mark log st (CallResult.duration result)
                 (CallResult.error result) (CallResult.sid result)
                 (clock (advance env 0 w))]> (rows w))
          (advance env 0 (advance env 0 w)))).
Proof.
  intros Hf1 Hf2 Hrow st. unfold _finalise.
  rewrite (bind_ok _ _ _ _ _ (session_get_ok env call_id w Hf1)).
  rewrite Hrow. unfold utcnow, bind at 1.
  rewrite session_commit_one_ok by exact Hf2. reflexivity.
Qed.

(** C8. Finalising a task whose row is gone is a no-op: with the lookup
    answered, [_finalise] returns normally, whatever the result passed to
    it, and neither the table nor the key counter nor the trace change. *)
Theorem finalise_missing_record_noop (env : Env) (call_id : Z)
        (result : CallResult.t) (w : World) :
  db_fault env (steps w) = None ->
  rows w !! call_id = None ->
  fst (_finalise env call_id result w) = Ok tt
  /\ rows (snd (_finalise env call_id result w)) = rows w
  /\ next_id (snd (_finalise env call_id result w)) = next_id w
  /\ trace (snd (_finalise env call_id result w)) = trace w.
Proof.
  intros Hf Hrow. unfold _finalise.
  rewrite (bind_ok _ _ _ _ _ (session_get_ok env call_id w Hf)).
  rewrite Hrow. repeat split.
Qed.

Lemma finalise_missing_record_noop_witness :
  rows (snd (_finalise Sample.env_ok 7
               {| CallResult.success := true; CallResult.sid := Some "CA1";
                  CallResult.duration := Some 3%Z; CallResult.error := None |}
               Sample.one_row_world))
  = rows Sample.one_row_world.
Proof.
  apply (proj1 (proj2 (finalise_missing_record_noop Sample.env_ok 7 _
                         Sample.one_row_world eq_refl eq_refl))).
Defined.

(** ** The transport *)

Lemma place_call_refused (env : Env) (svc : TwilioService.t)
      (to_number msg : string) (w : World) :
  startswith to_number TWILIO_TEST_PREFIX = false ->
  TwilioService.place_call env svc to_number msg w
  = (Raise {| exn_class := ValueError;
              exn_str := TwilioService.TEST_MODE_MESSAGE |},
     observe (Dispatch to_number msg) w).
Proof.
  intros H. unfold TwilioService.place_call, TwilioService.ensure_test_mode.
  rewrite H. reflexivity.
Qed.

Lemma place_call_passed (env : Env) (svc : TwilioService.t)
      (to_number msg : string) (w : World) :
  startswith to_number TWILIO_TEST_PREFIX = true ->
  TwilioService.place_call env svc to_number msg w
  = (Ok (TwilioService.result_of
           (TwilioService.calls_create svc (steps w)
              (TwilioService.twiml_of msg) to_number
              (TwilioService.from_number svc))),
     observe (ClientCreate to_number (TwilioService.twiml_of msg)
                (TwilioService.from_number svc))
       (advance env 0 (observe (Dispatch to_number msg) w))).
Proof.
  intros H. unfold TwilioService.place_call, TwilioService.ensure_test_mode.
  rewrite H. reflexivity.
Qed.

(** The results [place_call] builds: a success carries no error, a failure
    neither reference nor duration. *)
Lemma result_of_shape (outcome : ClientOutcome) :
  let result := TwilioService.result_of outcome in
  if CallResult.success result
  then CallResult.error result = None
  else CallResult.sid result = None /\ CallResult.duration result = None.
Proof.
  destruct outcome as [call_sid call_duration|exc]; cbn.
  - reflexivity.
  - destruct (is_TwilioRestException exc); cbn; auto.
Qed.

(** The only exception of [place_call] is the [ValueError] of the safety
    check. *)
Lemma place_call_raises_only_ValueError (env : Env) (svc : TwilioService.t)
      (to_number msg : string) (w : World) (exc : exn) :
  fst (TwilioService.place_call env svc to_number msg w) = Raise exc ->
  exc = {| exn_class := ValueError; exn_str := TwilioService.TEST_MODE_MESSAGE |}.
Proof.
  destruct (startswith to_number TWILIO_TEST_PREFIX) eqn:H.
  - rewrite place_call_passed by exact H. discriminate.
  - rewrite place_call_refused by exact H. cbn. congruence.
Qed.

(** C10. A number the gate accepts passes the transport's own check: the
    verdict carries the candidate unchanged, [ensure_test_mode] returns on
    it without raising, in any state and without changing it, and so
    [place_call] never raises for it: the skip at dispatch is out of reach
    for a number that passed the gate. *)
Theorem gate_accepted_passes_ensure_test_mode (num : string) (w : World) :
  is_valid (validate_number num) = true ->
  number (validate_number num) = num
  /\ TwilioService.ensure_test_mode (number (validate_number num)) w = (Ok tt, w)
  /\ forall (env : Env) (svc : TwilioService.t) (msg : string),
      raised (fst (TwilioService.place_call env svc
                     (number (validate_number num)) msg w)) = false.
Proof.
  unfold validate_number.
  destruct (startswith num TWILIO_TEST_PREFIX) eqn:Hpre.
  - cbn [number is_valid]. intros _. split; [reflexivity|]. split.
    + unfold TwilioService.ensure_test_mode. now rewrite Hpre.
    + intros env svc msg. now rewrite place_call_passed.
  - destruct (Re.re_match INDIAN_NUMBER_REGEX num); discriminate.
Qed.

Lemma gate_accepted_passes_ensure_test_mode_witness :
  TwilioService.ensure_test_mode (number (validate_number "+15005550006"))
    Sample.empty_world = (Ok tt, Sample.empty_world).
Proof.
  apply (proj1 (proj2 (gate_accepted_passes_ensure_test_mode "+15005550006"
                         Sample.empty_world eq_refl))).
Defined.

Lemma transitions_app (call_id : Z) (newer older : list (Q * Event)) :
  transitions call_id (newer ++ older)%list
  = (transitions call_id older ++ transitions call_id newer)%list.
Proof.
  induction newer as [|[t e] newer IH]; cbn.
  - now rewrite app_nil_r.
  - destruct e; try exact IH.
    destruct (Z.eqb call_id0 call_id); [|exact IH].
    rewrite IH. now rewrite app_assoc.
Qed.

(** ** One task of the sequencer *)

Lemma process_task_unfold (env : Env) (svc : TwilioService.t) (task : CallTask.t)
      (w : World) :
  fst ((_update_status env (CallTask.id task) IN_PROGRESS None ;;;
        asyncio_sleep env RATE_LIMIT_SECONDS) w) = Ok tt ->
  process_task env svc task w
  = match dispatch_outcome env svc task w with
    | Raise exc =>
        if is_ValueError exc then
          _update_status env (CallTask.id task) SKIPPED (Some (exn_str exc))
            (snd (TwilioService.place_call env svc (CallTask.number task)
                    (CallTask.message task) (at_dispatch env task w)))
        else
          (Raise exc,
           snd (TwilioService.place_call env svc (CallTask.number task)
                  (CallTask.message task) (at_dispatch env task w)))
    | Ok result =>
        _finalise env (CallTask.id task) result
          (snd (TwilioService.place_call env svc (CallTask.number task)
                  (CallTask.message task) (at_dispatch env task w)))
    end.
Proof.
  unfold process_task, dispatch_outcome, at_dispatch.
  unfold bind.
  destruct (_update_status env (CallTask.id task) IN_PROGRESS None w) as [[[]|e] w1]; cbn [fst snd].
  2: discriminate.
  destruct (asyncio_sleep env RATE_LIMIT_SECONDS w1) as [[[]|e] w2] eqn:Hs; cbn [fst snd].
  2: discriminate.
  intros _. unfold attempt.
  destruct (TwilioService.place_call env svc (CallTask.number task)
              (CallTask.message task) w2) as [[result|exc] w3]; cbn [fst snd].
  - reflexivity.
  - destruct (is_ValueError exc); reflexivity.
Qed.

Lemma place_call_rows (env : Env) (svc : TwilioService.t)
      (to_number msg : string) (w : World) :
  rows (snd (TwilioService.place_call env svc to_number msg w)) = rows w.
Proof.
  destruct (startswith to_number TWILIO_TEST_PREFIX) eqn:H.
  - now rewrite place_call_passed.
  - now rewrite place_call_refused.
Qed.

(** The pause and the update before it, on a row that exists. *)
Lemma before_dispatch_present (env : Env) (task : CallTask.t) (w : World)
      (log : CallLog.t) :
  reliable env ->
  rows w !! CallTask.id task = Some log ->
  (_update_status env (CallTask.id task) IN_PROGRESS None ;;;
   asyncio_sleep env RATE_LIMIT_SECONDS) w
  = (Ok tt,
     observe (Slept RATE_LIMIT_SECONDS)
       (advance env RATE_LIMIT_SECONDS
          (observe (Persisted (CallTask.id task) IN_PROGRESS)
             (set_rows
                (<[CallTask.id task :=
                     CallLog.mark log IN_PROGRESS None None None
                       (clock (advance env 0 w))]> (rows w))
                (advance env 0 (advance env 0 w)))))).
Proof.
  intros Hrel Hrow.
  rewrite (bind_ok _ _ _ _ _
             (update_status_present env _ IN_PROGRESS None w log
                (Hrel _) (Hrel _) Hrow)).
  reflexivity.
Qed.

Lemma before_dispatch_missing (env : Env) (task : CallTask.t) (w : World) :
  reliable env ->
  rows w !! CallTask.id task = None ->
  (_update_status env (CallTask.id task) IN_PROGRESS None ;;;
   asyncio_sleep env RATE_LIMIT_SECONDS) w
  = (Ok tt,
     observe (Slept RATE_LIMIT_SECONDS)
       (advance env RATE_LIMIT_SECONDS (advance env 0 w))).
Proof.
  intros Hrel Hrow.
  rewrite (bind_ok _ _ _ _ _
             (update_status_missing env _ IN_PROGRESS None w (Hrel _) Hrow)).
  reflexivity.
Qed.

(** The outcome of the dispatch decides the one terminal state of a task
    whose row is as [enqueue_calls] made it. *)
Lemma process_task_outcome_blank (env : Env) (svc : TwilioService.t)
      (task : CallTask.t) (w : World) (log : CallLog.t) :
  reliable env ->
  rows w !! CallTask.id task = Some log ->
  blank log ->
  let run := process_task env svc task w in
  fst run = Ok tt
  /\ (forall rest,
         execute_call_sequence env svc (task :: rest) w
         = execute_call_sequence env svc rest (snd run))
  /\ exists log',
      rows (snd run) = <[CallTask.id task := log']> (rows w)
      /\ transitions (CallTask.id task) (trace (snd run))
         = (transitions (CallTask.id task) (trace w)
              ++ [IN_PROGRESS; CallLog.status log'])%list
      /\ match dispatch_outcome env svc task w with
         | Raise exc =>
             is_ValueError exc = true
             /\ CallLog.status log' = SKIPPED
             /\ CallLog.error log' = Some (exn_str exc)
             /\ CallLog.duration log' = None
             /\ CallLog.call_sid log' = None
         | Ok result =>
             if CallResult.success result then
               CallLog.status log' = SUCCESS
               /\ CallLog.duration log' = CallResult.duration result
               /\ CallLog.call_sid log' = CallResult.sid result
               /\ CallLog.error log' = None
             else
               CallLog.status log' = FAILED
               /\ CallLog.error log' = CallResult.error result
               /\ CallLog.duration log' = None
               /\ CallLog.call_sid log' = None
         end.
Proof.
  intros Hrel Hrow (Hdur & Herr & Hsid) run.
  pose proof (before_dispatch_present env task w log Hrel Hrow) as Hpre.
  assert (Hrun : run = process_task env svc task w) by reflexivity.
  rewrite process_task_unfold in Hrun by (now rewrite Hpre).
  unfold dispatch_outcome in *. unfold at_dispatch in *. rewrite Hpre in *.
  cbn [snd] in *.
  set (wd := observe (Slept RATE_LIMIT_SECONDS) _) in *.
  assert (Hrowd : rows wd !! CallTask.id task
                  = Some (CallLog.mark log IN_PROGRESS None None None
                            (clock (advance env 0 w))))
    by (cbn; apply lookup_insert_eq).
  assert (Hmeth : forall rest,
             execute_call_sequence env svc (task :: rest) w
             = match run with
               | (Ok _, w') => execute_call_sequence env svc rest w'
               | (Raise e, w') => (Raise e, w')
               end).
  { intros rest. cbn [execute_call_sequence]. unfold bind at 1. fold run.
    destruct run as [[[]|e] w']; reflexivity. }
  clearbody run.
  destruct (startswith (CallTask.number task) TWILIO_TEST_PREFIX) eqn:Hgate.
  - rewrite place_call_passed in * by exact Hgate. cbn [fst snd] in *.
    set (result := TwilioService.result_of _) in *.
    pose proof (result_of_shape
                  (TwilioService.calls_create svc (steps wd)
                     (TwilioService.twiml_of (CallTask.message task))
                     (CallTask.number task) (TwilioService.from_number svc)))
      as Hshape.
    cbv zeta in Hshape. fold result in Hshape.
    set (w3 := observe (ClientCreate _ _ _) _) in *.
    rewrite (finalise_present env _ result w3 _ (Hrel _) (Hrel _) Hrowd) in Hrun.
    subst run. cbn [fst snd] in *. split; [reflexivity|].
    split; [exact Hmeth|].
    eexists. split; [cbn; apply insert_insert_eq|].
    split.
    + cbn. rewrite Z.eqb_refl. now rewrite <- app_assoc.
    + destruct (CallResult.success result); cbn.
      * rewrite Hshape, Herr.
        destruct (CallResult.duration result), (CallResult.sid result);
          rewrite ?Hdur, ?Hsid; auto.
      * destruct Hshape as [-> ->]. rewrite Hdur, Hsid.
        destruct (CallResult.error result); rewrite ?Herr; auto.
  - rewrite place_call_refused in * by exact Hgate. cbn [fst snd] in *.
    cbn [is_ValueError exn_class exn_str] in *.
    set (w3 := observe (Dispatch _ _) _) in *.
    rewrite (update_status_present env _ SKIPPED _ w3 _ (Hrel _) (Hrel _) Hrowd)
      in Hrun.
    subst run. cbn [fst snd] in *. split; [reflexivity|].
    split; [exact Hmeth|].
    eexists. split; [cbn; apply insert_insert_eq|].
    split.
    + cbn. rewrite Z.eqb_refl. now rewrite <- app_assoc.
    + cbn. rewrite Hdur, Hsid. auto.
Qed.


Lemma finalise_missing (env : Env) (call_id : Z) (result : CallResult.t)
      (w : World) :
  db_fault env (steps w) = None ->
  rows w !! call_id = None ->
  _finalise env call_id result w = (Ok tt, advance env 0 w).
Proof.
  intros Hf Hrow. unfold _finalise.
  rewrite (bind_ok _ _ _ _ _ (session_get_ok env call_id w Hf)).
  now rewrite Hrow.
Qed.

(** C3, as the code has it.  When the row of a task is gone at the
    in_progress update, the body of the loop raises nothing and writes
    nothing, and the sequencer goes on with the remaining tasks; but the
    task is not abandoned: the sequencer still pauses and invokes the
    transport with the number and message of the task, and the client is
    called when the number is in the test range.  The outcome is dropped. *)
Theorem process_task_missing_record (env : Env) (svc : TwilioService.t)
        (task : CallTask.t) (w : World) :
  reliable env ->
  rows w !! CallTask.id task = None ->
  let run := process_task env svc task w in
  fst run = Ok tt
  /\ rows (snd run) = rows w
  /\ (forall rest,
         execute_call_sequence env svc (task :: rest) w
         = execute_call_sequence env svc rest (snd run))
  /\ List.map snd (trace (snd run))
     = ((if startswith (CallTask.number task) TWILIO_TEST_PREFIX
         then [ClientCreate (CallTask.number task)
                 (TwilioService.twiml_of (CallTask.message task))
                 (TwilioService.from_number svc)]
         else [])
          ++ [Dispatch (CallTask.number task) (CallTask.message task);
              Slept RATE_LIMIT_SECONDS]
          ++ List.map snd (trace w))%list.
Proof.
  intros Hrel Hrow run.
  pose proof (before_dispatch_missing env task w Hrel Hrow) as Hpre.
  assert (Hrun : run = process_task env svc task w) by reflexivity.
  rewrite process_task_unfold in Hrun by (now rewrite Hpre).
  unfold dispatch_outcome in *. unfold at_dispatch in *. rewrite Hpre in *.
  cbn [snd] in *.
  set (wd := observe (Slept RATE_LIMIT_SECONDS) _) in *.
  assert (Hrowd : rows wd !! CallTask.id task = None) by exact Hrow.
  assert (Hmeth : forall rest,
             execute_call_sequence env svc (task :: rest) w
             = match run with
               | (Ok _, w') => execute_call_sequence env svc rest w'
               | (Raise e, w') => (Raise e, w')
               end).
  { intros rest. cbn [execute_call_sequence]. unfold bind at 1. fold run.
    destruct run as [[[]|e] w']; reflexivity. }
  clearbody run.
  destruct (startswith (CallTask.number task) TWILIO_TEST_PREFIX) eqn:Hgate.
  - rewrite place_call_passed in * by exact Hgate. cbn [fst snd] in *.
    set (w3 := observe (ClientCreate _ _ _) _) in *.
    rewrite (finalise_missing env _ _ w3 (Hrel _) Hrowd) in Hrun.
    subst run. cbn [fst snd] in *. repeat split. exact Hmeth.
  - rewrite place_call_refused in * by exact Hgate. cbn [fst snd] in *.
    cbn [is_ValueError exn_class exn_str] in *.
    set (w3 := observe (Dispatch _ _) _) in *.
    rewrite (update_status_missing env _ SKIPPED _ w3 (Hrel _) Hrowd) in Hrun.
    subst run. cbn [fst snd] in *. repeat split. exact Hmeth.
Qed.

Lemma process_task_missing_record_witness :
  rows (snd (process_task Sample.env_ok Sample.svc Sample.task1 Sample.empty_world))
  = rows Sample.empty_world.
Proof.
  apply (proj1 (proj2 (process_task_missing_record Sample.env_ok Sample.svc
                         Sample.task1 Sample.empty_world
                         (fun n => eq_refl) eq_refl))).
Defined.

(** The task of a row that is gone is dialled all the same. *)
Lemma missing_record_is_still_dialled :
  rows Sample.empty_world !! CallTask.id Sample.task1 = None
  /\ ~ abandons Sample.env_ok Sample.svc Sample.task1 Sample.empty_world.
Proof.
  split; [reflexivity|].
  intros [_ H]. vm_compute in H. discriminate H.
Qed.

(** ** The task queue builder *)

Lemma or_empty_some (msg : string) : or_empty (Some msg) = msg.
Proof. now destruct msg. Qed.

Lemma advance_n_fields (env : Env) (n : nat) (w : World) :
  rows (advance_n env n w) = rows w
  /\ next_id (advance_n env n w) = next_id w
  /\ trace (advance_n env n w) = trace w
  /\ steps (advance_n env n w) = (steps w + n)%nat.
Proof.
  revert w. induction n as [|n IH]; intros w; cbn.
  - repeat split. lia.
  - destruct (IH (advance env 0 w)) as (-> & -> & -> & ->). cbn.
    repeat split. lia.
Qed.

Lemma bind_utcnow {B} (k : Q -> M B) (w : World) :
  bind utcnow k w = k (clock w) w.
Proof. reflexivity. Qed.

(** The loop, when none of its flushes fails. *)
Lemma enqueue_loop_ok (env : Env) (numbers : list string) (msg : string) :
  forall (nid : Z) (pending : list (Z * CallLog.t)) (tasks : list CallTask.t)
         (w : World),
    faultless env (steps w) (length numbers) ->
    enqueue_loop env numbers msg nid pending tasks w
    = (Ok ((nid + Z.of_nat (length numbers))%Z,
           (pending ++ new_rows env numbers msg nid w)%list,
           (tasks ++ new_tasks numbers msg nid)%list),
       advance_n env (length numbers) w).
Proof.
  induction numbers as [|num numbers IH]; intros nid pending tasks w Hok.
  - cbn. now rewrite Z.add_0_r, !app_nil_r.
  - cbn [enqueue_loop length].
    assert (H0 : db_fault env (steps w) = None).
    { specialize (Hok 0%nat). rewrite Nat.add_0_r in Hok. apply Hok. cbn. lia. }
    rewrite (bind_ok _ _ _ _ _ (storage_op_ok env w H0)).
    rewrite !bind_utcnow.
    rewrite IH.
    + cbn [new_rows new_tasks advance_n CallLog.id CallLog.number CallLog.message].
      rewrite or_empty_some, <- !app_assoc. cbn [app].
      replace (nid + Z.of_nat (S (length numbers)))%Z
        with (nid + 1 + Z.of_nat (length numbers))%Z by lia.
      reflexivity.
    + intros k Hk. cbn [steps advance].
      replace (S (steps w) + k)%nat with (steps w + S k)%nat by lia.
      apply Hok. cbn. lia.
Qed.

(** The loop touches no committed row, whatever the engine does. *)
Lemma enqueue_loop_frame (env : Env) (numbers : list string) (msg : string) :
  forall (nid : Z) (pending : list (Z * CallLog.t)) (tasks : list CallTask.t)
         (w : World),
    let w' := snd (enqueue_loop env numbers msg nid pending tasks w) in
    rows w' = rows w /\ next_id w' = next_id w /\ trace w' = trace w.
Proof.
  induction numbers as [|num numbers IH]; intros nid pending tasks w; cbv zeta.
  - cbn. auto.
  - cbn [enqueue_loop]. destruct (db_fault env (steps w)) as [m|] eqn:Hf.
    + rewrite (bind_raise _ _ _ _ _ (storage_op_fault env w m Hf)). cbn. auto.
    + rewrite (bind_ok _ _ _ _ _ (storage_op_ok env w Hf)).
      rewrite !bind_utcnow.
      match goal with |- context [enqueue_loop env numbers msg ?n ?p ?t ?v] =>
        destruct (IH n p t v) as (H1 & H2 & H3) end.
      cbv zeta in H1, H2, H3. rewrite H1, H2, H3. cbn. auto.
Qed.

(** A flush that fails makes the loop raise. *)
Lemma enqueue_loop_fault (env : Env) (numbers : list string) (msg : string) :
  forall (nid : Z) (pending : list (Z * CallLog.t)) (tasks : list CallTask.t)
         (w : World) (k : nat),
    (k < length numbers)%nat ->
    db_fault env (steps w + k) <> None ->
    exists m, fst (enqueue_loop env numbers msg nid pending tasks w)
              = Raise (db_error m).
Proof.
  induction numbers as [|num numbers IH]; intros nid pending tasks w k Hk Hf.
  - cbn in Hk. lia.
  - cbn [enqueue_loop]. destruct (db_fault env (steps w)) as [m|] eqn:H0.
    + rewrite (bind_raise _ _ _ _ _ (storage_op_fault env w m H0)). now exists m.
    + rewrite (bind_ok _ _ _ _ _ (storage_op_ok env w H0)).
      rewrite !bind_utcnow.
      destruct k as [|k]; [rewrite Nat.add_0_r in Hf; congruence|].
      apply (IH _ _ _ _ k); [cbn in Hk; lia|].
      cbn [steps advance].
      now replace (S (steps w) + k)%nat with (steps w + S k)%nat by lia.
Qed.

Lemma write_rows_cons (key : Z) (log : CallLog.t) (logs : list (Z * CallLog.t))
      (w : World) :
  write_rows ((key, log) :: logs) w
  = write_rows logs
      (observe (Persisted key (CallLog.status log))
         (set_rows (<[key := log]> (rows w)) w)).
Proof. reflexivity. Qed.

(** What a commit that goes through leaves in the table. *)
Lemma write_rows_run (logs : list (Z * CallLog.t)) :
  forall w : World,
    fst (write_rows logs w) = Ok tt
    /\ rows (snd (write_rows logs w))
       = foldl (fun m kv => <[fst kv := snd kv]> m) (rows w) logs
    /\ next_id (snd (write_rows logs w)) = next_id w.
Proof.
  induction logs as [|[key log] logs IH]; intros w.
  - cbn. auto.
  - rewrite write_rows_cons.
    match goal with |- context [write_rows logs ?v] =>
      destruct (IH v) as (H1 & H2 & H3) end.
    rewrite H1, H2, H3. cbn. auto.
Qed.

Lemma new_rows_lookup_outside (env : Env) (numbers : list string) (msg : string) :
  forall (nid : Z) (w : World) (m : gmap Z CallLog.t) (k : Z),
    (k < nid \/ nid + Z.of_nat (length numbers) <= k)%Z ->
    foldl (fun m kv => <[fst kv := snd kv]> m) m (new_rows env numbers msg nid w)
      !! k = m !! k.
Proof.
  induction numbers as [|num numbers IH]; intros nid w m k Hk; [reflexivity|].
  cbn [new_rows foldl fst snd]. rewrite IH by (cbn [length] in Hk; lia).
  apply lookup_insert_ne. cbn [length] in Hk. lia.
Qed.

Lemma new_rows_lookup_inside (env : Env) (numbers : list string) (msg : string) :
  forall (nid : Z) (w : World) (m : gmap Z CallLog.t) (i : nat) (num : string),
    numbers !! i = Some num ->
    exists now,
      foldl (fun m kv => <[fst kv := snd kv]> m) m (new_rows env numbers msg nid w)
        !! (nid + Z.of_nat i)%Z
      = Some (queued_log (nid + Z.of_nat i) num msg now).
Proof.
  induction numbers as [|n0 numbers IH]; intros nid w m i num Hi; [discriminate|].
  cbn [new_rows foldl fst snd]. destruct i as [|i].
  - injection Hi as ->. exists (clock (advance env 0 w)).
    rewrite new_rows_lookup_outside by lia.
    rewrite Z.add_0_r. apply lookup_insert_eq.
  - cbn in Hi.
    destruct (IH (nid + 1)%Z (advance env 0 w)
                (<[nid := queued_log nid n0 msg (clock (advance env 0 w))]> m)
                i num Hi) as [now Hnow].
    exists now.
    replace (nid + Z.of_nat (S i))%Z with (nid + 1 + Z.of_nat i)%Z by lia.
    exact Hnow.
Qed.

Lemma new_tasks_lookup (numbers : list string) (msg : string) :
  forall (nid : Z) (i : nat),
    new_tasks numbers msg nid !! i
    = (fun num => {| CallTask.id := (nid + Z.of_nat i)%Z;
                     CallTask.number := num; CallTask.message := msg |})
        <$> numbers !! i.
Proof.
  induction numbers as [|num numbers IH]; intros nid i; [reflexivity|].
  destruct i as [|i]; cbn.
  - now rewrite Z.add_0_r.
  - rewrite IH. destruct (numbers !! i); cbn; [|reflexivity].
    do 2 f_equal. lia.
Qed.

Lemma enqueue_calls_ok (env : Env) (numbers : list string) (msg : string)
      (w : World) :
  faultless env (steps w) (S (length numbers)) ->
  enqueue_calls env numbers msg w
  = (Ok (new_tasks numbers msg (next_id w)),
     set_next_id (next_id w + Z.of_nat (length numbers))%Z
       (snd (write_rows (new_rows env numbers msg (next_id w) w)
               (advance env 0 (advance_n env (length numbers) w))))).
Proof.
  intros Hok. unfold enqueue_calls.
  unfold bind at 1.
  rewrite (bind_ok _ _ _ _ _
             (enqueue_loop_ok env numbers msg (next_id w) [] [] w
                (fun k Hk => Hok k (Nat.lt_lt_succ_r _ _ Hk)))).
  cbn [app]. unfold session_commit.
  assert (Hc : db_fault env (steps (advance_n env (length numbers) w)) = None).
  { destruct (advance_n_fields env (length numbers) w) as (_ & _ & _ & ->).
    apply Hok. lia. }
  assert (Hcommit :
            (storage_op env ;;; write_rows (new_rows env numbers msg (next_id w) w))
              (advance_n env (length numbers) w)
            = (Ok tt,
               snd (write_rows (new_rows env numbers msg (next_id w) w)
                      (advance env 0 (advance_n env (length numbers) w))))).
  { rewrite (bind_ok _ _ _ _ _ (storage_op_ok env _ Hc)).
    destruct (write_rows_run (new_rows env numbers msg (next_id w) w)
                (advance env 0 (advance_n env (length numbers) w))) as (Hr & _).
    destruct (write_rows _ _) as [[[]|e] w']; [reflexivity|discriminate Hr]. }
  rewrite (bind_ok _ _ _ _ _ Hcommit). reflexivity.
Qed.

Lemma faultless_or_fault (env : Env) (from n : nat) :
  faultless env from n
  \/ exists k, (k < n)%nat /\ db_fault env (from + k) <> None.
Proof.
  induction n as [|n [IH|(k & Hk & Hf)]].
  - left. intros k Hk. lia.
  - destruct (db_fault env (from + n)) as [m|] eqn:Hn.
    + right. exists n. split; [lia|congruence].
    + left. intros k Hk. destruct (Nat.eq_dec k n) as [->|Hne]; [exact Hn|].
      apply IH. lia.
  - right. exists k. split; [lia|exact Hf].
Qed.

Lemma enqueue_calls_fault (env : Env) (numbers : list string) (msg : string)
      (w : World) (k : nat) :
  (k <= length numbers)%nat ->
  db_fault env (steps w + k) <> None ->
  exists m w',
    enqueue_calls env numbers msg w = (Raise (db_error m), w')
    /\ rows w' = rows w /\ next_id w' = next_id w.
Proof.
  intros Hk Hf. unfold enqueue_calls. unfold bind at 1.
  pose proof (enqueue_loop_frame env numbers msg (next_id w) [] [] w) as Hframe.
  cbv zeta in Hframe.
  destruct (faultless_or_fault env (steps w) (length numbers))
    as [Hok|(k' & Hk' & Hf')].
  - rewrite (bind_ok _ _ _ _ _
               (enqueue_loop_ok env numbers msg (next_id w) [] [] w Hok)).
    cbn [app].
    assert (k = length numbers) as ->.
    { destruct (Nat.eq_dec k (length numbers)) as [|Hne]; [assumption|].
      exfalso. apply Hf, Hok. lia. }
    destruct (advance_n_fields env (length numbers) w) as (Hr & Hn & _ & Hs).
    destruct (db_fault env (steps w + length numbers)) as [m|] eqn:Hm;
      [|congruence].
    rewrite <- Hs in Hm.
    rewrite (bind_raise _ _ _ _ _ (session_commit_fault env _ _ m Hm)).
    exists m, (advance env 0 (advance_n env (length numbers) w)).
    split; [reflexivity|]. split; [exact Hr|exact Hn].
  - destruct (enqueue_loop_fault env numbers msg (next_id w) [] [] w k' Hk' Hf')
      as [m Hm].
    destruct (enqueue_loop env numbers msg (next_id w) [] [] w)
      as [[flushed|e] w1] eqn:Hloop; cbn [fst snd] in *; [discriminate Hm|].
    injection Hm as ->.
    rewrite (bind_raise _ _ _ _ _ Hloop).
    exists m, w1. split; [reflexivity|]. destruct Hframe as (-> & -> & _). auto.
Qed.

(** C4, as the code has it.  The batch is one transaction.  When none of
    its flushes nor its commit fails, the builder returns one task handle
    per number, in the order of the numbers, with consecutive keys; each
    key holds a queued row for its number in the committed table at the
    return, and no other row of the table changed.  When the flush of some
    number or the commit fails, the failure is raised to the caller, no
    task handle is returned and the committed table is as it was: no
    number is skipped and the rest persisted. *)
Theorem enqueue_calls_all_or_nothing (env : Env) (numbers : list string)
        (msg : string) (w : World) :
  (faultless env (steps w) (S (length numbers)) ->
   exists tasks w',
     enqueue_calls env numbers msg w = (Ok tasks, w')
     /\ (forall i : nat,
            tasks !! i
            = (fun num => {| CallTask.id := (next_id w + Z.of_nat i)%Z;
                             CallTask.number := num;
                             CallTask.message := msg |}) <$> numbers !! i)
     /\ next_id w' = (next_id w + Z.of_nat (length numbers))%Z
     /\ (forall (i : nat) (num : string),
            numbers !! i = Some num ->
            exists now,
              rows w' !! (next_id w + Z.of_nat i)%Z
              = Some (queued_log (next_id w + Z.of_nat i) num msg now))
     /\ (forall k : Z,
            (k < next_id w \/ next_id w + Z.of_nat (length numbers) <= k)%Z ->
            rows w' !! k = rows w !! k))
  /\ (forall k : nat,
         (k <= length numbers)%nat ->
         db_fault env (steps w + k) <> None ->
         exists m w',
           enqueue_calls env numbers msg w = (Raise (db_error m), w')
           /\ rows w' = rows w /\ next_id w' = next_id w).
Proof.
  split.
  - intros Hok. rewrite (enqueue_calls_ok env numbers msg w Hok).
    do 2 eexists. split; [reflexivity|].
    destruct (write_rows_run (new_rows env numbers msg (next_id w) w)
                (advance env 0 (advance_n env (length numbers) w)))
      as (_ & Hrows & _).
    destruct (advance_n_fields env (length numbers) w) as (Hr & _).
    cbn [rows set_next_id next_id]. rewrite Hrows.
    change (rows (advance env 0 (advance_n env (length numbers) w)))
      with (rows (advance_n env (length numbers) w)).
    rewrite Hr.
    split; [intros i; apply new_tasks_lookup|].
    split; [reflexivity|].
    split.
    + intros i num Hi. now apply new_rows_lookup_inside.
    + intros k Hk. now apply new_rows_lookup_outside.
  - intros k Hk Hf. exact (enqueue_calls_fault env numbers msg w k Hk Hf).
Qed.

Lemma enqueue_calls_all_or_nothing_witness :
  exists tasks w',
    enqueue_calls Sample.env_ok ["+15005550001"; "+15005550002"] "hi"
      Sample.empty_world = (Ok tasks, w')
    /\ next_id w' = 3%Z.
Proof.
  destruct (proj1 (enqueue_calls_all_or_nothing Sample.env_ok
                     ["+15005550001"; "+15005550002"] "hi" Sample.empty_world)
              (fun k _ => eq_refl))
    as (tasks & w' & Hrun & _ & Hnext & _).
  exists tasks, w'. split; [exact Hrun|exact Hnext].
Defined.

(** One flush that fails takes the whole batch with it: with the second of
    three inserts failing, nothing is returned and nothing is stored. *)
Lemma enqueue_aborts_whole_batch :
  db_fault (Sample.env_fault_at 1) 1 = Some "database is locked"
  /\ ~ returns_tasks (Sample.env_fault_at 1)
         ["+15005550001"; "+15005550002"; "+15005550003"] "hi"
         Sample.empty_world
  /\ rows (snd (enqueue_calls (Sample.env_fault_at 1)
                  ["+15005550001"; "+15005550002"; "+15005550003"] "hi"
                  Sample.empty_world)) = ∅.
Proof.
  split; [reflexivity|]. split.
  - intros [tasks H]. vm_compute in H. discriminate H.
  - vm_compute. reflexivity.
Qed.

(** ** What one storage update does, whatever the engine does *)

Lemma update_status_run (env : Env) (call_id : Z) (st : CallStatus)
      (err : option string) (w : World) :
  _update_status env call_id st err w
  = match db_fault env (steps w) with
    | Some m => (Raise (db_error m), advance env 0 w)
    | None =>
        match rows w !! call_id with
        | None => (Ok tt, advance env 0 w)
        | Some log =>
            match db_fault env (S (steps w)) with
            | Some m => (Raise (db_error m), advance env 0 (advance env 0 w))
            | None =>
                (Ok tt,
                 observe (Persisted call_id st)
                   (set_rows
                      (<[call_id := CallLog.mark log st None err None
                                      (clock (advance env 0 w))]> (rows w))
                      (advance env 0 (advance env 0 w))))
            end
        end
    end.
Proof.
  destruct (db_fault env (steps w)) as [m|] eqn:H1.
  - unfold _update_status.
    now rewrite (bind_raise _ _ _ _ _ (session_get_fault env call_id w m H1)).
  - destruct (rows w !! call_id) as [log|] eqn:Hrow.
    + destruct (db_fault env (S (steps w))) as [m|] eqn:H2.
      * unfold _update_status.
        rewrite (bind_ok _ _ _ _ _ (session_get_ok env call_id w H1)).
        rewrite Hrow, bind_utcnow.
        now rewrite session_commit_fault with (msg := m).
      * now apply update_status_present.
    + now apply update_status_missing.
Qed.

Lemma finalise_run (env : Env) (call_id : Z) (result : CallResult.t) (w : World) :
  _finalise env call_id result w
  = match db_fault env (steps w) with
    | Some m => (Raise (db_error m), advance env 0 w)
    | None =>
        match rows w !! call_id with
        | None => (Ok tt, advance env 0 w)
        | Some log =>
            match db_fault env (S (steps w)) with
            | Some m => (Raise (db_error m), advance env 0 (advance env 0 w))
            | None =>
                let st := if CallResult.success result then SUCCESS else FAILED in
                (Ok tt,
                 observe (Persisted call_id st)
                   (set_rows
                      (<[call_id :=
                           CallLog.mark log st (CallResult.duration result)
                             (CallResult.error result) (CallResult.sid result)
                             (clock (advance env 0 w))]> (rows w))
                      (advance env 0 (advance env 0 w))))
            end
        end
    end.
Proof.
  destruct (db_fault env (steps w)) as [m|] eqn:H1.
  - unfold _finalise.
    now rewrite (bind_raise _ _ _ _ _ (session_get_fault env call_id w m H1)).
  - destruct (rows w !! call_id) as [log|] eqn:Hrow.
    + destruct (db_fault env (S (steps w))) as [m|] eqn:H2.
      * unfold _finalise.
        rewrite (bind_ok _ _ _ _ _ (session_get_ok env call_id w H1)).
        rewrite Hrow, bind_utcnow.
        now rewrite session_commit_fault with (msg := m).
      * now apply finalise_present.
    + now apply finalise_missing.
Qed.

(** Linear arithmetic over the readings of the clock and the latencies,
    taken as unknowns. *)
Ltac clock_arith :=
  cbn [fst snd] in *;
  repeat match goal with
         | H : context [latency ?e ?n] |- _ =>
             let x := fresh "lat" in set (x := latency e n) in *; clearbody x
         | |- context [latency ?e ?n] =>
             let x := fresh "lat" in set (x := latency e n) in *; clearbody x
         end;
  repeat match goal with
         | H : context [clock ?v] |- _ =>
             let x := fresh "now" in set (x := clock v) in *; clearbody x
         | |- context [clock ?v] =>
             let x := fresh "now" in set (x := clock v) in *; clearbody x
         end;
  lra.

Lemma advance_clock (env : Env) (extra : Q) (w : World) :
  causal env -> (clock w + extra <= clock (advance env extra w))%Q.
Proof.
  intros Hc. cbn [advance clock]. pose proof (Hc (steps w)). clock_arith.
Qed.

Lemma advance_clock_0 (env : Env) (w : World) :
  causal env -> (clock w <= clock (advance env 0 w))%Q.
Proof. intros Hc. pose proof (advance_clock env 0 w Hc). clock_arith. Qed.

(** [_update_status] either writes nothing or commits the marked row. *)
Lemma update_status_effect (env : Env) (call_id : Z) (st : CallStatus)
      (err : option string) (w : World) :
  let r := fst (_update_status env call_id st err w) in
  let w' := snd (_update_status env call_id st err w) in
  (reliable env -> r = Ok tt)
  /\ ((quiet_step env w w' /\ (r = Ok tt -> rows w !! call_id = None))
      \/ (r = Ok tt
          /\ exists log now,
              rows w !! call_id = Some log
              /\ write_step env call_id (CallLog.mark log st None err None now)
                   w w')).
Proof.
  cbv zeta. rewrite update_status_run.
  destruct (db_fault env (steps w)) as [m|] eqn:H1.
  { split; [intros Hrel; rewrite Hrel in H1; discriminate|]. left.
    split; [|discriminate]. repeat split. apply advance_clock_0. }
  destruct (rows w !! call_id) as [log|] eqn:Hrow.
  2:{ split; [reflexivity|]. left. split; [|reflexivity].
      repeat split. apply advance_clock_0. }
  destruct (db_fault env (S (steps w))) as [m|] eqn:H2.
  { split; [intros Hrel; rewrite Hrel in H2; discriminate|]. left.
    split; [|discriminate]. repeat split. intros Hc.
    pose proof (advance_clock_0 env w Hc).
    pose proof (advance_clock_0 env (advance env 0 w) Hc). clock_arith. }
  split; [reflexivity|]. right. split; [reflexivity|].
  exists log, (clock (advance env 0 w)). split; [reflexivity|].
  repeat split. intros Hc.
  pose proof (advance_clock_0 env w Hc).
  pose proof (advance_clock_0 env (advance env 0 w) Hc). cbn in *. lra.
Qed.

Lemma finalise_effect (env : Env) (call_id : Z) (result : CallResult.t)
      (w : World) :
  let r := fst (_finalise env call_id result w) in
  let w' := snd (_finalise env call_id result w) in
  (reliable env -> r = Ok tt)
  /\ ((quiet_step env w w' /\ (r = Ok tt -> rows w !! call_id = None))
      \/ (r = Ok tt
          /\ exists log now,
              rows w !! call_id = Some log
              /\ write_step env call_id
                   (CallLog.mark log
                      (if CallResult.success result then SUCCESS else FAILED)
                      (CallResult.duration result) (CallResult.error result)
                      (CallResult.sid result) now)
                   w w')).
Proof.
  cbv zeta. rewrite finalise_run.
  destruct (db_fault env (steps w)) as [m|] eqn:H1.
  { split; [intros Hrel; rewrite Hrel in H1; discriminate|]. left.
    split; [|discriminate]. repeat split. apply advance_clock_0. }
  destruct (rows w !! call_id) as [log|] eqn:Hrow.
  2:{ split; [reflexivity|]. left. split; [|reflexivity].
      repeat split. apply advance_clock_0. }
  destruct (db_fault env (S (steps w))) as [m|] eqn:H2.
  { split; [intros Hrel; rewrite Hrel in H2; discriminate|]. left.
    split; [|discriminate]. repeat split. intros Hc.
    pose proof (advance_clock_0 env w Hc).
    pose proof (advance_clock_0 env (advance env 0 w) Hc). clock_arith. }
  split; [reflexivity|]. right. split; [reflexivity|].
  exists log, (clock (advance env 0 w)). split; [reflexivity|].
  repeat split. intros Hc.
  pose proof (advance_clock_0 env w Hc).
  pose proof (advance_clock_0 env (advance env 0 w) Hc). cbn in *. lra.
Qed.

(** ** What one task does, whatever the engine does *)

Lemma process_task_abort (env : Env) (svc : TwilioService.t) (task : CallTask.t)
      (w w1 : World) (e : exn) :
  _update_status env (CallTask.id task) IN_PROGRESS None w = (Raise e, w1) ->
  process_task env svc task w = (Raise e, w1).
Proof. intros H. unfold process_task. now rewrite (bind_raise _ _ _ _ _ H). Qed.

Lemma process_task_continue (env : Env) (svc : TwilioService.t)
      (task : CallTask.t) (w w1 : World) :
  _update_status env (CallTask.id task) IN_PROGRESS None w = (Ok tt, w1) ->
  process_task env svc task w
  = if startswith (CallTask.number task) TWILIO_TEST_PREFIX then
      _finalise env (CallTask.id task)
        (TwilioService.result_of
           (TwilioService.calls_create svc (steps (paused env w1))
              (TwilioService.twiml_of (CallTask.message task))
              (CallTask.number task) (TwilioService.from_number svc)))
        (observe (ClientCreate (CallTask.number task)
                    (TwilioService.twiml_of (CallTask.message task))
                    (TwilioService.from_number svc))
           (advance env 0
              (observe (Dispatch (CallTask.number task) (CallTask.message task))
                 (paused env w1))))
    else
      _update_status env (CallTask.id task) SKIPPED
        (Some TwilioService.TEST_MODE_MESSAGE)
        (observe (Dispatch (CallTask.number task) (CallTask.message task))
           (paused env w1)).
Proof.
  intros H. unfold process_task. rewrite (bind_ok _ _ _ _ _ H).
  assert (Hs : asyncio_sleep env RATE_LIMIT_SECONDS w1 = (Ok tt, paused env w1))
    by reflexivity.
  rewrite (bind_ok _ _ _ _ _ Hs).
  destruct (startswith (CallTask.number task) TWILIO_TEST_PREFIX) eqn:Hgate.
  - assert (Ha : attempt (TwilioService.place_call env svc (CallTask.number task)
                            (CallTask.message task)) (paused env w1)
                 = (Ok (Ok (TwilioService.result_of
                              (TwilioService.calls_create svc (steps (paused env w1))
                                 (TwilioService.twiml_of (CallTask.message task))
                                 (CallTask.number task)
                                 (TwilioService.from_number svc)))),
                    observe (ClientCreate (CallTask.number task)
                               (TwilioService.twiml_of (CallTask.message task))
                               (TwilioService.from_number svc))
                      (advance env 0
                         (observe (Dispatch (CallTask.number task)
                                     (CallTask.message task))
                            (paused env w1))))).
    { unfold attempt. now rewrite place_call_passed. }
    now rewrite (bind_ok _ _ _ _ _ Ha).
  - assert (Ha : attempt (TwilioService.place_call env svc (CallTask.number task)
                            (CallTask.message task)) (paused env w1)
                 = (Ok (Raise {| exn_class := ValueError;
                                 exn_str := TwilioService.TEST_MODE_MESSAGE |}),
                    observe (Dispatch (CallTask.number task)
                               (CallTask.message task))
                      (paused env w1))).
    { unfold attempt. now rewrite place_call_refused. }
    now rewrite (bind_ok _ _ _ _ _ Ha).
Qed.

(** From the pause to the end of the task: the pause, the dispatch, the
    client if the number passes the check, and the update that settles the
    row if it is still there. *)
Lemma process_task_settle (env : Env) (svc : TwilioService.t)
      (task : CallTask.t) (w w1 : World) :
  _update_status env (CallTask.id task) IN_PROGRESS None w = (Ok tt, w1) ->
  let r := fst (process_task env svc task w) in
  let w' := snd (process_task env svc task w) in
  exists (w3 : World) (cc : list (Q * Event)),
    rows w3 = rows w1 /\ next_id w3 = next_id w1
    /\ trace w3
       = (cc ++ [(clock (paused env w1),
                  Dispatch (CallTask.number task) (CallTask.message task));
                 (clock (paused env w1), Slept RATE_LIMIT_SECONDS)]
             ++ trace w1)%list
    /\ (cc = []
        \/ cc = [(clock w3,
                  ClientCreate (CallTask.number task)
                    (TwilioService.twiml_of (CallTask.message task))
                    (TwilioService.from_number svc))])
    /\ (causal env ->
        (clock w1 + RATE_LIMIT_SECONDS <= clock (paused env w1))%Q
        /\ (clock (paused env w1) <= clock w3)%Q)
    /\ (reliable env -> r = Ok tt)
    /\ ((quiet_step env w3 w'
         /\ (r = Ok tt -> rows w3 !! CallTask.id task = None))
        \/ (r = Ok tt
            /\ exists log st d e s now,
                rows w3 !! CallTask.id task = Some log
                /\ terminal_args st d e s /\ is_terminal st = true
                /\ write_step env (CallTask.id task)
                     (CallLog.mark log st d e s now) w3 w')).
Proof.
  intros H1. cbv zeta. rewrite (process_task_continue env svc task w w1 H1).
  destruct (startswith (CallTask.number task) TWILIO_TEST_PREFIX) eqn:Hgate.
  - set (result := TwilioService.result_of _).
    set (w3 := observe (ClientCreate _ _ _) _).
    exists w3,
      [(clock w3, ClientCreate (CallTask.number task)
                    (TwilioService.twiml_of (CallTask.message task))
                    (TwilioService.from_number svc))].
    split; [reflexivity|]. split; [reflexivity|]. split; [reflexivity|].
    split; [now right|]. split.
    { intros Hc. split.
      - apply (advance_clock env RATE_LIMIT_SECONDS w1 Hc).
      - apply (advance_clock_0 env
                 (observe (Dispatch (CallTask.number task) (CallTask.message task))
                    (paused env w1)) Hc). }
    destruct (finalise_effect env (CallTask.id task) result w3)
      as (Hrel & [Hquiet|(Hok & log & now & Hrow & Hw)]).
    + split; [exact Hrel|]. now left.
    + split; [exact Hrel|]. right. split; [exact Hok|].
      exists log, (if CallResult.success result then SUCCESS else FAILED),
        (CallResult.duration result), (CallResult.error result),
        (CallResult.sid result), now.
      split; [exact Hrow|]. split; [|split; [|exact Hw]].
      * pose proof (result_of_shape
                      (TwilioService.calls_create svc (steps (paused env w1))
                         (TwilioService.twiml_of (CallTask.message task))
                         (CallTask.number task) (TwilioService.from_number svc)))
          as Hshape.
        cbv zeta in Hshape. fold result in Hshape. unfold terminal_args.
        destruct (CallResult.success result); [right|left]; intuition.
      * now destruct (CallResult.success result).
  - set (w3 := observe (Dispatch _ _) _).
    exists w3, [].
    split; [reflexivity|]. split; [reflexivity|]. split; [reflexivity|].
    split; [now left|]. split.
    { intros Hc. split.
      - apply (advance_clock env RATE_LIMIT_SECONDS w1 Hc).
      - apply Qle_refl. }
    destruct (update_status_effect env (CallTask.id task) SKIPPED
                (Some TwilioService.TEST_MODE_MESSAGE) w3)
      as (Hrel & [Hquiet|(Hok & log & now & Hrow & Hw)]).
    + split; [exact Hrel|]. now left.
    + split; [exact Hrel|]. right. split; [exact Hok|].
      exists log, SKIPPED, None, (Some TwilioService.TEST_MODE_MESSAGE), None, now.
      split; [exact Hrow|]. split; [|split; [reflexivity|exact Hw]].
      left. auto.
Qed.

Lemma process_task_effect (env : Env) (svc : TwilioService.t)
      (task : CallTask.t) (w : World) :
  let r := fst (process_task env svc task w) in
  let w' := snd (process_task env svc task w) in
  next_id w' = next_id w
  /\ (reliable env -> r = Ok tt)
  /\ (causal env -> (clock w <= clock w')%Q)
  /\ (exists evs : list (Q * Event),
         trace w' = (evs ++ trace w)%list
         /\ task_events task (List.map snd evs)
         /\ (length (dispatches evs) <= 1)%nat
         /\ (r = Ok tt ->
             List.map snd (dispatches evs)
             = [Dispatch (CallTask.number task) (CallTask.message task)])
         /\ (causal env ->
             Forall (stamped (clock w) (clock w') RATE_LIMIT_SECONDS) evs))
  /\ ((rows w' = rows w /\ (r = Ok tt -> rows w !! CallTask.id task = None))
      \/ exists log now,
          rows w !! CallTask.id task = Some log
          /\ ((rows w'
               = <[CallTask.id task :=
                     CallLog.mark log IN_PROGRESS None None None now]> (rows w)
               /\ r <> Ok tt)
              \/ exists st d e s now',
                  terminal_args st d e s /\ is_terminal st = true
                  /\ r = Ok tt
                  /\ rows w'
                     = <[CallTask.id task :=
                           CallLog.mark
                             (CallLog.mark log IN_PROGRESS None None None now)
                             st d e s now']> (rows w))).
Proof.
  cbv zeta.
  destruct (update_status_effect env (CallTask.id task) IN_PROGRESS None w)
    as (Hrel1 & Hphase1).
  destruct (_update_status env (CallTask.id task) IN_PROGRESS None w)
    as [[[]|e1] w1] eqn:H1; cbn [fst snd] in *.
  2:{ (* the in_progress update raised *)
    rewrite (process_task_abort env svc task w w1 e1 H1). cbn [fst snd].
    destruct Hphase1 as [((Hr & Hn & Ht & Hc) & _)|(Hok & _)]; [|discriminate].
    split; [exact Hn|]. split; [intros Hrel; now specialize (Hrel1 Hrel)|].
    split; [exact Hc|]. split.
    - exists []. split; [now rewrite Ht|]. split; [constructor|].
      split; [cbn; lia|]. split; [discriminate|]. intros _. constructor.
    - left. split; [exact Hr|discriminate]. }
  destruct (process_task_settle env svc task w w1 H1)
    as (w3 & cc & Hr3 & Hn3 & Ht3 & Hcc & Hclk & Hrel & Hfinal).
  cbv zeta in *.
  set (r := fst (process_task env svc task w)) in *.
  set (w' := snd (process_task env svc task w)) in *.
  clearbody r w'.
  split.
  { destruct Hfinal as [((_ & Hn & _) & _)|(_ & ? & ? & ? & ? & ? & ? & _ & _ & _ & _ & Hn & _)];
      rewrite Hn, Hn3;
      destruct Hphase1 as [((_ & Hn1 & _) & _)|(_ & ? & ? & _ & _ & Hn1 & _)];
      exact Hn1. }
  split; [exact Hrel|].
  assert (Hmono : causal env ->
                  (clock w <= clock w1)%Q
                  /\ (clock w1 + RATE_LIMIT_SECONDS <= clock (paused env w1))%Q
                  /\ (clock (paused env w1) <= clock w3)%Q
                  /\ (clock w3 <= clock w')%Q).
  { intros Hc. destruct (Hclk Hc) as (Ha & Hb).
    split; [|split; [exact Ha|split; [exact Hb|]]].
    - destruct Hphase1 as [((_ & _ & _ & Hc1) & _)|(_ & ? & ? & _ & _ & _ & _ & Hc1)];
        exact (Hc1 Hc).
    - destruct Hfinal as [((_ & _ & _ & Hc3) & _)
                         |(_ & ? & ? & ? & ? & ? & ? & _ & _ & _ & _ & _ & _ & Hc3)];
        exact (Hc3 Hc). }
  assert (HR : (0 <= RATE_LIMIT_SECONDS)%Q) by (unfold RATE_LIMIT_SECONDS; lra).
  split.
  { intros Hc. destruct (Hmono Hc) as (? & ? & ? & ?). clock_arith. }
  assert (Hip : exists ip,
             trace w1 = (ip ++ trace w)%list
             /\ (ip = []
                 \/ ip = [(clock w1, Persisted (CallTask.id task) IN_PROGRESS)])).
  { destruct Hphase1 as [((_ & _ & Ht & _) & _)|(_ & ? & ? & _ & _ & _ & Ht & _)].
    - exists []. split; [exact Ht|now left].
    - exists [(clock w1, Persisted (CallTask.id task) IN_PROGRESS)].
      split; [exact Ht|now right]. }
  assert (Hfin : exists fin,
             trace w' = (fin ++ trace w3)%list
             /\ (fin = []
                 \/ exists st, is_terminal st = true
                               /\ fin = [(clock w', Persisted (CallTask.id task) st)])).
  { destruct Hfinal as [((_ & _ & Ht & _) & _)
                       |(_ & ? & st & ? & ? & ? & ? & _ & _ & Hst & _ & _ & Ht & _)].
    - exists []. split; [exact Ht|now left].
    - exists [(clock w', Persisted (CallTask.id task) st)].
      split; [exact Ht|].
      right. exists st. split; [exact Hst|reflexivity]. }
  split.
  { destruct Hip as (ip & Htip & Hip). destruct Hfin as (fin & Htfin & Hfin).
    exists (fin ++ cc
                ++ [(clock (paused env w1),
                     Dispatch (CallTask.number task) (CallTask.message task));
                    (clock (paused env w1), Slept RATE_LIMIT_SECONDS)]
                ++ ip)%list.
    split; [rewrite Htfin, Ht3, Htip; now rewrite <- !app_assoc|].
    split.
    - rewrite !map_app. cbn [List.map snd]. apply te_dispatched.
      + destruct Hfin as [-> | (st & Hst & ->)]; [now left|right; eauto].
      + destruct Hcc as [-> | ->]; [now left|right; eauto].
      + destruct Hip as [-> | ->]; [now left|now right].
    - split.
      { destruct Hfin as [-> | (st & Hst & ->)]; destruct Hcc as [-> | ->];
          destruct Hip as [-> | ->]; cbn; lia. }
      split.
      { intros _.
        destruct Hfin as [-> | (st & Hst & ->)]; destruct Hcc as [-> | ->];
          destruct Hip as [-> | ->]; reflexivity. }
      intros Hc. destruct (Hmono Hc) as (Ha & Hb & Hd & He).
      repeat rewrite Forall_app. repeat split.
      + destruct Hfin as [-> | (st & Hst & ->)]; constructor; [|constructor].
        unfold stamped; cbn [fst snd is_dispatch].
        split; [clock_arith|]. split; [clock_arith|discriminate].
      + destruct Hcc as [-> | ->]; constructor; [|constructor].
        unfold stamped; cbn [fst snd is_dispatch].
        split; [clock_arith|]. split; [clock_arith|discriminate].
      + constructor; [|constructor; [|constructor]];
          unfold stamped; cbn [fst snd is_dispatch].
        * split; [clock_arith|]. split; [clock_arith|]. intros _. clock_arith.
        * split; [clock_arith|]. split; [clock_arith|discriminate].
      + destruct Hip as [-> | ->]; constructor; [|constructor].
        unfold stamped; cbn [fst snd is_dispatch].
        split; [clock_arith|]. split; [clock_arith|discriminate]. }
  destruct Hphase1 as [((Hr1 & _) & Hnone)
                      |(_ & log & now & Hrow & Hr1 & _)].
  - (* the row was not there *)
    left. specialize (Hnone eq_refl).
    destruct Hfinal as [((Hr & _) & _)
                       |(_ & log3 & ? & ? & ? & ? & ? & Hrow3 & _)].
    + split; [now rewrite Hr, Hr3, Hr1|intros _; exact Hnone].
    + rewrite Hr3, Hr1, Hnone in Hrow3. discriminate.
  - (* the row was there and is in_progress *)
    right. exists log, now. split; [exact Hrow|].
    assert (Hrow3 : rows w3 !! CallTask.id task
                    = Some (CallLog.mark log IN_PROGRESS None None None now))
      by (rewrite Hr3, Hr1; apply lookup_insert_eq).
    destruct Hfinal as [((Hr & _) & Hnone)
                       |(Hok & log3 & st & d & e & s & now' & Hrow3' & Hargs & Hst
                         & Hr & _)].
    + left. split; [now rewrite Hr, Hr3, Hr1|].
      intros Hok. specialize (Hnone Hok). congruence.
    + right. exists st, d, e, s, now'.
      split; [exact Hargs|]. split; [exact Hst|]. split; [exact Hok|].
      rewrite Hrow3 in Hrow3'. injection Hrow3' as <-.
      rewrite Hr, Hr3, Hr1. apply insert_insert_eq.
Qed.

(** ** Pacing *)

Lemma dispatch_times_app (e2 e1 : list (Q * Event)) :
  dispatch_times (e2 ++ e1) = (dispatch_times e2 ++ dispatch_times e1)%list.
Proof. unfold dispatch_times, dispatches. now rewrite List.filter_app, List.map_app. Qed.

Lemma spaced_app (gap : Q) (l2 l1 : list Q) :
  spaced gap l2 -> spaced gap l1 ->
  (forall t2 t1, In t2 l2 -> In t1 l1 -> (t1 + gap <= t2)%Q) ->
  spaced gap (l2 ++ l1).
Proof.
  induction l2 as [|a l2 IH]; intros H2 H1 Hcross; [exact H1|].
  destruct l2 as [|b l2].
  - destruct l1 as [|c l1]; [exact I|]. cbn. split; [|exact H1].
    apply Hcross; now left.
  - cbn in H2. destruct H2 as (Hab & H2). cbn [app]. split; [exact Hab|].
    apply IH; [exact H2|exact H1|].
    intros t2 t1 Ht2 Ht1. apply Hcross; [now right|exact Ht1].
Qed.

Lemma spaced_short (gap : Q) (l : list Q) :
  (length l <= 1)%nat -> spaced gap l.
Proof. destruct l as [|a [|b l]]; cbn; intros H; [exact I|exact I|lia]. Qed.

Lemma stamped_dispatch_time (lo hi gap : Q) (evs : list (Q * Event)) (t : Q) :
  Forall (stamped lo hi gap) evs ->
  In t (dispatch_times evs) ->
  (lo + gap <= t)%Q /\ (t <= hi)%Q.
Proof.
  intros Hall Hin. unfold dispatch_times, dispatches in Hin.
  apply in_map_iff in Hin. destruct Hin as (te & <- & Hte).
  apply filter_In in Hte. destruct Hte as (Hte & Hd).
  rewrite List.Forall_forall in Hall.
  destruct (Hall te Hte) as (_ & Hhi & Hgap).
  split; [exact (Hgap Hd)|exact Hhi].
Qed.

Lemma stamped_widen (lo lo' hi hi' gap : Q) (evs : list (Q * Event)) :
  (lo' <= lo)%Q -> (hi <= hi')%Q ->
  Forall (stamped lo hi gap) evs -> Forall (stamped lo' hi' gap) evs.
Proof.
  intros Hlo Hhi. apply List.Forall_impl. intros te (Ha & Hb & Hc).
  unfold stamped. split; [lra|]. split; [lra|].
  intros Hd. specialize (Hc Hd). lra.
Qed.

Lemma execute_call_sequence_cons (env : Env) (svc : TwilioService.t)
      (task : CallTask.t) (tasks : list CallTask.t) (w : World) :
  execute_call_sequence env svc (task :: tasks) w
  = match process_task env svc task w with
    | (Ok _, w1) => execute_call_sequence env svc tasks w1
    | (Raise e, w1) => (Raise e, w1)
    end.
Proof. reflexivity. Qed.

Lemma execute_call_sequence_events (env : Env) (svc : TwilioService.t)
      (tasks : list CallTask.t) :
  forall w : World,
    causal env ->
    let w' := snd (execute_call_sequence env svc tasks w) in
    (clock w <= clock w')%Q
    /\ exists evs : list (Q * Event),
        trace w' = (evs ++ trace w)%list
        /\ run_events tasks (List.map snd evs)
        /\ Forall (stamped (clock w) (clock w') RATE_LIMIT_SECONDS) evs
        /\ spaced RATE_LIMIT_SECONDS (dispatch_times evs).
Proof.
  induction tasks as [|task tasks IH]; intros w Hc; cbv zeta.
  - cbn. split; [apply Qle_refl|]. exists []. repeat split; constructor.
  - rewrite execute_call_sequence_cons.
    destruct (process_task_effect env svc task w)
      as (_ & _ & Hclk & (e1 & Ht1 & Hg1 & Hn1 & _ & Hs1) & _).
    specialize (Hclk Hc). specialize (Hs1 Hc).
    destruct (process_task env svc task w) as [[[]|e] w1]; cbn [fst snd] in *.
    + destruct (IH w1 Hc) as (Hclk2 & e2 & Ht2 & Hg2 & Hs2 & Hp2).
      cbv zeta in *.
      set (w' := snd (execute_call_sequence env svc tasks w1)) in *.
      clearbody w'.
      split; [lra|]. exists (e2 ++ e1)%list.
      split; [rewrite Ht2, Ht1; now rewrite app_assoc|].
      split; [rewrite List.map_app; now constructor|].
      split.
      * apply Forall_app. split.
        -- revert Hs2. apply List.Forall_impl. intros te (Ha & Hb & Hd).
           unfold stamped. split; [lra|]. split; [lra|].
           intros Hdis. specialize (Hd Hdis). lra.
        -- revert Hs1. apply stamped_widen; [apply Qle_refl|exact Hclk2].
      * rewrite dispatch_times_app. apply spaced_app.
        -- exact Hp2.
        -- apply spaced_short. unfold dispatch_times. now rewrite length_map.
        -- intros t2 t1 Hin2 Hin1.
           destruct (stamped_dispatch_time _ _ _ _ _ Hs2 Hin2) as (Hlo2 & _).
           destruct (stamped_dispatch_time _ _ _ _ _ Hs1 Hin1) as (_ & Hhi1).
           lra.
    + split; [exact Hclk|]. exists e1.
      split; [exact Ht1|].
      split; [change (List.map snd e1) with ([] ++ List.map snd e1)%list;
              constructor; [exact Hg1|constructor]|].
      split; [exact Hs1|].
      apply spaced_short. unfold dispatch_times. now rewrite length_map.
Qed.

(** A run only adds to the trace. *)
Lemma execute_call_sequence_trace (env : Env) (svc : TwilioService.t)
      (tasks : list CallTask.t) :
  forall w : World,
    exists evs : list (Q * Event),
      trace (snd (execute_call_sequence env svc tasks w)) = (evs ++ trace w)%list.
Proof.
  induction tasks as [|task tasks IH]; intros w; [now exists []|].
  rewrite execute_call_sequence_cons.
  destruct (process_task_effect env svc task w)
    as (_ & _ & _ & (e1 & Ht1 & _) & _).
  destruct (process_task env svc task w) as [[[]|e] w1]; cbn [fst snd] in *.
  - destruct (IH w1) as (e2 & Ht2). exists (e2 ++ e1)%list.
    now rewrite Ht2, Ht1, app_assoc.
  - now exists e1.
Qed.

(** The task a run takes up in [wi]: what it adds stays in the trace of
    the run; if it raises, the run ends there with its exception and
    takes up no further task. *)
Lemma world_at_task (env : Env) (svc : TwilioService.t)
      (tasks : list CallTask.t) :
  forall (w : World) (i : nat) (task : CallTask.t) (wi : World),
    tasks !! i = Some task ->
    world_at env svc tasks w i = Some wi ->
    (exists newer : list (Q * Event),
        trace (snd (execute_call_sequence env svc tasks w))
        = (newer ++ trace (snd (process_task env svc task wi)))%list)
    /\ (forall e,
           fst (process_task env svc task wi) = Raise e ->
           execute_call_sequence env svc tasks w
           = (Raise e, snd (process_task env svc task wi))
           /\ world_at env svc tasks w (S i) = None).
Proof.
  induction tasks as [|task0 tasks IH]; intros w i task wi Hi Hat;
    [discriminate Hi|].
  destruct i as [|i]; cbn [world_at] in *.
  - injection Hi as ->. injection Hat as ->.
    rewrite execute_call_sequence_cons.
    destruct (process_task env svc task wi) as [[[]|e] w1]; cbn [fst snd].
    + split; [apply execute_call_sequence_trace|discriminate].
    + split; [now exists []|]. intros e' He. injection He as <-. auto.
  - cbn in Hi. rewrite execute_call_sequence_cons.
    destruct (process_task env svc task0 w) as [[[]|e] w1]; [|discriminate].
    exact (IH w1 i task wi Hi Hat).
Qed.

(** What a task adds to the trace up to its dispatch: the commit of
    in_progress when its row is in the table, the pause and the dispatch;
    nothing when the in_progress update raises. *)
Lemma process_task_paced (env : Env) (svc : TwilioService.t)
      (task : CallTask.t) (w : World) :
  let w1 := snd (_update_status env (CallTask.id task) IN_PROGRESS None w) in
  let wt := snd (process_task env svc task w) in
  match fst (_update_status env (CallTask.id task) IN_PROGRESS None w) with
  | Raise e =>
      process_task env svc task w = (Raise e, w1) /\ trace w1 = trace w
  | Ok _ =>
      (exists later : list (Q * Event),
          trace wt
          = (later ++ [(clock (paused env w1), dispatch_of task);
                       (clock (paused env w1), Slept RATE_LIMIT_SECONDS)]
                   ++ trace w1)%list
          /\ dispatches later = [])
      /\ (causal env -> (clock w1 + RATE_LIMIT_SECONDS <= clock (paused env w1))%Q)
      /\ match rows w !! CallTask.id task with
         | Some _ =>
             trace w1 = (clock w1, Persisted (CallTask.id task) IN_PROGRESS)
                          :: trace w
             /\ CallLog.status <$> rows w1 !! CallTask.id task = Some IN_PROGRESS
         | None => trace w1 = trace w /\ rows w1 = rows w
         end
  end.
Proof.
  cbv zeta.
  destruct (_update_status env (CallTask.id task) IN_PROGRESS None w)
    as [[[]|e] w1] eqn:H1; cbn [fst snd].
  2:{ split; [exact (process_task_abort env svc task w w1 e H1)|].
      rewrite update_status_run in H1.
      destruct (db_fault env (steps w)); [now injection H1 as _ <-|].
      destruct (rows w !! CallTask.id task); [|discriminate].
      destruct (db_fault env (S (steps w))); [now injection H1 as _ <-|discriminate]. }
  destruct (process_task_settle env svc task w w1 H1)
    as (w3 & cc & _ & _ & Ht3 & Hcc & Hclk & _ & Hfinal).
  cbv zeta in Hfinal. split; [|split].
  - assert (Hfin : exists fin,
               trace (snd (process_task env svc task w)) = (fin ++ trace w3)%list
               /\ dispatches fin = []).
    { destruct Hfinal as [((_ & _ & Ht & _) & _)
                         |(_ & ? & st & ? & ? & ? & ? & _ & _ & _ & _ & _ & Ht & _)].
      - exists []. now rewrite Ht.
      - eexists [_]. rewrite Ht. split; reflexivity. }
    destruct Hfin as (fin & Htfin & Hdfin).
    exists (fin ++ cc)%list. split.
    + rewrite Htfin, Ht3. unfold dispatch_of. now rewrite <- app_assoc.
    + unfold dispatches in *. rewrite List.filter_app, Hdfin.
      now destruct Hcc as [-> | ->].
  - intros Hc. exact (proj1 (Hclk Hc)).
  - rewrite update_status_run in H1.
    destruct (db_fault env (steps w)); [discriminate|].
    destruct (rows w !! CallTask.id task) as [log|].
    + destruct (db_fault env (S (steps w))); [discriminate|].
      injection H1 as <-. cbn. split; [reflexivity|].
      now rewrite lookup_insert_eq.
    + now injection H1 as <-.
Qed.

(** C6, as the code has it.  Within a run of the sequencer, with a clock
    that no interaction sets back, the time stamps of consecutive
    dispatches are at least [RATE_LIMIT_SECONDS] = 2.5 apart, and the first
    one at least that long after the start of the run.  For every task the
    run takes up: when its in_progress update raises, the run ends there,
    with no pause and no dispatch; otherwise the trace of the run holds,
    in this order, the commit of in_progress when the row of the task is in
    the table (the row is then in_progress during the pause) and nothing
    when it is not, the pause of [RATE_LIMIT_SECONDS], and the dispatch, at
    least [RATE_LIMIT_SECONDS] after the update returned. *)
Theorem execute_call_sequence_paced (env : Env) (svc : TwilioService.t)
        (tasks : list CallTask.t) (w : World) :
  causal env ->
  let w' := snd (execute_call_sequence env svc tasks w) in
  (exists evs : list (Q * Event),
      trace w' = (evs ++ trace w)%list
      /\ run_events tasks (List.map snd evs)
      /\ spaced RATE_LIMIT_SECONDS (dispatch_times evs)
      /\ (forall t, In t (dispatch_times evs) ->
                    (clock w + RATE_LIMIT_SECONDS <= t)%Q))
  /\ (forall (i : nat) (task : CallTask.t) (wi : World),
         tasks !! i = Some task ->
         world_at env svc tasks w i = Some wi ->
         let w1 := snd (_update_status env (CallTask.id task) IN_PROGRESS None wi) in
         let wt := snd (process_task env svc task wi) in
         (exists newer : list (Q * Event), trace w' = (newer ++ trace wt)%list)
         /\ match fst (_update_status env (CallTask.id task) IN_PROGRESS None wi) with
            | Raise e =>
                execute_call_sequence env svc tasks w = (Raise e, w1)
                /\ trace w1 = trace wi
            | Ok _ =>
                (exists later : list (Q * Event),
                    trace wt
                    = (later ++ [(clock (paused env w1), dispatch_of task);
                                 (clock (paused env w1), Slept RATE_LIMIT_SECONDS)]
                             ++ trace w1)%list
                    /\ dispatches later = [])
                /\ (clock w1 + RATE_LIMIT_SECONDS <= clock (paused env w1))%Q
                /\ match rows wi !! CallTask.id task with
                   | Some _ =>
                       trace w1
                       = (clock w1, Persisted (CallTask.id task) IN_PROGRESS)
                           :: trace wi
                       /\ CallLog.status <$> rows w1 !! CallTask.id task
                          = Some IN_PROGRESS
                   | None => trace w1 = trace wi /\ rows w1 = rows wi
                   end
            end)
  /\ (RATE_LIMIT_SECONDS == 5 # 2)%Q.
Proof.
  intros Hc. cbv zeta. split; [|split; [|reflexivity]].
  - destruct (execute_call_sequence_events env svc tasks w Hc)
      as (_ & evs & Ht & Hg & Hs & Hp).
    exists evs. split; [exact Ht|]. split; [exact Hg|]. split; [exact Hp|].
    intros t Hin. exact (proj1 (stamped_dispatch_time _ _ _ _ _ Hs Hin)).
  - intros i task wi Hi Hat.
    destruct (world_at_task env svc tasks w i task wi Hi Hat) as (Hnew & Hend).
    split; [exact Hnew|].
    pose proof (process_task_paced env svc task wi) as Hp. cbv zeta in Hp.
    destruct (fst (_update_status env (CallTask.id task) IN_PROGRESS None wi))
      as [[]|e].
    + destruct Hp as (Hlater & Hclk & Hip).
      split; [exact Hlater|]. split; [exact (Hclk Hc)|exact Hip].
    + destruct Hp as (Hrun & Htr). split; [|exact Htr].
      destruct (Hend e) as (Hrun' & _); [now rewrite Hrun|].
      now rewrite Hrun', Hrun.
Qed.

Lemma execute_call_sequence_paced_witness :
  exists evs : list (Q * Event),
    trace (snd (execute_call_sequence Sample.env_ok Sample.svc
                  [Sample.task1; Sample.task2] Sample.two_row_world))
    = (evs ++ trace Sample.two_row_world)%list
    /\ spaced RATE_LIMIT_SECONDS (dispatch_times evs).
Proof.
  destruct (proj1 (execute_call_sequence_paced Sample.env_ok Sample.svc
                     [Sample.task1; Sample.task2] Sample.two_row_world
                     (fun n => Qle_refl 0)))
    as (evs & Ht & _ & Hp & _).
  exists evs. split; [exact Ht|exact Hp].
Defined.

(** The pause does not wait for a persisted in_progress transition.  For a
    task whose row is not in the table the run persists nothing, and
    pauses and dispatches all the same. *)
Lemma pause_without_in_progress :
  List.map snd
    (trace (snd (execute_call_sequence Sample.env_ok Sample.svc [Sample.task1]
                   Sample.empty_world)))
  = [ClientCreate "+15005550001"
       "<Response><Say voice='Polly.Joanna'>hi</Say></Response>" "+15005550006";
     Dispatch "+15005550001" "hi";
     Slept RATE_LIMIT_SECONDS]
  /\ transitions 1%Z
       (trace (snd (execute_call_sequence Sample.env_ok Sample.svc [Sample.task1]
                      Sample.empty_world))) = [].
Proof. split; vm_compute; reflexivity. Qed.

(** ** Errors of one task and the rest of the batch *)

(** A task touches no row but its own. *)
Lemma process_task_frame (env : Env) (svc : TwilioService.t) (task : CallTask.t)
      (w : World) (k : Z) :
  k <> CallTask.id task ->
  rows (snd (process_task env svc task w)) !! k = rows w !! k.
Proof.
  intros Hk.
  destruct (process_task_effect env svc task w)
    as (_ & _ & _ & _ & [(-> & _)|(log & now & _ & [(-> & _)|Hw])]).
  - reflexivity.
  - now apply lookup_insert_ne.
  - destruct Hw as (st & d & e & s & now' & _ & _ & _ & ->).
    now apply lookup_insert_ne.
Qed.

Lemma execute_call_sequence_frame (env : Env) (svc : TwilioService.t)
      (tasks : list CallTask.t) (k : Z) :
  forall w : World,
    ~ In k (List.map CallTask.id tasks) ->
    rows (snd (execute_call_sequence env svc tasks w)) !! k = rows w !! k.
Proof.
  induction tasks as [|task tasks IH]; intros w Hk; [reflexivity|].
  rewrite execute_call_sequence_cons.
  pose proof (process_task_frame env svc task w k) as Hframe.
  cbn [List.map In] in Hk.
  destruct (process_task env svc task w) as [[[]|e] w1]; cbn [fst snd] in *.
  - rewrite IH by tauto. apply Hframe. intros ->. tauto.
  - apply Hframe. intros ->. tauto.
Qed.

(** An update raises exactly the storage error it meets. *)
Lemma update_status_fault (env : Env) (call_id : Z) (st : CallStatus)
      (err : option string) (w : World) :
  fst (_update_status env call_id st err w)
  = match update_fault env call_id w with
    | Some m => Raise (db_error m)
    | None => Ok tt
    end.
Proof.
  rewrite update_status_run. unfold update_fault.
  destruct (db_fault env (steps w)); [reflexivity|].
  destruct (rows w !! call_id); [|reflexivity].
  now destruct (db_fault env (S (steps w))).
Qed.

Lemma finalise_fault (env : Env) (call_id : Z) (result : CallResult.t)
      (w : World) :
  fst (_finalise env call_id result w)
  = match update_fault env call_id w with
    | Some m => Raise (db_error m)
    | None => Ok tt
    end.
Proof.
  rewrite finalise_run. unfold update_fault.
  destruct (db_fault env (steps w)); [reflexivity|].
  destruct (rows w !! call_id); [|reflexivity].
  now destruct (db_fault env (S (steps w))).
Qed.

(** A task raises exactly the first storage error it meets, whatever the
    client does. *)
Lemma process_task_fault (env : Env) (svc : TwilioService.t)
      (task : CallTask.t) (w : World) :
  fst (process_task env svc task w)
  = match task_fault env svc task w with
    | Some m => Raise (db_error m)
    | None => Ok tt
    end.
Proof.
  unfold task_fault.
  pose proof (update_status_fault env (CallTask.id task) IN_PROGRESS None w) as Hf.
  destruct (_update_status env (CallTask.id task) IN_PROGRESS None w)
    as [[[]|e] w1] eqn:H1; cbn [fst] in Hf.
  2:{ rewrite (process_task_abort env svc task w w1 e H1). cbn [fst].
      now destruct (update_fault env (CallTask.id task) w). }
  destruct (update_fault env (CallTask.id task) w); [discriminate|].
  assert (Hd : at_dispatch env task w = paused env w1).
  { unfold at_dispatch. now rewrite (bind_ok _ _ _ _ _ H1). }
  unfold at_settle. rewrite Hd.
  rewrite (process_task_continue env svc task w w1 H1).
  destruct (startswith (CallTask.number task) TWILIO_TEST_PREFIX) eqn:Hgate.
  - rewrite place_call_passed by exact Hgate. cbn [snd]. apply finalise_fault.
  - rewrite place_call_refused by exact Hgate. cbn [snd].
    apply update_status_fault.
Qed.

(** An exception that leaves a run is the storage error of one of the
    tasks the run has taken up. *)
Lemma execute_call_sequence_raise (env : Env) (svc : TwilioService.t)
      (tasks : list CallTask.t) :
  forall (w : World) (e : exn),
    fst (execute_call_sequence env svc tasks w) = Raise e ->
    exists (i : nat) (task : CallTask.t) (wi : World) (m : string),
      tasks !! i = Some task
      /\ world_at env svc tasks w i = Some wi
      /\ task_fault env svc task wi = Some m
      /\ e = db_error m.
Proof.
  induction tasks as [|task tasks IH]; intros w e; [discriminate|].
  rewrite execute_call_sequence_cons.
  pose proof (process_task_fault env svc task w) as Hf.
  destruct (process_task env svc task w) as [[[]|e1] w1] eqn:Hrun;
    cbn [fst snd] in *.
  - intros He. destruct (IH w1 e He) as (i & t & wi & m & Hi & Hat & Hm & ->).
    exists (S i), t, wi, m. cbn [world_at]. rewrite Hrun. auto.
  - intros He. injection He as <-.
    destruct (task_fault env svc task w) as [m|] eqn:Hm; [|discriminate].
    injection Hf as ->. now exists 0%nat, task, w, m.
Qed.

(** C7, as the code has it.  The sequencer contains the errors of the
    transport, not those of the storage engine.  With a storage engine
    that answers, and whatever the client does (it may raise any exception
    at any call), the run returns normally, the transport is invoked once
    for every task, in the order of the tasks, and the row of every task
    that is still in the table at the end is in a terminal state.  With
    any storage engine: a task the run takes up raises exactly the first
    storage error it meets, in its in_progress update or in the update
    that settles it; the run then ends with this exception, in the state
    the task left, and takes up no further task; and no other exception
    ever leaves a run. *)
Theorem execute_call_sequence_contains_transport_errors
        (env : Env) (svc : TwilioService.t) (tasks : list CallTask.t) :
  forall w : World,
    let w' := snd (execute_call_sequence env svc tasks w) in
    (reliable env ->
     contains_errors env svc tasks w
     /\ (exists evs : list (Q * Event),
            trace w' = (evs ++ trace w)%list
            /\ List.map snd (dispatches evs) = rev (List.map dispatch_of tasks))
     /\ (forall task log,
            In task tasks ->
            rows w' !! CallTask.id task = Some log ->
            is_terminal (CallLog.status log) = true))
    /\ (forall (i : nat) (task : CallTask.t) (wi : World),
           tasks !! i = Some task ->
           world_at env svc tasks w i = Some wi ->
           match task_fault env svc task wi with
           | Some m =>
               execute_call_sequence env svc tasks w
               = (Raise (db_error m), snd (process_task env svc task wi))
               /\ world_at env svc tasks w (S i) = None
           | None => fst (process_task env svc task wi) = Ok tt
           end)
    /\ (forall e,
           fst (execute_call_sequence env svc tasks w) = Raise e ->
           exists (i : nat) (task : CallTask.t) (wi : World) (m : string),
             tasks !! i = Some task
             /\ world_at env svc tasks w i = Some wi
             /\ task_fault env svc task wi = Some m
             /\ e = db_error m).
Proof.
  intros w. cbv zeta. split; [|split].
  2:{ intros i task wi Hi Hat.
      pose proof (process_task_fault env svc task wi) as Hf.
      destruct (task_fault env svc task wi) as [m|]; [|exact Hf].
      exact (proj2 (world_at_task env svc tasks w i task wi Hi Hat) _ Hf). }
  2:{ apply execute_call_sequence_raise. }
  revert w. unfold contains_errors.
  induction tasks as [|task tasks IH]; intros w Hrel.
  - cbn. split; [reflexivity|]. split; [now exists []|]. intros ? ? [].
  - rewrite execute_call_sequence_cons.
    pose proof (execute_call_sequence_frame env svc tasks (CallTask.id task))
      as Hframe.
    destruct (process_task_effect env svc task w)
      as (_ & Hok & _ & (e1 & Ht1 & _ & _ & Hd1 & _) & Hrows).
    specialize (Hok Hrel).
    destruct (process_task env svc task w) as [r w1]; cbn [fst snd] in *.
    subst r. specialize (Hd1 eq_refl).
    destruct (IH w1 Hrel) as (Hrun & (e2 & Ht2 & Hd2) & Hterm).
    split; [exact Hrun|]. split.
    + exists (e2 ++ e1)%list. split; [rewrite Ht2, Ht1; now rewrite app_assoc|].
      unfold dispatches in *. rewrite List.filter_app, List.map_app, Hd2, Hd1.
      reflexivity.
    + intros task' log [<-|Hin] Hrow; [|now apply (Hterm task' log)].
      destruct (in_dec Z.eq_dec (CallTask.id task) (List.map CallTask.id tasks))
        as [Hdup|Hfresh].
      * apply in_map_iff in Hdup. destruct Hdup as (task' & Hid & Hin').
        apply (Hterm task' log Hin'). now rewrite Hid.
      * rewrite (Hframe w1 Hfresh) in Hrow.
        destruct Hrows as [(Hsame & Hnone)
                          |(log0 & now & Hrow0 & [(_ & Hbad)|Hw])].
        -- rewrite Hsame, (Hnone eq_refl) in Hrow. discriminate.
        -- now destruct Hbad.
        -- destruct Hw as (st & d & e & s & now' & _ & Hst & _ & Hw).
           rewrite Hw, lookup_insert_eq in Hrow. injection Hrow as <-.
           exact Hst.
Qed.

Lemma execute_call_sequence_contains_transport_errors_witness :
  contains_errors Sample.env_ok Sample.svc [Sample.task1; Sample.task2]
    Sample.two_row_world.
Proof.
  apply (proj1 (proj1 (execute_call_sequence_contains_transport_errors
                         Sample.env_ok Sample.svc [Sample.task1; Sample.task2]
                         Sample.two_row_world) (fun n => eq_refl))).
Defined.

(** A storage failure leaves the run.  With the lookup of [_finalise]
    failing for the first of two tasks (interaction 4), the exception
    propagates, the first row stays in_progress although its call was
    placed, and the second task is never visited. *)
Lemma storage_error_aborts_the_batch :
  ~ contains_errors (Sample.env_fault_at 4) Sample.svc
      [Sample.task1; Sample.task2] Sample.two_row_world
  /\ CallLog.status
       <$> rows (snd (execute_call_sequence (Sample.env_fault_at 4) Sample.svc
                        [Sample.task1; Sample.task2] Sample.two_row_world))
           !! 1%Z = Some IN_PROGRESS
  /\ CallLog.status
       <$> rows (snd (execute_call_sequence (Sample.env_fault_at 4) Sample.svc
                        [Sample.task1; Sample.task2] Sample.two_row_world))
           !! 2%Z = Some QUEUED.
Proof.
  split; [|split].
  - unfold contains_errors. vm_compute. discriminate.
  - vm_compute. reflexivity.
  - vm_compute. reflexivity.
Qed.

(** ** The invariant of the data model *)




Lemma new_tasks_In (numbers : list string) (msg : string) :
  forall (nid : Z) (task : CallTask.t),
    In task (new_tasks numbers msg nid) ->
    exists (i : nat) (num : string),
      numbers !! i = Some num /\ CallTask.id task = (nid + Z.of_nat i)%Z.
Proof.
  induction numbers as [|num numbers IH]; intros nid task Hin; [destruct Hin|].
  destruct Hin as [<-|Hin].
  - exists 0%nat, num. split; [reflexivity|]. cbn. lia.
  - destruct (IH _ _ Hin) as (i & num' & Hi & Hid).
    exists (S i), num'. split; [exact Hi|]. lia.
Qed.

Lemma new_tasks_NoDup (numbers : list string) (msg : string) :
  forall nid : Z, NoDup (List.map CallTask.id (new_tasks numbers msg nid)).
Proof.
  induction numbers as [|num numbers IH]; intros nid; cbn; constructor.
  - rewrite list_elem_of_In, in_map_iff. intros (task & Hid & Hin).
    destruct (new_tasks_In _ _ _ _ Hin) as (i & _ & _ & Hi). cbn in Hid. lia.
  - apply IH.
Qed.

(** The two ways [enqueue_calls] ends, whatever the engine does. *)
Lemma enqueue_calls_cases (env : Env) (numbers : list string) (msg : string)
      (w : World) :
  (exists w',
      enqueue_calls env numbers msg w = (Ok (new_tasks numbers msg (next_id w)), w')
      /\ next_id w' = (next_id w + Z.of_nat (length numbers))%Z
      /\ (forall (i : nat) (num : string),
             numbers !! i = Some num ->
             exists now,
               rows w' !! (next_id w + Z.of_nat i)%Z
               = Some (queued_log (next_id w + Z.of_nat i) num msg now))
      /\ (forall k : Z,
             (k < next_id w \/ next_id w + Z.of_nat (length numbers) <= k)%Z ->
             rows w' !! k = rows w !! k))
  \/ (exists m w',
         enqueue_calls env numbers msg w = (Raise (db_error m), w')
         /\ rows w' = rows w /\ next_id w' = next_id w).
Proof.
  destruct (faultless_or_fault env (steps w) (S (length numbers)))
    as [Hok|(k & Hk & Hf)].
  - left. rewrite (enqueue_calls_ok env numbers msg w Hok).
    eexists. split; [reflexivity|].
    destruct (write_rows_run (new_rows env numbers msg (next_id w) w)
                (advance env 0 (advance_n env (length numbers) w)))
      as (_ & Hrows & _).
    destruct (advance_n_fields env (length numbers) w) as (Hr & _).
    cbn [rows set_next_id next_id]. rewrite Hrows.
    change (rows (advance env 0 (advance_n env (length numbers) w)))
      with (rows (advance_n env (length numbers) w)).
    rewrite Hr. split; [reflexivity|]. split.
    + intros i num Hi. now apply new_rows_lookup_inside.
    + intros k' Hk'. now apply new_rows_lookup_outside.
  - right. apply (enqueue_calls_fault env numbers msg w k); [lia|exact Hf].
Qed.



Lemma foldr_max_above (l : list Z) (k : Z) :
  In k l -> (k <= foldr Z.max 0%Z l)%Z.
Proof.
  induction l as [|a l IH]; intros Hin; [destruct Hin|].
  cbn [foldr]. destruct Hin as [->|Hin]; [lia|]. specialize (IH Hin). lia.
Qed.

Lemma foldr_max_attained (l : list Z) :
  foldr Z.max 0%Z l = 0%Z \/ In (foldr Z.max 0%Z l) l.
Proof.
  induction l as [|a l IH]; [now left|]. cbn [foldr].
  destruct (Z.max_spec a (foldr Z.max 0%Z l)) as [(_ & ->)|(_ & ->)].
  - destruct IH as [IH|IH]; [now left|right; now right].
  - right. now left.
Qed.

(** The next key is above every key in use. *)
Lemma next_key_above (table : gmap Z CallLog.t) (k : Z) (log : CallLog.t) :
  table !! k = Some log -> (k < next_key table)%Z.
Proof.
  intros Hrow. apply elem_of_map_to_list, list_elem_of_In in Hrow.
  pose proof (foldr_max_above (List.map fst (map_to_list table)) k
                (in_map fst _ _ Hrow)).
  unfold next_key. lia.
Qed.

(** The next key is 1 or follows a key in use. *)
Lemma next_key_attained (table : gmap Z CallLog.t) :
  (1 <= next_key table)%Z
  /\ (next_key table = 1%Z \/ is_Some (table !! (next_key table - 1)%Z)).
Proof.
  unfold next_key.
  pose proof (foldr_max_above (List.map fst (map_to_list table))) as Habove.
  destruct (foldr_max_attained (List.map fst (map_to_list table))) as [H0|Hin].
  - rewrite H0. split; [lia|now left].
  - split.
    + assert (0 <= foldr Z.max 0%Z (List.map fst (map_to_list table)))%Z as Hpos; [|lia].
      clear. induction (List.map fst (map_to_list table)); cbn; lia.
    + right. apply in_map_iff in Hin. destruct Hin as ((k & log) & Hk & Hin).
      cbn [fst] in Hk.
      apply list_elem_of_In, elem_of_map_to_list in Hin.
      exists log.
      replace (foldr Z.max 0%Z (List.map fst (map_to_list table)) + 1 - 1)%Z
        with k by lia.
      exact Hin.
Qed.





Lemma next_key_unique (table : gmap Z CallLog.t) (n : Z) :
  (1 <= n)%Z ->
  (forall k log, table !! k = Some log -> (k < n)%Z) ->
  n = 1%Z \/ is_Some (table !! (n - 1)%Z) ->
  next_key table = n.
Proof.
  intros Hpos Habove Hatt.
  destruct (next_key_attained table) as (Hpos' & Hatt').
  assert (next_key table <= n)%Z.
  { destruct Hatt' as [->|(log & Hrow)]; [lia|].
    specialize (Habove _ _ Hrow). lia. }
  assert (n <= next_key table)%Z.
  { destruct Hatt as [->|(log & Hrow)]; [lia|].
    pose proof (next_key_above _ _ _ Hrow). lia. }
  lia.
Qed.

(** In every state the system reaches, the key the table hands out next is
    the greatest key in use plus one. *)
Lemma reachable_next_key (env : Env) (svc : TwilioService.t) (s : Sys) :
  reachable env svc s -> next_id (world s) = next_key (rows (world s)).
Proof.
  induction 1 as [w Hrows Hnext|s s' _ IH Hstep|s s' _ IH Hstep].
  - cbn. rewrite Hrows, Hnext. unfold next_key. now rewrite map_to_list_empty.
  - symmetry.
    assert (Htask : forall task w',
               w' = snd (process_task env svc task (world s)) ->
               next_key (rows w') = next_id w').
    { intros task w' ->.
      destruct (process_task_effect env svc task (world s))
        as (Hnext & _ & _ & _ & Hrows).
      rewrite Hnext, IH.
      destruct (next_key_attained (rows (world s))) as (Hpos & Hatt).
      assert (Hkeys : forall k,
                 is_Some (rows (snd (process_task env svc task (world s))) !! k)
                 <-> is_Some (rows (world s) !! k)).
      { intros k.
        destruct Hrows as [(-> & _)|(log & now & Hrow & [(-> & _)|Hw])];
          [reflexivity| |].
        - destruct (Z.eq_dec k (CallTask.id task)) as [->|Hne].
          + rewrite lookup_insert_eq, Hrow. split; eauto.
          + now rewrite lookup_insert_ne.
        - destruct Hw as (st & d & e & s0 & now' & _ & _ & _ & ->).
          destruct (Z.eq_dec k (CallTask.id task)) as [->|Hne].
          + rewrite lookup_insert_eq, Hrow. split; eauto.
          + now rewrite lookup_insert_ne. }
      apply next_key_unique; [exact Hpos| |].
      - intros k log Hrow.
        destruct (proj1 (Hkeys k) (ex_intro _ log Hrow)) as (log0 & Hrow0).
        exact (next_key_above _ _ _ Hrow0).
      - destruct Hatt as [->|Hsome]; [now left|right]. now apply Hkeys. }
    destruct Hstep as [s numbers msg tasks w' Hrun
                      |s numbers msg e w' Hrun
                      |s before after task rest w' Hruns Hrun
                      |s before after task rest e w' Hruns Hrun]; cbn [world].
    + destruct (enqueue_calls_cases env numbers msg (world s))
        as [(w'' & Heq & Hnext & Hin & Hout)|(m & w'' & Heq & _)];
        rewrite Heq in Hrun; [|discriminate].
      injection Hrun as _ <-. rewrite Hnext.
      destruct (next_key_attained (rows (world s))) as (Hpos & Hatt).
      rewrite <- IH in Hpos, Hatt.
      apply next_key_unique; [lia| |].
      * intros k log Hrow.
        destruct (Z_lt_dec k (next_id (world s) + Z.of_nat (length numbers)))
          as [Hlt|Hge]; [exact Hlt|].
        rewrite Hout in Hrow by lia.
        pose proof (next_key_above _ _ _ Hrow). lia.
      * destruct numbers as [|num numbers].
        -- cbn [length]. rewrite Z.add_0_r.
           destruct Hatt as [->|(log & Hrow)]; [now left|right].
           exists log. rewrite Hout by lia. exact Hrow.
        -- right.
           destruct (lookup_lt_is_Some_2 (num :: numbers) (length numbers))
             as (num' & Hnum); [cbn; lia|].
           destruct (Hin _ _ Hnum) as (now & Hrow). eexists.
           replace (next_id (world s) + Z.of_nat (length (num :: numbers)) - 1)%Z
             with (next_id (world s) + Z.of_nat (length numbers))%Z
             by (cbn [length]; lia).
           exact Hrow.
    + destruct (enqueue_calls_cases env numbers msg (world s))
        as [(w'' & Heq & _)|(m & w'' & Heq & Hrows & Hnext)];
        rewrite Heq in Hrun; [discriminate|].
      injection Hrun as _ <-. now rewrite Hrows, Hnext, IH.
    + apply (Htask task). now rewrite Hrun.
    + apply (Htask task). now rewrite Hrun.
  - destruct Hstep as [s key]. reflexivity.
Qed.

(** An undisturbed state is a state the system reaches. *)
Lemma undisturbed_reachable (env : Env) (svc : TwilioService.t) (s : Sys) :
  undisturbed env svc s -> reachable env svc s.
Proof.
  induction 1 as [w Hrows Hnext|s s' _ IH Hstep|s s' _ IH Hstep _].
  - now apply reach_init.
  - exact (reach_core env svc s s' IH Hstep).
  - exact (reach_outside env svc s s' IH Hstep).
Qed.







(** ** The matcher against the meaning of the patterns *)

Lemma string_app_cons (x : ascii) (a b : string) :
  String x a ++ b = String x (a ++ b).
Proof. reflexivity. Qed.

Lemma string_app_nil_l (a : string) : EmptyString ++ a = a.
Proof. reflexivity. Qed.

Lemma string_app_assoc (a b c : string) : (a ++ b) ++ c = a ++ (b ++ c).
Proof.
  induction a as [|x a IH]; [reflexivity|].
  rewrite !string_app_cons. now rewrite IH.
Qed.

Lemma string_app_nil_r (a : string) : a ++ EmptyString = a.
Proof.
  induction a as [|x a IH]; [reflexivity|].
  rewrite string_app_cons. now rewrite IH.
Qed.

Lemma string_length_app (a b : string) :
  String.length (a ++ b) = (String.length a + String.length b)%nat.
Proof.
  induction a as [|x a IH]; [reflexivity|].
  rewrite string_app_cons. cbn [String.length]. now rewrite IH.
Qed.

Lemma star_range_sound {R} (lo hi : ascii) (s : string) (k : string -> option R)
      (x : R) :
  Re.star_range lo hi s k = Some x ->
  exists run s', all_in lo hi run = true /\ s = run ++ s' /\ k s' = Some x.
Proof.
  induction s as [|a s IH]; cbn [Re.star_range].
  - intros H. now exists EmptyString, EmptyString.
  - destruct (Re.in_range lo hi a) eqn:Ha.
    + destruct (Re.star_range lo hi s k) as [y|] eqn:Hs.
      * intros [= ->]. destruct (IH eq_refl) as (run & s' & Hrun & -> & Hk).
        exists (String a run), s'. cbn [all_in]. rewrite Ha, Hrun. auto.
      * intros H. now exists EmptyString, (String a s).
    + intros H. now exists EmptyString, (String a s).
Qed.

Lemma star_range_complete {R} (lo hi : ascii) (run s' : string)
      (k : string -> option R) :
  all_in lo hi run = true -> k s' <> None ->
  Re.star_range lo hi (run ++ s') k <> None.
Proof.
  induction run as [|a run IH]; cbn [all_in];
    rewrite ?string_app_nil_l, ?string_app_cons.
  - intros _ Hk. destruct s' as [|b s']; cbn [Re.star_range]; [exact Hk|].
    destruct (Re.in_range lo hi b); [|exact Hk].
    destruct (Re.star_range lo hi s' k); [discriminate|exact Hk].
  - intros Hall Hk. apply andb_true_iff in Hall. destruct Hall as (Ha & Hall).
    cbn [Re.star_range]. rewrite Ha.
    specialize (IH Hall Hk).
    destruct (Re.star_range lo hi (run ++ s') k); [discriminate|contradiction].
Qed.

(** What the matcher finds is a match. *)
Lemma rmatch_sound {R} (r : Re.regex) :
  forall (s : string) (cap : option string)
         (k : string -> option string -> option R) (x : R),
    Re.rmatch r s cap k = Some x ->
    exists s' cap', lang r s s' /\ k s' cap' = Some x.
Proof.
  induction r as [|c|lo hi|r1 IH1 r2 IH2|r1 IH1 r2 IH2|r1 IH1|lo hi|r1 IH1|];
    intros s cap k x; cbn [Re.rmatch lang].
  - intros H. now exists s, cap.
  - destruct s as [|a s]; [discriminate|].
    destruct (Ascii.eqb_spec a c) as [->|]; [|discriminate].
    intros H. now exists s, cap.
  - destruct s as [|a s]; [discriminate|].
    destruct (Re.in_range lo hi a) eqn:Ha; [|discriminate].
    intros H. exists s, cap. split; [now exists a|exact H].
  - intros H. destruct (IH1 _ _ _ _ H) as (m & cap1 & H1 & H').
    destruct (IH2 _ _ _ _ H') as (s' & cap' & H2 & Hk).
    exists s', cap'. split; [now exists m|exact Hk].
  - destruct (Re.rmatch r1 s cap k) as [y|] eqn:H1.
    + intros [= ->]. destruct (IH1 _ _ _ _ H1) as (s' & cap' & Hl & Hk).
      exists s', cap'. auto.
    + intros H. destruct (IH2 _ _ _ _ H) as (s' & cap' & Hl & Hk).
      exists s', cap'. auto.
  - destruct (Re.rmatch r1 s cap k) as [y|] eqn:H1.
    + intros [= ->]. destruct (IH1 _ _ _ _ H1) as (s' & cap' & Hl & Hk).
      exists s', cap'. auto.
    + intros H. exists s, cap. auto.
  - intros H. destruct (star_range_sound _ _ _ _ _ H) as (run & s' & Hr & -> & Hk).
    exists s', cap. split; [now exists run|exact Hk].
  - intros H. destruct (IH1 _ _ _ _ H) as (s' & cap' & Hl & Hk).
    eexists s', _. split; [exact Hl|exact Hk].
  - destruct s as [|a [|b s]].
    + intros H. exists EmptyString, cap. auto.
    + destruct (Ascii.eqb_spec a "010"%char) as [->|]; [|discriminate].
      intros H. exists (String "010" EmptyString), cap. auto.
    + discriminate.
Qed.

(** Where there is a match the matcher finds one. *)
Lemma rmatch_complete {R} (r : Re.regex) :
  forall (s s' : string) (cap : option string)
         (k : string -> option string -> option R),
    lang r s s' ->
    (forall cap', k s' cap' <> None) ->
    Re.rmatch r s cap k <> None.
Proof.
  induction r as [|c|lo hi|r1 IH1 r2 IH2|r1 IH1 r2 IH2|r1 IH1|lo hi|r1 IH1|];
    intros s s' cap k; cbn [Re.rmatch lang].
  - intros -> Hk. apply Hk.
  - intros -> Hk. rewrite Ascii.eqb_refl. apply Hk.
  - intros (a & Ha & ->) Hk. rewrite Ha. apply Hk.
  - intros (m & H1 & H2) Hk.
    apply (IH1 s m); [exact H1|].
    intros cap'. now apply (IH2 m s').
  - intros [H1|H2] Hk.
    + specialize (IH1 s s' cap k H1 Hk).
      destruct (Re.rmatch r1 s cap k); [discriminate|contradiction].
    + destruct (Re.rmatch r1 s cap k); [discriminate|].
      now apply (IH2 s s').
  - intros [H1| ->] Hk.
    + specialize (IH1 s s' cap k H1 Hk).
      destruct (Re.rmatch r1 s cap k); [discriminate|contradiction].
    + destruct (Re.rmatch r1 s cap k); [discriminate|apply Hk].
  - intros (run & Hrun & ->) Hk. now apply star_range_complete.
  - intros H1 Hk. apply (IH1 s s'); [exact H1|]. intros cap'. apply Hk.
  - intros (-> & [-> | ->]) Hk; [apply Hk|].
    cbn. apply Hk.
Qed.

(** [pattern.match(s)] succeeds exactly on the strings with a prefix in the
    language of the pattern. *)
Lemma re_match_spec (r : Re.regex) (s : string) :
  is_Some (Re.re_match r s) <-> exists s', lang r s s'.
Proof.
  unfold Re.re_match. split.
  - intros [m Hm]. destruct (rmatch_sound r _ _ _ _ Hm) as (s' & _ & Hl & _).
    now exists s'.
  - intros (s' & Hl).
    pose proof (rmatch_complete r s s' None
                  (fun s0 cap => Some {| Re.rest := s0; Re.group1 := cap |}) Hl)
      as H.
    destruct (Re.rmatch r s None _) as [m|]; [now exists m|].
    exfalso. apply H; [discriminate|reflexivity].
Qed.

Lemma lang_lit (p s s' : string) : lang (Re.lit p) s s' <-> s = p ++ s'.
Proof.
  revert s. induction p as [|c p IH]; intros s; cbn [Re.lit lang].
  - rewrite string_app_nil_l. split; congruence.
  - rewrite string_app_cons. split.
    + intros (m & -> & Hm). apply IH in Hm. now subst.
    + intros ->. exists (p ++ s'). split; [reflexivity|now apply IH].
Qed.

Lemma lang_times_range (n : nat) (lo hi : ascii) (s s' : string) :
  lang (Re.times n (Re.Range lo hi)) s s'
  <-> exists ds, String.length ds = n /\ all_in lo hi ds = true /\ s = ds ++ s'.
Proof.
  revert s. induction n as [|n IH]; intros s; cbn [Re.times lang].
  - split.
    + intros ->. now exists EmptyString.
    + intros (ds & Hlen & _ & ->). destruct ds; [reflexivity|discriminate].
  - split.
    + intros (m & (a & Ha & ->) & Hm). apply IH in Hm.
      destruct Hm as (ds & Hlen & Hall & ->).
      exists (String a ds). cbn [String.length all_in]. rewrite Ha, Hall, Hlen.
      auto.
    + intros (ds & Hlen & Hall & ->). destruct ds as [|a ds]; [discriminate|].
      cbn [String.length all_in] in *. apply andb_true_iff in Hall.
      destruct Hall as (Ha & Hall). injection Hlen as Hlen.
      exists (ds ++ s'). split; [now exists a|].
      apply IH. now exists ds.
Qed.

(** [INDIAN_NUMBER_REGEX] matches the strings it is written for, and only
    those. *)
Lemma indian_regex_shape (s : string) :
  is_Some (Re.re_match INDIAN_NUMBER_REGEX s) <-> indian_shape s.
Proof.
  rewrite re_match_spec. unfold INDIAN_NUMBER_REGEX, indian_shape.
  cbn [lang]. split.
  - intros (s' & m & Hpre & m2 & (m3 & (d & Hd & ->) & Hds) & -> & Hnl).
    apply lang_times_range in Hds. destruct Hds as (ds & Hlen & Hall & ->).
    destruct Hpre as [[Hp|Hp]|Hp].
    + apply lang_lit in Hp. exists "+91", d, ds, m2. subst s. auto 10.
    + exists "0", d, ds, m2. subst s. auto 10.
    + exists EmptyString, d, ds, m2. subst s. auto 10.
  - intros (pre & d & ds & nl & -> & Hpre & Hd & Hlen & Hall & Hnl).
    exists nl, (String d ds ++ nl). split.
    + destruct Hpre as [-> | [-> | ->]].
      * left. left. now apply lang_lit.
      * left. now right.
      * now right.
    + exists nl. split; [|now split].
      exists (ds ++ nl). split; [now exists d|].
      apply lang_times_range. now exists ds.
Qed.

Example indian_shape_example : indian_shape "09876543210".
Proof. apply indian_regex_shape. vm_compute. eauto. Qed.

(** ** [strip_ansi] *)

Lemma ansi_no_match (a : ascii) (s : string) :
  Ascii.eqb a ESC = false ->
  Re.re_match ANSI_ESCAPE_REGEX (String a s) = None.
Proof.
  intros H. unfold Re.re_match, ANSI_ESCAPE_REGEX. cbn [Re.rmatch].
  now rewrite H.
Qed.

(** The three classes of the pattern are disjoint. *)
Lemma ansi_classes_disjoint (b : ascii) :
  (Re.in_range " " "/" b = true -> Re.in_range "0" "?" b = false)
  /\ (Re.in_range "@" "~" b = true -> Re.in_range "0" "?" b = false)
  /\ (Re.in_range "@" "~" b = true -> Re.in_range " " "/" b = false).
Proof.
  unfold Re.in_range.
  rewrite !andb_true_iff, !andb_false_iff, !N.leb_le, !N.leb_gt.
  change (N_of_ascii " ") with 32%N. change (N_of_ascii "/") with 47%N.
  change (N_of_ascii "0") with 48%N. change (N_of_ascii "?") with 63%N.
  change (N_of_ascii "@") with 64%N. change (N_of_ascii "~") with 126%N.
  lia.
Qed.

(** A greedy star over a run that ends where the class ends takes the
    run, when what follows can be matched. *)
Lemma star_range_run {R} (lo hi : ascii) (run tail : string)
      (k : string -> option R) (x : R) :
  all_in lo hi run = true ->
  match tail with
  | EmptyString => True
  | String b _ => Re.in_range lo hi b = false
  end ->
  k tail = Some x ->
  Re.star_range lo hi (run ++ tail) k = Some x.
Proof.
  intros Hall Hstop Hk. induction run as [|a run IH].
  - rewrite string_app_nil_l. destruct tail as [|b tail]; cbn [Re.star_range].
    + exact Hk.
    + now rewrite Hstop.
  - cbn [all_in] in Hall. apply andb_true_iff in Hall. destruct Hall as (Ha & Hall).
    rewrite string_app_cons. cbn [Re.star_range]. rewrite Ha.
    now rewrite (IH Hall).
Qed.

Lemma head_of_app (P : ascii -> Prop) (a b : string) :
  match a with EmptyString => True | String c _ => P c end ->
  match b with EmptyString => True | String c _ => P c end ->
  match a ++ b with EmptyString => True | String c _ => P c end.
Proof. destruct a as [|c a]; [now rewrite string_app_nil_l|auto]. Qed.

Lemma all_in_head (lo hi : ascii) (P : ascii -> Prop) (s : string) :
  (forall c, Re.in_range lo hi c = true -> P c) ->
  all_in lo hi s = true ->
  match s with EmptyString => True | String c _ => P c end.
Proof.
  intros HP. destruct s as [|c s]; [auto|].
  cbn [all_in]. intros H. apply andb_true_iff in H. apply HP, H.
Qed.

(** The pattern matches a control sequence at the head of a string, whole. *)
Lemma ansi_match_csi (csi tail : string) :
  csi_sequence csi ->
  Re.re_match ANSI_ESCAPE_REGEX (csi ++ tail)
  = Some {| Re.rest := tail; Re.group1 := None |}.
Proof.
  intros (params & inters & final & -> & Hp & Hi & Hf).
  unfold Re.re_match, ANSI_ESCAPE_REGEX.
  rewrite !string_app_cons. cbn [Re.rmatch].
  rewrite !Ascii.eqb_refl.
  rewrite !string_app_assoc, string_app_cons, string_app_nil_l.
  apply star_range_run; [exact Hp| |].
  - apply (head_of_app (fun c => Re.in_range "0" "?" c = false)).
    + apply (all_in_head " " "/"); [|exact Hi].
      intros c. apply ansi_classes_disjoint.
    + now apply ansi_classes_disjoint.
  - apply star_range_run; [exact Hi| |].
    + now apply ansi_classes_disjoint.
    + now rewrite Hf.
Qed.

Lemma sub_scan_skip (r : Re.regex) (x y : string) :
  Re.sub_scan r (String.length x) (x ++ y) = Re.sub_scan r 0 y.
Proof.
  induction x as [|a x IH]; [reflexivity|].
  rewrite string_app_cons. cbn [String.length Re.sub_scan]. exact IH.
Qed.

Lemma sub_scan_plain (plain s : string) :
  esc_free plain = true ->
  Re.sub_scan ANSI_ESCAPE_REGEX 0 (plain ++ s)
  = plain ++ Re.sub_scan ANSI_ESCAPE_REGEX 0 s.
Proof.
  induction plain as [|a plain IH]; [reflexivity|].
  cbn [esc_free]. intros H. apply andb_true_iff in H. destruct H as (Ha & H).
  apply negb_true_iff in Ha.
  rewrite !string_app_cons. cbn [Re.sub_scan].
  rewrite (ansi_no_match a _ Ha). now rewrite (IH H).
Qed.

(** [strip_ansi] keeps a text without ESC as it is. *)
Lemma strip_ansi_plain (text : string) :
  esc_free text = true -> strip_ansi (Some text) = Some text.
Proof.
  intros H. unfold strip_ansi, Re.sub_empty.
  destruct text as [|a text]; [reflexivity|].
  rewrite <- (string_app_nil_r (String a text)) at 1.
  rewrite (sub_scan_plain _ EmptyString H). cbn [Re.sub_scan].
  now rewrite string_app_nil_r.
Qed.

(** [strip_ansi] takes a control sequence out, whole, and goes on after
    it. *)
Lemma strip_ansi_removes_csi (plain csi tail : string) :
  esc_free plain = true -> csi_sequence csi ->
  Re.sub_empty ANSI_ESCAPE_REGEX (plain ++ csi ++ tail)
  = plain ++ Re.sub_empty ANSI_ESCAPE_REGEX tail.
Proof.
  intros Hplain Hcsi. unfold Re.sub_empty. rewrite (sub_scan_plain _ _ Hplain).
  f_equal. pose proof (ansi_match_csi csi tail Hcsi) as Hm.
  destruct Hcsi as (params & inters & final & Hcsi & _).
  destruct csi as [|a body]; [discriminate Hcsi|].
  rewrite string_app_cons in *. cbn [Re.sub_scan]. rewrite Hm. cbn [Re.rest].
  cbn [String.length]. rewrite string_length_app.
  replace (S (String.length body + String.length tail) - String.length tail)%nat
    with (S (String.length body)) by lia.
  apply sub_scan_skip.
Qed.

Lemma strip_ansi_is_some (text : string) :
  exists t, strip_ansi (Some text) = Some t.
Proof. destruct text; cbn; eauto. Qed.

(** [strip_ansi] takes every control sequence out of a text in which the
    stretches between the sequences hold no ESC. *)
Lemma strip_ansi_segments (segments : list (string * string)) (last : string) :
  List.Forall (fun seg => esc_free (fst seg) = true /\ csi_sequence (snd seg))
              segments ->
  esc_free last = true ->
  strip_ansi (Some (coloured segments last)) = Some (plain_text segments last).
Proof.
  intros Hsegs Hlast.
  assert (Hsome : forall text,
             strip_ansi (Some text) = Some (Re.sub_empty ANSI_ESCAPE_REGEX text))
    by (intros text; now destruct text).
  rewrite Hsome. f_equal.
  induction Hsegs as [|[text csi] segments (Ht & Hc) _ IH].
  - pose proof (strip_ansi_plain last Hlast) as H. rewrite Hsome in H.
    now injection H.
  - cbn [coloured plain_text fst snd] in *.
    rewrite (strip_ansi_removes_csi text csi _ Ht Hc). now rewrite IH.
Qed.

(** C9, as the code has it.  When the client fails for a task whose row
    exists, with a storage engine that answers, the row ends failed and its
    error detail is [strip_ansi] of the failure text: the text of the
    exception of the service, or [Unexpected error: ] and the text of any
    other exception, from which one pass has taken the ANSI control
    sequences out.  When the text is made of stretches without ESC and of
    control sequences between them, the error detail is the stretches
    alone: every sequence is gone and the rest is as it was.  Other
    control characters stay: a text without ESC is stored as it is.  The
    error detail is never longer than the failure text. *)
Theorem failed_call_error_detail (env : Env) (svc : TwilioService.t)
        (task : CallTask.t) (w : World) (log : CallLog.t) (exc : exn) :
  reliable env ->
  rows w !! CallTask.id task = Some log ->
  startswith (CallTask.number task) TWILIO_TEST_PREFIX = true ->
  TwilioService.calls_create svc (steps (at_dispatch env task w))
    (TwilioService.twiml_of (CallTask.message task)) (CallTask.number task)
    (TwilioService.from_number svc) = Failed exc ->
  exists log',
    rows (snd (process_task env svc task w)) !! CallTask.id task = Some log'
    /\ CallLog.status log' = FAILED
    /\ CallLog.error log' = strip_ansi (Some (failure_text exc))
    /\ (esc_free (failure_text exc) = true ->
        CallLog.error log' = Some (failure_text exc))
    /\ (forall (segments : list (string * string)) (last : string),
           List.Forall (fun seg => esc_free (fst seg) = true
                                   /\ csi_sequence (snd seg)) segments ->
           esc_free last = true ->
           failure_text exc = coloured segments last ->
           CallLog.error log' = Some (plain_text segments last))
    /\ (exists detail,
           CallLog.error log' = Some detail
           /\ (String.length detail <= String.length (failure_text exc))%nat).
Proof.
  intros Hrel Hrow Hgate Hclient.
  pose proof (update_status_present env (CallTask.id task) IN_PROGRESS None w log
                (Hrel _) (Hrel _) Hrow) as H1.
  unfold at_dispatch in Hclient.
  rewrite (before_dispatch_present env task w log Hrel Hrow) in Hclient.
  cbn [snd] in Hclient.
  rewrite (process_task_continue env svc task w _ H1), Hgate.
  unfold paused. rewrite Hclient.
  set (w3 := observe (ClientCreate _ _ _) _).
  assert (Hrow3 : rows w3 !! CallTask.id task
                  = Some (CallLog.mark log IN_PROGRESS None None None
                            (clock (advance env 0 w))))
    by apply lookup_insert_eq.
  rewrite (finalise_present env _ _ w3 _ (Hrel _) (Hrel _) Hrow3).
  cbn [snd]. eexists. split; [apply lookup_insert_eq|].
  assert (Herr : CallResult.error (TwilioService.result_of (Failed exc))
                 = strip_ansi (Some (failure_text exc))).
  { unfold failure_text. cbn [TwilioService.result_of].
    now destruct (is_TwilioRestException exc). }
  assert (Hfail : CallResult.success (TwilioService.result_of (Failed exc)) = false).
  { cbn [TwilioService.result_of]. now destruct (is_TwilioRestException exc). }
  rewrite Hfail. cbn [CallLog.mark CallLog.status CallLog.error]. rewrite Herr.
  destruct (strip_ansi_is_some (failure_text exc)) as (t & Ht). rewrite Ht.
  split; [reflexivity|]. split; [reflexivity|]. split; [|split].
  - intros Hplain. rewrite <- Ht. now apply strip_ansi_plain.
  - intros segments last Hsegs Hlast Htext. rewrite <- Ht, Htext.
    now apply strip_ansi_segments.
  - exists t. split; [reflexivity|].
    assert (Hsub : t = Re.sub_empty ANSI_ESCAPE_REGEX (failure_text exc)).
    { destruct (failure_text exc); cbn in Ht; now injection Ht. }
    rewrite Hsub. unfold Re.sub_empty.
    generalize (failure_text exc) as text. generalize 0%nat as skip.
    intros skip text. revert skip.
    induction text as [|a text IH]; intros skip; [reflexivity|].
    cbn [Re.sub_scan String.length].
    destruct skip as [|n]; [|specialize (IH n); lia].
    destruct (Re.re_match ANSI_ESCAPE_REGEX (String a text)) as [m|].
    + destruct (S (String.length text) - String.length (Re.rest m))%nat as [|n].
      * cbn [String.length]. specialize (IH 0%nat). lia.
      * specialize (IH n). lia.
    + cbn [String.length]. specialize (IH 0%nat). lia.
Qed.

Lemma failed_call_error_detail_witness :
  exists log',
    rows (snd (process_task Sample.env_ok Sample.svc_coloured Sample.task2
                 Sample.two_row_world)) !! 2%Z = Some log'
    /\ CallLog.status log' = FAILED
    /\ CallLog.error log' = Some "HTTP 400 error: Unable to create record".
Proof.
  destruct (failed_call_error_detail Sample.env_ok Sample.svc_coloured
              Sample.task2 Sample.two_row_world
              (Sample.queued_row 2 "+15005550002") Sample.coloured_error
              (fun n => eq_refl) eq_refl eq_refl eq_refl)
    as (log' & Hrow & Hst & _ & _ & Hcol & _).
  exists log'. split; [exact Hrow|]. split; [exact Hst|].
  refine (Hcol [("HTTP ", String ESC "[1;31m"); ("400", String ESC "[0m")]
               " error: Unable to create record" _ eq_refl eq_refl).
  constructor; [split; [reflexivity|]|constructor; [split; [reflexivity|]|constructor]].
  - exists "1;31", EmptyString, "m"%char. now repeat split.
  - exists "0", EmptyString, "m"%char. now repeat split.
Defined.

(** A newline in the text of the service is stored: [strip_ansi] takes out
    escape sequences, not control characters. *)
Lemma control_characters_survive :
  CallResult.error (TwilioService.result_of (Failed Sample.two_line_error))
  = Some (exn_str Sample.two_line_error)
  /\ ~ strips_control Sample.two_line_error.
Proof.
  split; [reflexivity|].
  intros H. specialize (H _ eq_refl). vm_compute in H. discriminate H.
Qed.

Example strip_ansi_colour :
  strip_ansi (Some ("HTTP " ++ String ESC "[31m" ++ "400" ++ String ESC "[0m"
                            ++ " error"))
  = Some "HTTP 400 error".
Proof. reflexivity. Qed.

(** Taking one sequence out can leave another: the scan makes one pass. *)
Example strip_ansi_one_pass :
  strip_ansi (Some (String ESC (String ESC "[m" ++ "[31mred")))
  = Some (String ESC "[31mred").
Proof. reflexivity. Qed.

(** ** The outcome of a task of a run *)





(** * Further properties of the code *)

(** ** [unique_preserve_order] and [limit_numbers] *)

Lemma truthy_true (s : string) : truthy s = true <-> s <> EmptyString.
Proof. destruct s; cbn; split; congruence. Qed.

Lemma unique_loop_snoc (numbers : list string) (y : string) :
  forall (seen : gset string) (acc : list string),
    (forall x, x ∈ seen <-> x ∈ acc) ->
    unique_loop (numbers ++ [y]) seen acc
    = if truthy y && negb (bool_decide (y ∈ unique_loop numbers seen acc))
      then (unique_loop numbers seen acc ++ [y])%list
      else unique_loop numbers seen acc.
Proof.
  induction numbers as [|num numbers IH]; intros seen acc Hseen.
  - cbn [app unique_loop].
    rewrite (bool_decide_ext (y ∈ seen) (y ∈ acc) (Hseen y)). reflexivity.
  - cbn [app unique_loop].
    destruct (truthy num && negb (bool_decide (num ∈ seen))); [|now apply IH].
    apply IH. intros x. rewrite elem_of_union, elem_of_singleton, elem_of_app,
      list_elem_of_singleton, Hseen. tauto.
Qed.

(** First occurrence wins: a number is appended to the result exactly when
    it is not empty and has not occurred before. *)
Lemma unique_snoc (numbers : list string) (y : string) :
  unique_preserve_order (numbers ++ [y])
  = if truthy y && negb (bool_decide (y ∈ unique_preserve_order numbers))
    then (unique_preserve_order numbers ++ [y])%list
    else unique_preserve_order numbers.
Proof.
  unfold unique_preserve_order. apply unique_loop_snoc.
  intros x. rewrite elem_of_empty, elem_of_nil. tauto.
Qed.

Lemma unique_members (numbers : list string) :
  NoDup (unique_preserve_order numbers)
  /\ (forall x, x ∈ unique_preserve_order numbers
                <-> x ∈ numbers /\ x <> EmptyString)
  /\ sublist (unique_preserve_order numbers) numbers.
Proof.
  induction numbers as [|y numbers (Hnd & Hin & Hsub)] using rev_ind.
  - cbn. split; [constructor|]. split; [|constructor].
    intros x. rewrite elem_of_nil. tauto.
  - rewrite unique_snoc.
    destruct (truthy y) eqn:Hy; cbn [andb].
    2:{ assert (y = EmptyString) as -> by (destruct y; [reflexivity|discriminate]).
        split; [exact Hnd|]. split.
        - intros x. rewrite Hin, elem_of_app, list_elem_of_singleton.
          split; [tauto|]. intros ([?| ->] & ?); [tauto|congruence].
        - now apply sublist_inserts_r. }
    apply truthy_true in Hy.
    destruct (bool_decide_reflect (y ∈ unique_preserve_order numbers)) as [Hold|Hnew];
      cbn [negb].
    + split; [exact Hnd|]. split.
      * intros x. rewrite Hin, elem_of_app, list_elem_of_singleton.
        split; [tauto|]. intros ([?| ->] & ?); [tauto|].
        now apply Hin.
      * now apply sublist_inserts_r.
    + split; [|split].
      * apply NoDup_app. split; [exact Hnd|]. split; [|apply NoDup_singleton].
        intros x Hx Hx'. apply list_elem_of_singleton in Hx'. now subst.
      * intros x. rewrite !elem_of_app, Hin, list_elem_of_singleton.
        split; [intros [?| ->]; tauto|tauto].
      * now apply sublist_app.
Qed.

(** X1. The result of [unique_preserve_order] has no duplicate and no empty
    string, holds exactly the non-empty strings of the input, and lists
    them in the order of the input, each at its first occurrence: a string
    added at the end of the input is added at the end of the result when it
    is not empty and not in it yet, and changes nothing otherwise. *)
Theorem unique_preserve_order_spec (numbers : list string) :
  NoDup (unique_preserve_order numbers)
  /\ (forall x, x ∈ unique_preserve_order numbers
                <-> x ∈ numbers /\ x <> EmptyString)
  /\ sublist (unique_preserve_order numbers) numbers
  /\ (forall y,
         unique_preserve_order (numbers ++ [y])
         = if truthy y && negb (bool_decide (y ∈ numbers))
           then (unique_preserve_order numbers ++ [y])%list
           else unique_preserve_order numbers).
Proof.
  destruct (unique_members numbers) as (Hnd & Hin & Hsub).
  split; [exact Hnd|]. split; [exact Hin|]. split; [exact Hsub|].
  intros y. rewrite unique_snoc. destruct (truthy y) eqn:Hy; [|reflexivity].
  apply truthy_true in Hy. cbn [andb].
  rewrite (bool_decide_ext (y ∈ unique_preserve_order numbers) (y ∈ numbers));
    [reflexivity|].
  rewrite Hin. tauto.
Qed.

(** X2. A list without duplicates and without the empty string goes through
    [unique_preserve_order] unchanged; so deduplicating twice is
    deduplicating once. *)
Theorem unique_preserve_order_fixed (numbers : list string) :
  (NoDup numbers -> EmptyString ∉ numbers ->
   unique_preserve_order numbers = numbers)
  /\ unique_preserve_order (unique_preserve_order numbers)
     = unique_preserve_order numbers.
Proof.
  assert (Hfix : forall l, NoDup l -> EmptyString ∉ l ->
                           unique_preserve_order l = l).
  { induction l as [|y l IH] using rev_ind; [reflexivity|].
    intros Hnd Hne. apply NoDup_app in Hnd. destruct Hnd as (Hnd & Hdisj & _).
    rewrite unique_snoc, IH; [|exact Hnd|].
    2:{ intros H. apply Hne. apply elem_of_app. now left. }
    assert (Hy : truthy y = true).
    { apply truthy_true. intros ->. apply Hne. apply elem_of_app. right.
      now apply list_elem_of_singleton. }
    rewrite Hy. cbn [andb].
    destruct (bool_decide_reflect (y ∈ l)) as [Hin|_]; [|reflexivity].
    exfalso. apply (Hdisj y Hin). now apply list_elem_of_singleton. }
  split; [apply Hfix|].
  destruct (unique_members numbers) as (Hnd & Hin & _).
  apply Hfix; [exact Hnd|]. intros H. apply Hin in H. now destruct H.
Qed.

Lemma unique_preserve_order_fixed_witness :
  unique_preserve_order ["+15005550006"; "+15005550001"]
  = ["+15005550006"; "+15005550001"].
Proof.
  apply (proj1 (unique_preserve_order_fixed ["+15005550006"; "+15005550001"])).
  - repeat constructor; rewrite ?elem_of_cons, ?elem_of_nil; intuition discriminate.
  - rewrite !elem_of_cons, elem_of_nil. intuition discriminate.
Defined.

(** X3. [limit_numbers] keeps a prefix of its input.  With a limit that is
    not negative it keeps the first [limit] entries, or all of them when
    there are fewer; a negative limit drops that many entries from the
    end. *)
Theorem limit_numbers_prefix (numbers : list string) (limit : Z) :
  limit_numbers numbers limit `prefix_of` numbers
  /\ length (limit_numbers numbers limit)
     = (if (0 <=? limit)%Z then Nat.min (Z.to_nat limit) (length numbers)
        else length numbers - Z.to_nat (- limit))%nat
  /\ ((Z.of_nat (length numbers) <= limit)%Z ->
      limit_numbers numbers limit = numbers).
Proof.
  unfold limit_numbers, slice_to. split; [|split].
  - destruct (0 <=? limit)%Z; eexists; symmetry; apply firstn_skipn.
  - destruct (0 <=? limit)%Z; rewrite length_firstn; lia.
  - intros H. destruct (0 <=? limit)%Z eqn:H0; [|lia].
    apply firstn_all2. lia.
Qed.

(** ** [normalize_number] *)

Lemma startswith_app (s p : string) :
  startswith s p = true <-> exists t, s = p ++ t.
Proof.
  unfold startswith. revert s. induction p as [|c p IH]; intros s.
  - split; [intros _; now exists s|intros _; now destruct s].
  - destruct s as [|a s]; cbn [String.prefix].
    + split; [discriminate|]. intros (t & H). discriminate H.
    + destruct (ascii_dec c a) as [->|Hne].
      * rewrite IH. split; intros (t & H); exists t.
        -- now rewrite string_app_cons, H.
        -- rewrite string_app_cons in H. now injection H.
      * split; [discriminate|]. intros (t & H).
        rewrite string_app_cons in H. injection H as H _. congruence.
Qed.

Lemma string_all_app (p : ascii -> bool) (a b : string) :
  string_all p (a ++ b) = string_all p a && string_all p b.
Proof.
  induction a as [|x a IH]; [reflexivity|].
  rewrite string_app_cons. cbn [string_all]. now rewrite IH, andb_assoc.
Qed.

Lemma string_all_drop (p : ascii -> bool) (n : nat) (s : string) :
  string_all p s = true -> string_all p (string_drop n s) = true.
Proof.
  revert s. induction n as [|n IH]; intros s H; [exact H|].
  destruct s as [|a s]; [reflexivity|]. cbn [string_drop].
  cbn [string_all] in H. apply andb_true_iff in H. now apply IH.
Qed.

Lemma keep_dial_chars_all (s : string) :
  string_all is_dial_char (keep_dial_chars s) = true.
Proof.
  induction s as [|a s IH]; [reflexivity|]. cbn [keep_dial_chars].
  destruct (is_dial_char a) eqn:Ha; [|exact IH]. cbn [string_all].
  now rewrite Ha, IH.
Qed.

Lemma keep_dial_chars_id (s : string) :
  string_all is_dial_char s = true -> keep_dial_chars s = s.
Proof.
  induction s as [|a s IH]; [reflexivity|]. cbn [string_all keep_dial_chars].
  intros H. apply andb_true_iff in H. destruct H as (Ha & H).
  now rewrite Ha, IH.
Qed.

Lemma dial_char_not_space (a : ascii) :
  is_dial_char a = true -> is_space a = false.
Proof.
  unfold is_dial_char, is_digit, Re.in_range, is_space. intros H.
  apply orb_true_iff in H. destruct H as [H|H].
  - apply andb_true_iff in H. destruct H as (H1 & H2).
    apply N.leb_le in H1, H2.
    change (N_of_ascii "0") with 48%N in H1. change (N_of_ascii "9") with 57%N in H2.
    cbv zeta.
    repeat match goal with
           | |- context [(?x <=? ?y)%N] => destruct (N.leb_spec x y)
           | |- context [(?x =? ?y)%N] => destruct (N.eqb_spec x y)
           end; cbn; try reflexivity; lia.
  - apply Ascii.eqb_eq in H. subst a. reflexivity.
Qed.

Lemma rstrip_id (s : string) :
  string_all (fun a => negb (is_space a)) s = true -> rstrip s = s.
Proof.
  induction s as [|a s IH]; [reflexivity|]. cbn [string_all rstrip].
  intros H. apply andb_true_iff in H. destruct H as (Ha & H).
  rewrite (IH H). apply negb_true_iff in Ha. rewrite Ha. now destruct s.
Qed.

Lemma lstrip_id (s : string) :
  string_all (fun a => negb (is_space a)) s = true -> lstrip s = s.
Proof.
  destruct s as [|a s]; [reflexivity|]. cbn [string_all lstrip].
  intros H. apply andb_true_iff in H. destruct H as (Ha & _).
  apply negb_true_iff in Ha. now rewrite Ha.
Qed.

Lemma string_all_impl (p q : ascii -> bool) (s : string) :
  (forall a, p a = true -> q a = true) ->
  string_all p s = true -> string_all q s = true.
Proof.
  intros Hpq. induction s as [|a s IH]; [reflexivity|]. cbn [string_all].
  intros H. apply andb_true_iff in H. destruct H as (Ha & H).
  now rewrite (Hpq a Ha), IH.
Qed.

(** Sanitising a text of digits and [+] changes nothing. *)
Lemma sanitise_id (s : string) :
  string_all is_dial_char s = true -> keep_dial_chars (strip s) = s.
Proof.
  intros H.
  assert (Hns : string_all (fun a => negb (is_space a)) s = true).
  { revert H. apply string_all_impl. intros a Ha.
    now rewrite (dial_char_not_space a Ha). }
  unfold strip. rewrite (rstrip_id s Hns), (lstrip_id s Hns).
  now apply keep_dial_chars_id.
Qed.

Lemma canonical_prefix_plus (t : string) :
  canonical_prefix (String "+" t) = String "+" t.
Proof.
  unfold canonical_prefix, startswith. cbn [String.prefix].
  repeat match goal with
         | |- context [ascii_dec ?a ?b] =>
             destruct (ascii_dec a b); try discriminate
         end.
  cbn [andb negb String.length]. destruct t as [|b t]; reflexivity.
Qed.

Lemma startswith_plus_fixed (y : string) :
  startswith y "+" = true -> canonical_prefix y = y.
Proof.
  intros H. apply startswith_app in H. destruct H as (t & ->).
  apply canonical_prefix_plus.
Qed.

Lemma startswith_00_0 (y : string) :
  startswith y "0" = false -> startswith y "00" = false.
Proof.
  intros H. destruct (startswith y "00") eqn:H00; [|reflexivity].
  apply startswith_app in H00. destruct H00 as (t & ->).
  assert (startswith ("00" ++ t) "0" = true)
    by (apply startswith_app; now exists (String "0" t)).
  congruence.
Qed.

(** Without a leading [0], only the last two rules of the normaliser are
    left. *)
Lemma canonical_prefix_no_zero (y : string) :
  startswith y "0" = false ->
  canonical_prefix y
  = if startswith y "91" && (String.length y =? 12)%nat then "+" ++ y
    else if startswith y "+" && (1 <? String.length y)%nat then y
         else if (String.length y =? 10)%nat then "+91" ++ y else y.
Proof.
  intros H0. unfold canonical_prefix.
  rewrite (startswith_00_0 y H0), H0. cbn [andb].
  destruct (startswith y "91" && (String.length y =? 12)%nat) eqn:H91;
    [|reflexivity].
  change ("+" ++ y) with (String "+" y).
  unfold startswith at 1. cbn [String.prefix].
  destruct (ascii_dec "+" "+"); [|congruence].
  destruct y; [discriminate H91|reflexivity].
Qed.

Lemma canonical_prefix_idem_no_zero (y : string) :
  startswith y "0" = false ->
  canonical_prefix (canonical_prefix y) = canonical_prefix y.
Proof.
  intros H0. rewrite (canonical_prefix_no_zero y H0).
  destruct (startswith y "91" && (String.length y =? 12)%nat) eqn:H91;
    [apply canonical_prefix_plus|].
  destruct (startswith y "+") eqn:Hp.
  { cbn [andb].
    destruct (1 <? String.length y)%nat; [now apply startswith_plus_fixed|].
    destruct (String.length y =? 10)%nat;
      [apply canonical_prefix_plus|now apply startswith_plus_fixed]. }
  cbn [andb].
  destruct (String.length y =? 10)%nat eqn:H10; [apply canonical_prefix_plus|].
  rewrite (canonical_prefix_no_zero y H0), H91, Hp, H10. reflexivity.
Qed.

(** [00] stands for [+]. *)
Lemma canonical_prefix_international (v : string) :
  canonical_prefix (String "0" (String "0" v)) = String "+" v.
Proof. destruct v; reflexivity. Qed.

(** A trunk [0] is dropped. *)
Lemma canonical_prefix_trunk (u : string) :
  startswith u "0" = false ->
  canonical_prefix (String "0" u) = canonical_prefix u.
Proof.
  intros Hu. rewrite (canonical_prefix_no_zero u Hu). unfold canonical_prefix.
  assert (H00 : startswith (String "0" u) "00" = false).
  { destruct (startswith (String "0" u) "00") eqn:H00; [|reflexivity].
    apply startswith_app in H00. destruct H00 as (t & Ht).
    change ("00" ++ t) with (String "0" (String "0" t)) in Ht.
    injection Ht as ->.
    assert (startswith (String "0" t) "0" = true)
      by (apply startswith_app; now exists t).
    congruence. }
  rewrite H00.
  assert (H0 : startswith (String "0" u) "0" = true)
    by (apply startswith_app; now exists u).
  assert (Hp : startswith (String "0" u) "+" = false) by reflexivity.
  rewrite H0, Hp. cbn [andb negb string_drop].
  destruct (startswith u "91" && (String.length u =? 12)%nat) eqn:H91;
    [|reflexivity].
  change ("+" ++ u) with (String "+" u).
  unfold startswith at 1. cbn [String.prefix].
  destruct (ascii_dec "+" "+"); [|congruence].
  destruct u; [discriminate H91|reflexivity].
Qed.

Lemma canonical_prefix_idem (x : string) :
  canonical_prefix (canonical_prefix x) = canonical_prefix x.
Proof.
  destruct (startswith x "0") eqn:H0;
    [|now apply canonical_prefix_idem_no_zero].
  apply startswith_app in H0. destruct H0 as (u & ->).
  change ("0" ++ u) with (String "0" u).
  destruct (startswith u "0") eqn:Hu.
  - apply startswith_app in Hu. destruct Hu as (v & ->).
    change ("0" ++ v) with (String "0" v).
    rewrite canonical_prefix_international. apply canonical_prefix_plus.
  - rewrite (canonical_prefix_trunk u Hu).
    now apply canonical_prefix_idem_no_zero.
Qed.

Lemma canonical_prefix_all (s : string) :
  string_all is_dial_char s = true ->
  string_all is_dial_char (canonical_prefix s) = true.
Proof.
  intros H. unfold canonical_prefix.
  set (n1 := if startswith s "00" then "+" ++ string_drop 2 s else s).
  assert (H1 : string_all is_dial_char n1 = true).
  { subst n1. destruct (startswith s "00"); [|exact H].
    rewrite string_all_app, (string_all_drop _ 2 s H). reflexivity. }
  set (n2 := if startswith n1 "0" && negb (startswith n1 "+")
             then string_drop 1 n1 else n1).
  assert (H2 : string_all is_dial_char n2 = true).
  { subst n2. destruct (startswith n1 "0" && negb (startswith n1 "+"));
      [now apply string_all_drop|exact H1]. }
  set (n3 := if startswith n2 "91" && (String.length n2 =? 12)%nat
             then "+" ++ n2 else n2).
  assert (H3 : string_all is_dial_char n3 = true).
  { subst n3. destruct (startswith n2 "91" && (String.length n2 =? 12)%nat);
      [|exact H2]. now rewrite string_all_app, H2. }
  destruct (startswith n3 "+" && (1 <? String.length n3)%nat); [exact H3|].
  destruct (String.length n3 =? 10)%nat; [|exact H3].
  now rewrite string_all_app, H3.
Qed.

Lemma normalize_number_dial (raw : string) :
  string_all is_dial_char (normalize_number raw) = true.
Proof. apply canonical_prefix_all, keep_dial_chars_all. Qed.

(** X4. [normalize_number] returns digits and [+] only, and returns its own
    results unchanged: normalising twice is normalising once. *)
Theorem normalize_number_idempotent (raw : string) :
  string_all is_dial_char (normalize_number raw) = true
  /\ normalize_number (normalize_number raw) = normalize_number raw.
Proof.
  assert (Hall : string_all is_dial_char (normalize_number raw) = true)
    by apply canonical_prefix_all, keep_dial_chars_all.
  split; [exact Hall|].
  unfold normalize_number at 1. rewrite (sanitise_id _ Hall).
  apply canonical_prefix_idem.
Qed.

Lemma digit_is_dial_char (lo : ascii) (a : ascii) :
  (N_of_ascii "0" <= N_of_ascii lo)%N ->
  Re.in_range lo "9" a = true -> is_dial_char a = true.
Proof.
  unfold is_dial_char, is_digit, Re.in_range. intros Hlo H.
  apply andb_true_iff in H. destruct H as (H1 & H2).
  apply N.leb_le in H1. apply orb_true_iff. left.
  apply andb_true_iff. split; [apply N.leb_le; lia|exact H2].
Qed.

(** X5. Every usual spelling of an Indian mobile number (ten digits, the
    first from 6 to 9): bare, with the trunk [0], with [91], with [0091] or
    with [+91], is normalised to [+91] and the ten digits, and the gate
    rejects the result with the safety reason. *)
Theorem indian_spellings_rejected (c : ascii) (ds s : string) :
  Re.in_range "6" "9" c = true ->
  String.length ds = 9%nat ->
  all_in "0" "9" ds = true ->
  In s (spellings (String c ds)) ->
  normalize_number s = "+91" ++ String c ds
  /\ validate_number (normalize_number s)
     = {| number := "+91" ++ String c ds; is_valid := false;
          reason := Some REASON_INDIAN |}.
Proof.
  intros Hc Hlen Hall Hin.
  do 9 (destruct ds as [|? ds]; [discriminate Hlen|]).
  destruct ds; [|discriminate Hlen]. clear Hlen.
  cbn [all_in] in Hall.
  repeat (apply andb_true_iff in Hall; destruct Hall as (? & Hall)). clear Hall.
  assert (Hc' : is_dial_char c = true)
    by (apply (digit_is_dial_char "6"); [cbn; lia|exact Hc]).
  assert (Hd : forall a, Re.in_range "0" "9" a = true -> is_dial_char a = true)
    by (intros x; apply (digit_is_dial_char "0"); cbn; lia).
  set (d := String c _) in *.
  assert (Hdial : string_all is_dial_char d = true).
  { subst d. cbn [string_all]. rewrite Hc'.
    repeat match goal with
           | H : Re.in_range "0" "9" ?x = true |- _ =>
               rewrite (Hd x H); clear H
           end.
    reflexivity. }
  assert (Hnorm : normalize_number s = "+91" ++ d).
  { unfold normalize_number.
    assert (Hs : string_all is_dial_char s = true).
    { cbn [spellings In] in Hin.
      destruct Hin as [<-|[<-|[<-|[<-|[<-|[]]]]]];
        rewrite ?string_all_app, ?Hdial; reflexivity. }
    rewrite (sanitise_id s Hs).
    assert (Hfirst : forall x : ascii,
               x <> c -> startswith d (String x EmptyString) = false).
    { intros x Hx. subst d. unfold startswith. cbn [String.prefix].
      destruct (ascii_dec x c); [congruence|reflexivity]. }
    assert (Hz : startswith d "0" = false)
      by (apply Hfirst; intros <-; discriminate Hc).
    assert (Hp : startswith d "+" = false)
      by (apply Hfirst; intros <-; discriminate Hc).
    assert (Hbare : canonical_prefix d = "+91" ++ d).
    { rewrite (canonical_prefix_no_zero d Hz), Hp.
      subst d. cbn [String.length Nat.eqb andb].
      rewrite andb_false_r. reflexivity. }
    cbn [spellings In] in Hin.
    destruct Hin as [<-|[<-|[<-|[<-|[<-|[]]]]]].
    - exact Hbare.
    - change ("0" ++ d) with (String "0" d).
      now rewrite (canonical_prefix_trunk d Hz).
    - rewrite canonical_prefix_no_zero by reflexivity.
      assert (H91 : startswith ("91" ++ d) "91" = true)
        by (apply startswith_app; now exists d).
      rewrite H91. subst d. reflexivity.
    - change ("0091" ++ d) with (String "0" (String "0" ("91" ++ d))).
      now rewrite canonical_prefix_international.
    - apply canonical_prefix_plus. }
  split; [exact Hnorm|]. rewrite Hnorm. subst d.
  rewrite !string_app_cons, string_app_nil_l.
  unfold validate_number, startswith, TWILIO_TEST_PREFIX. cbn [String.prefix].
  repeat match goal with
         | |- context [ascii_dec ?x ?y] =>
             destruct (ascii_dec x y); try congruence
         end.
  unfold Re.re_match, INDIAN_NUMBER_REGEX.
  cbn -[Re.in_range].
  repeat match goal with
         | H : Re.in_range _ _ _ = true |- _ => rewrite H; clear H
         end.
  reflexivity.
Qed.

Lemma indian_spellings_rejected_witness :
  normalize_number "09876543210" = "+919876543210"
  /\ validate_number (normalize_number "09876543210")
     = {| number := "+919876543210"; is_valid := false;
          reason := Some REASON_INDIAN |}.
Proof.
  apply (indian_spellings_rejected "9" "876543210" "09876543210");
    [reflexivity|reflexivity|reflexivity|].
  right. left. reflexivity.
Defined.

(** ** [parse_numbers_from_text] *)

Lemma split_loop_pieces (p : ascii -> bool) (s : string) :
  forall (cur : string) (in_run : bool),
    string_all p s = true -> string_all p cur = true ->
    Forall (fun piece => string_all p piece = true) (split_loop s cur in_run).
Proof.
  induction s as [|a s IH]; intros cur in_run Hs Hcur; cbn [split_loop].
  - now repeat constructor.
  - cbn [string_all] in Hs. apply andb_true_iff in Hs. destruct Hs as (Ha & Hs).
    destruct (is_separator a).
    + destruct in_run; [now apply IH|].
      constructor; [exact Hcur|now apply IH].
    + apply IH; [exact Hs|]. rewrite string_all_app, Hcur. cbn [string_all].
      now rewrite Ha.
Qed.

Lemma lstrip_all_space (s : string) :
  string_all is_space s = true -> lstrip s = EmptyString.
Proof.
  induction s as [|a s IH]; [reflexivity|]. cbn [string_all lstrip].
  intros H. apply andb_true_iff in H. destruct H as (Ha & H).
  rewrite Ha. now apply IH.
Qed.

Lemma rstrip_all (p : ascii -> bool) (s : string) :
  string_all p s = true -> string_all p (rstrip s) = true.
Proof.
  induction s as [|a s IH]; [reflexivity|]. cbn [string_all rstrip].
  intros H. apply andb_true_iff in H. destruct H as (Ha & H).
  specialize (IH H). destruct (rstrip s) as [|b t].
  - destruct (is_space a); [reflexivity|]. cbn [string_all]. now rewrite Ha.
  - cbn [string_all] in *. now rewrite Ha, IH.
Qed.

Lemma lstrip_all (p : ascii -> bool) (s : string) :
  string_all p s = true -> string_all p (lstrip s) = true.
Proof.
  induction s as [|a s IH]; [reflexivity|]. cbn [lstrip].
  intros H. destruct (is_space a); [|exact H].
  cbn [string_all] in H. apply andb_true_iff in H. now apply IH.
Qed.

Lemma strip_all (p : ascii -> bool) (s : string) :
  string_all p s = true -> string_all p (strip s) = true.
Proof. intros H. now apply lstrip_all, rstrip_all. Qed.

Lemma strip_all_space (s : string) :
  string_all is_space s = true -> strip s = EmptyString.
Proof. intros H. now apply lstrip_all_space, rstrip_all. Qed.

(** X6. [parse_numbers_from_text] returns no empty string and nothing but
    digits and [+]; a text of blanks and separators alone gives the empty
    list. *)
Theorem parse_numbers_from_text_clean (value : string) :
  Forall (fun num => num <> EmptyString
                     /\ string_all is_dial_char num = true)
         (parse_numbers_from_text value)
  /\ (string_all (fun a => is_space a || is_separator a) value = true ->
      parse_numbers_from_text value = []).
Proof.
  unfold parse_numbers_from_text. split.
  - apply List.Forall_forall. intros num Hin.
    apply filter_In in Hin. destruct Hin as (Hin & Ht).
    apply truthy_true in Ht. split; [exact Ht|].
    apply in_map_iff in Hin. destruct Hin as (token & <- & _).
    apply normalize_number_dial.
  - intros Hblank.
    assert (Hpieces :
              Forall (fun piece =>
                        string_all (fun a => is_space a || is_separator a) piece
                        = true)
                     (re_split_separators (strip value))).
    { apply split_loop_pieces; [now apply strip_all|reflexivity]. }
    assert (Hnosep :
              Forall (fun piece =>
                        string_all (fun a => negb (is_separator a)) piece = true)
                     (re_split_separators (strip value))).
    { unfold re_split_separators. generalize (strip value). intros s.
      assert (H : forall cur in_run,
                 string_all (fun a => negb (is_separator a)) cur = true ->
                 Forall (fun piece =>
                           string_all (fun a => negb (is_separator a)) piece = true)
                        (split_loop s cur in_run)).
      { induction s as [|a s IH]; intros cur in_run Hcur; cbn [split_loop].
        - now repeat constructor.
        - destruct (is_separator a) eqn:Ha.
          + destruct in_run; [now apply IH|]. constructor; [exact Hcur|now apply IH].
          + apply IH. rewrite string_all_app, Hcur. cbn [string_all].
            now rewrite Ha. }
      now apply H. }
    induction (re_split_separators (strip value)) as [|piece pieces IH];
      [reflexivity|].
    apply List.Forall_cons_iff in Hpieces, Hnosep.
    destruct Hpieces as (Hp & Hps). destruct Hnosep as (Hn & Hns).
    cbn [List.filter].
    assert (Hsp : string_all is_space piece = true).
    { clear -Hp Hn. induction piece as [|a piece IH]; [reflexivity|].
      cbn [string_all] in *. apply andb_true_iff in Hp, Hn.
      destruct Hp as (Ha & Hp). destruct Hn as (Hb & Hn).
      rewrite (IH Hp Hn), andb_true_r.
      apply negb_true_iff in Hb. rewrite Hb, orb_false_r in Ha. exact Ha. }
    rewrite (strip_all_space piece Hsp). cbn [truthy]. now apply IH.
Qed.

Lemma dial_char_not_separator (a : ascii) :
  is_dial_char a = true -> is_separator a = false.
Proof.
  unfold is_dial_char, is_digit, Re.in_range, is_separator. intros H.
  apply orb_true_iff in H. destruct H as [H|H].
  - apply andb_true_iff in H. destruct H as (H1 & H2).
    apply N.leb_le in H1, H2.
    change (N_of_ascii "0") with 48%N in H1. change (N_of_ascii "9") with 57%N in H2.
    repeat match goal with
           | |- context [Ascii.eqb a ?c] =>
               destruct (Ascii.eqb_spec a c) as [->|_]; [cbn in H1, H2; lia|]
           end.
    reflexivity.
  - apply Ascii.eqb_eq in H. subst a. reflexivity.
Qed.

Lemma split_loop_token (tok : string) :
  forall (s cur : string) (in_run : bool),
    string_all is_dial_char tok = true ->
    split_loop (tok ++ s) cur in_run
    = split_loop s (cur ++ tok)
        (match tok with EmptyString => in_run | _ => false end).
Proof.
  induction tok as [|a tok IH]; intros s cur in_run Htok.
  - now rewrite string_app_nil_l, string_app_nil_r.
  - cbn [string_all] in Htok. apply andb_true_iff in Htok.
    destruct Htok as (Ha & Htok).
    rewrite string_app_cons. cbn [split_loop].
    rewrite (dial_char_not_separator a Ha), (IH _ _ _ Htok).
    rewrite string_app_assoc, string_app_cons, string_app_nil_l.
    now destruct tok.
Qed.

Lemma split_loop_separators (sep : string) :
  forall (s cur : string) (in_run : bool),
    string_all is_separator sep = true ->
    sep <> EmptyString ->
    split_loop (sep ++ s) cur in_run
    = if in_run then split_loop s EmptyString true
      else cur :: split_loop s EmptyString true.
Proof.
  induction sep as [|a sep IH]; intros s cur in_run Hsep Hne; [congruence|].
  cbn [string_all] in Hsep. apply andb_true_iff in Hsep.
  destruct Hsep as (Ha & Hsep).
  rewrite string_app_cons. cbn [split_loop]. rewrite Ha.
  destruct sep as [|b sep].
  - rewrite string_app_nil_l. reflexivity.
  - rewrite (IH s EmptyString true Hsep) by discriminate. reflexivity.
Qed.

Lemma rstrip_last (a : string) (c : ascii) :
  is_space c = false ->
  rstrip (a ++ String c EmptyString) = a ++ String c EmptyString.
Proof.
  intros Hc. induction a as [|x a IH].
  - rewrite string_app_nil_l. cbn [rstrip]. now rewrite Hc.
  - rewrite string_app_cons. cbn [rstrip]. rewrite IH.
    destruct a; reflexivity.
Qed.

Lemma dial_string_last (s : string) :
  string_all is_dial_char s = true -> s <> EmptyString ->
  exists a c, s = a ++ String c EmptyString /\ is_space c = false.
Proof.
  induction s as [|x s IH]; intros Hs Hne; [congruence|].
  cbn [string_all] in Hs. apply andb_true_iff in Hs. destruct Hs as (Hx & Hs).
  destruct s as [|y s].
  - exists EmptyString, x. split; [reflexivity|now apply dial_char_not_space].
  - destruct (IH Hs) as (a & c & Heq & Hc); [discriminate|].
    exists (String x a), c. split; [|exact Hc].
    now rewrite string_app_cons, <- Heq.
Qed.

(** The numbers of a well-formed list: [+] and then digits or [+]. *)
Lemma canonical_numbers_split (sep : string) (nums : list string) :
  string_all is_separator sep = true -> sep <> EmptyString ->
  Forall (fun num => startswith num "+" = true
                     /\ string_all is_dial_char num = true) nums ->
  nums <> [] ->
  forall (cur : string) (in_run : bool),
    split_loop (join sep nums) cur in_run
    = match nums with
      | [] => []
      | num :: nums' => (cur ++ num) :: nums'
      end.
Proof.
  intros Hsep Hne Hall. induction Hall as [|num nums (Hplus & Hdial) Hall IH];
    intros Hnums cur in_run; [congruence|].
  assert (Hnum : num <> EmptyString).
  { apply startswith_app in Hplus. destruct Hplus as (t & ->). discriminate. }
  destruct nums as [|num' nums].
  - cbn [join]. rewrite <- (string_app_nil_r num) at 1.
    rewrite (split_loop_token num _ _ _ Hdial). reflexivity.
  - change (join sep (num :: num' :: nums))
      with (num ++ sep ++ join sep (num' :: nums)).
    rewrite (split_loop_token num _ _ _ Hdial).
    rewrite (split_loop_separators sep _ _ _ Hsep Hne).
    destruct num as [|x num]; [congruence|].
    rewrite (IH ltac:(discriminate) EmptyString true).
    now rewrite string_app_nil_l.
Qed.

Lemma join_last (sep : string) (nums : list string) :
  Forall (fun num => startswith num "+" = true
                     /\ string_all is_dial_char num = true) nums ->
  nums <> [] ->
  exists a c, join sep nums = a ++ String c EmptyString /\ is_space c = false.
Proof.
  intros Hall. induction Hall as [|num nums (Hplus & Hdial) Hall IH];
    intros Hnums; [congruence|].
  assert (Hnum : num <> EmptyString).
  { apply startswith_app in Hplus. destruct Hplus as (t & ->). discriminate. }
  destruct nums as [|num' nums].
  - cbn [join]. now apply dial_string_last.
  - destruct (IH ltac:(discriminate)) as (a & c & Heq & Hc).
    exists (num ++ sep ++ a), c. split; [|exact Hc].
    change (join sep (num :: num' :: nums))
      with (num ++ sep ++ join sep (num' :: nums)).
    now rewrite Heq, !string_app_assoc.
Qed.

(** X7. Round trip: numbers written as [+] and digits, joined by any
    non-empty run of separators (commas, semicolons, blanks, newlines), are
    read back by [parse_numbers_from_text] as they are, in the same
    order. *)
Theorem parse_numbers_from_text_join (sep : string) (nums : list string) :
  string_all is_separator sep = true -> sep <> EmptyString ->
  Forall (fun num => startswith num "+" = true
                     /\ string_all is_dial_char num = true) nums ->
  parse_numbers_from_text (join sep nums) = nums.
Proof.
  intros Hsep Hne Hall.
  destruct nums as [|num nums]; [reflexivity|].
  unfold parse_numbers_from_text.
  assert (Hstrip : strip (join sep (num :: nums)) = join sep (num :: nums)).
  { destruct (join_last sep (num :: nums) Hall ltac:(discriminate))
      as (a & c & Heq & Hc).
    unfold strip. rewrite Heq, (rstrip_last a c Hc), <- Heq.
    apply List.Forall_cons_iff in Hall. destruct Hall as ((Hplus & _) & _).
    apply startswith_app in Hplus. destruct Hplus as (t & ->).
    destruct nums; reflexivity. }
  rewrite Hstrip. unfold re_split_separators.
  rewrite (canonical_numbers_split sep _ Hsep Hne Hall ltac:(discriminate)).
  rewrite string_app_nil_l. clear Hstrip.
  induction Hall as [|n ns (Hplus & Hdial) Hall IH]; [reflexivity|].
  assert (Hn : n <> EmptyString).
  { apply startswith_app in Hplus. destruct Hplus as (t & ->). discriminate. }
  assert (Hnorm : normalize_number n = n).
  { unfold normalize_number. rewrite (sanitise_id n Hdial).
    now apply startswith_plus_fixed. }
  assert (Hsn : strip n = n).
  { unfold strip.
    assert (Hns : string_all (fun a => negb (is_space a)) n = true).
    { revert Hdial. apply string_all_impl. intros a Ha.
      now rewrite (dial_char_not_space a Ha). }
    now rewrite (rstrip_id n Hns), (lstrip_id n Hns). }
  cbn [List.filter List.map]. rewrite Hsn.
  apply truthy_true in Hn. rewrite Hn. cbn [List.map List.filter].
  rewrite Hnorm, Hn. f_equal. exact IH.
Qed.

Lemma parse_numbers_from_text_join_witness :
  parse_numbers_from_text (join ", " ["+15005550006"; "+15005550001"])
  = ["+15005550006"; "+15005550001"].
Proof.
  apply (parse_numbers_from_text_join ", " ["+15005550006"; "+15005550001"]);
    [reflexivity|discriminate|].
  repeat constructor.
Defined.

(** ** [CallLog.mark] *)

(** X8. Whatever the series of calls of [mark] on a row: the key, the
    number, the message and the creation time stay as they were; a
    duration, an error detail or a reference is set afterwards exactly
    when it was set before or one of the calls gave one, so no call clears
    a column; the status and the time of the update are those of the last
    call, and so is each optional column the last call gave. *)
Theorem mark_never_clears (log : CallLog.t) (calls : list MarkCall.t) :
  let log' := mark_all log calls in
  same_columns log log'
  /\ (CallLog.duration log' <> None
      <-> CallLog.duration log <> None
          \/ Exists (fun c => MarkCall.duration c <> None) calls)
  /\ (CallLog.error log' <> None
      <-> CallLog.error log <> None
          \/ Exists (fun c => MarkCall.error c <> None) calls)
  /\ (CallLog.call_sid log' <> None
      <-> CallLog.call_sid log <> None
          \/ Exists (fun c => MarkCall.call_sid c <> None) calls)
  /\ (forall c, last calls = Some c ->
                CallLog.status log' = MarkCall.status c
                /\ CallLog.updated_at log' = MarkCall.utcnow c
                /\ (MarkCall.duration c <> None ->
                    CallLog.duration log' = MarkCall.duration c)
                /\ (MarkCall.error c <> None ->
                    CallLog.error log' = MarkCall.error c)
                /\ (MarkCall.call_sid c <> None ->
                    CallLog.call_sid log' = MarkCall.call_sid c)).
Proof.
  cbv zeta. induction calls as [|c calls IH] using rev_ind.
  - cbn. unfold same_columns. split; [auto|].
    repeat (split; [split; [now left|intros [H|H]; [exact H|inversion H]]|]).
    intros c H. discriminate H.
  - destruct IH as (Hcols & Hd & He & Hs & _).
    unfold mark_all in *. rewrite fold_left_app. cbn [fold_left].
    set (row := fold_left _ calls log) in *.
    split; [|split; [|split; [|split]]].
    + unfold same_columns in *. cbn. exact Hcols.
    + cbn [CallLog.mark CallLog.duration]. rewrite Exists_app, Exists_cons.
      destruct (MarkCall.duration c) as [d|].
      * split; [intros _; right; right; left; discriminate|discriminate].
      * rewrite Hd. split.
        -- intros [H|H]; [now left|right; now left].
        -- intros [H|[H|[H|H]]]; [now left|now right|now destruct H|inversion H].
    + cbn [CallLog.mark CallLog.error]. rewrite Exists_app, Exists_cons.
      destruct (MarkCall.error c) as [e|].
      * split; [intros _; right; right; left; discriminate|discriminate].
      * rewrite He. split.
        -- intros [H|H]; [now left|right; now left].
        -- intros [H|[H|[H|H]]]; [now left|now right|now destruct H|inversion H].
    + cbn [CallLog.mark CallLog.call_sid]. rewrite Exists_app, Exists_cons.
      destruct (MarkCall.call_sid c) as [sid|].
      * split; [intros _; right; right; left; discriminate|discriminate].
      * rewrite Hs. split.
        -- intros [H|H]; [now left|right; now left].
        -- intros [H|[H|[H|H]]]; [now left|now right|now destruct H|inversion H].
    + intros c' Hlast. rewrite last_snoc in Hlast. injection Hlast as <-.
      cbn. repeat split.
      * destruct (MarkCall.duration c); [reflexivity|intros H; now destruct H].
      * destruct (MarkCall.error c); [reflexivity|intros H; now destruct H].
      * destruct (MarkCall.call_sid c); [reflexivity|intros H; now destruct H].
Qed.

(** ** [TwilioService.place_call] *)

(** X9. [place_call] never touches the table.  For a number outside the
    test range it raises the [ValueError] of the safety check without
    calling the client.  For a number in the test range it never raises,
    whatever the client does: it returns a success with a reference and no
    error detail, or a failure with an error detail and neither reference
    nor duration. *)
Theorem place_call_contract (env : Env) (svc : TwilioService.t)
        (to_number msg : string) (w : World) :
  let r := fst (TwilioService.place_call env svc to_number msg w) in
  let w' := snd (TwilioService.place_call env svc to_number msg w) in
  rows w' = rows w /\ next_id w' = next_id w
  /\ (startswith to_number TWILIO_TEST_PREFIX = false ->
      r = Raise {| exn_class := ValueError;
                   exn_str := TwilioService.TEST_MODE_MESSAGE |}
      /\ List.map snd (trace w')
         = (Dispatch to_number msg :: List.map snd (trace w)))
  /\ (startswith to_number TWILIO_TEST_PREFIX = true ->
      exists result,
        r = Ok result
        /\ if CallResult.success result
           then CallResult.sid result <> None /\ CallResult.error result = None
           else CallResult.error result <> None
                /\ CallResult.sid result = None
                /\ CallResult.duration result = None).
Proof.
  cbv zeta. destruct (startswith to_number TWILIO_TEST_PREFIX) eqn:Hgate.
  - rewrite place_call_passed by exact Hgate. cbn [fst snd].
    split; [reflexivity|]. split; [reflexivity|]. split; [discriminate|].
    intros _. eexists. split; [reflexivity|].
    destruct (TwilioService.calls_create svc (steps w)
                (TwilioService.twiml_of msg) to_number
                (TwilioService.from_number svc)) as [sid dur|exc];
      cbn [TwilioService.result_of].
    + cbn. split; [discriminate|reflexivity].
    + destruct (is_TwilioRestException exc); cbn [CallResult.success
        CallResult.error CallResult.sid CallResult.duration];
        (split; [|split; reflexivity]);
        match goal with
        | |- strip_ansi (Some ?t) <> None =>
            destruct (strip_ansi_is_some t) as (x & ->); discriminate
        end.
  - rewrite place_call_refused by exact Hgate. cbn [fst snd].
    split; [reflexivity|]. split; [reflexivity|].
    split; [intros _; split; reflexivity|discriminate].
Qed.

(** ** What a run never does *)

Lemma extends_trace_refl (P : Q * Event -> Prop) (w : World) :
  extends_trace P w w.
Proof. exists []. split; [reflexivity|constructor]. Qed.

Lemma extends_trace_trans (P : Q * Event -> Prop) (w1 w2 w3 : World) :
  extends_trace P w1 w2 -> extends_trace P w2 w3 -> extends_trace P w1 w3.
Proof.
  intros (e1 & H1 & F1) (e2 & H2 & F2). exists (e2 ++ e1)%list.
  split; [rewrite H2, H1; now rewrite app_assoc|].
  apply Forall_app. now split.
Qed.

Lemma extends_trace_eq (P : Q * Event -> Prop) (w w' : World) :
  trace w' = trace w -> extends_trace P w w'.
Proof. intros H. exists []. split; [exact H|constructor]. Qed.

Lemma extends_trace_cons (P : Q * Event -> Prop) (w w' : World) (te : Q * Event) :
  trace w' = te :: trace w -> P te -> extends_trace P w w'.
Proof. intros H Hte. exists [te]. split; [exact H|now repeat constructor]. Qed.

Lemma update_status_extends (env : Env) (call_id : Z) (st : CallStatus)
      (err : option string) (w : World) :
  extends_trace in_test_range w (snd (_update_status env call_id st err w)).
Proof.
  destruct (update_status_effect env call_id st err w)
    as (_ & [((_ & _ & Ht & _) & _)|(_ & log & now & _ & _ & _ & Ht & _)]).
  - now apply extends_trace_eq.
  - apply (extends_trace_cons _ _ _ _ Ht). exact I.
Qed.

Lemma finalise_extends (env : Env) (call_id : Z) (result : CallResult.t)
      (w : World) :
  extends_trace in_test_range w (snd (_finalise env call_id result w)).
Proof.
  destruct (finalise_effect env call_id result w)
    as (_ & [((_ & _ & Ht & _) & _)|(_ & log & now & _ & _ & _ & Ht & _)]).
  - now apply extends_trace_eq.
  - apply (extends_trace_cons _ _ _ _ Ht). exact I.
Qed.

Lemma process_task_extends (env : Env) (svc : TwilioService.t)
      (task : CallTask.t) (w : World) :
  extends_trace in_test_range w (snd (process_task env svc task w)).
Proof.
  pose proof (update_status_extends env (CallTask.id task) IN_PROGRESS None w)
    as H1.
  destruct (_update_status env (CallTask.id task) IN_PROGRESS None w)
    as [[[]|e] w1] eqn:Hu; cbn [snd] in H1.
  2:{ now rewrite (process_task_abort env svc task w w1 e Hu). }
  rewrite (process_task_continue env svc task w w1 Hu).
  apply (extends_trace_trans _ _ _ _ H1).
  assert (Hpause : extends_trace in_test_range w1 (paused env w1))
    by (apply (extends_trace_cons _ _ _ (clock (advance env RATE_LIMIT_SECONDS w1),
                                         Slept RATE_LIMIT_SECONDS));
        [reflexivity|exact I]).
  apply (extends_trace_trans _ _ _ _ Hpause).
  set (wd := observe (Dispatch (CallTask.number task) (CallTask.message task))
               (paused env w1)).
  assert (Hd : extends_trace in_test_range (paused env w1) wd)
    by (apply (extends_trace_cons _ _ _ (clock (paused env w1),
                                         Dispatch (CallTask.number task)
                                           (CallTask.message task)));
        [reflexivity|exact I]).
  apply (extends_trace_trans _ _ _ _ Hd).
  destruct (startswith (CallTask.number task) TWILIO_TEST_PREFIX) eqn:Hgate.
  - set (w3 := observe (ClientCreate _ _ _) _).
    assert (Hc : extends_trace in_test_range wd w3).
    { apply (extends_trace_cons _ _ _
               (clock (advance env 0 wd),
                ClientCreate (CallTask.number task)
                  (TwilioService.twiml_of (CallTask.message task))
                  (TwilioService.from_number svc)));
        [reflexivity|exact Hgate]. }
    apply (extends_trace_trans _ _ _ _ Hc). apply finalise_extends.
  - apply update_status_extends.
Qed.

(** X10. A run of the sequencer never calls the Twilio client for a number
    outside the test range, whatever the tasks it is given, the state of
    the table and the behaviour of the storage engine. *)
Theorem execute_call_sequence_test_range_only (env : Env)
        (svc : TwilioService.t) (tasks : list CallTask.t) (w : World) :
  exists evs : list (Q * Event),
    trace (snd (execute_call_sequence env svc tasks w)) = (evs ++ trace w)%list
    /\ forall t to_number twiml from_,
        In (t, ClientCreate to_number twiml from_) evs ->
        startswith to_number TWILIO_TEST_PREFIX = true.
Proof.
  assert (H : extends_trace in_test_range w
                (snd (execute_call_sequence env svc tasks w))).
  { revert w. induction tasks as [|task tasks IH]; intros w.
    - apply extends_trace_refl.
    - rewrite execute_call_sequence_cons.
      pose proof (process_task_extends env svc task w) as H1.
      destruct (process_task env svc task w) as [[[]|e] w1]; cbn [snd] in *.
      + exact (extends_trace_trans _ _ _ _ H1 (IH w1)).
      + exact H1. }
  destruct H as (evs & Ht & Hall). exists evs. split; [exact Ht|].
  intros t to_number twiml from_ Hin.
  rewrite List.Forall_forall in Hall. exact (Hall _ Hin).
Qed.

Lemma same_rows_refl (w : World) : same_rows w w.
Proof.
  intros k. destruct (rows w !! k); [|exact I]. now repeat split.
Qed.

Lemma same_rows_trans (w1 w2 w3 : World) :
  same_rows w1 w2 -> same_rows w2 w3 -> same_rows w1 w3.
Proof.
  intros H12 H23 k. specialize (H12 k). specialize (H23 k).
  destruct (rows w1 !! k), (rows w2 !! k), (rows w3 !! k);
    try contradiction; try exact I.
  unfold same_columns in *. intuition congruence.
Qed.

Lemma same_rows_insert_mark (w w' : World) (key : Z) (log log' : CallLog.t) :
  rows w !! key = Some log ->
  same_columns log log' ->
  rows w' = <[key := log']> (rows w) ->
  same_rows w w'.
Proof.
  intros Hrow Hcols Hw k. rewrite Hw.
  destruct (Z.eq_dec k key) as [->|Hne].
  - now rewrite lookup_insert_eq, Hrow.
  - rewrite lookup_insert_ne by congruence.
    destruct (rows w !! k); [|exact I]. now repeat split.
Qed.

Lemma process_task_same_rows (env : Env) (svc : TwilioService.t)
      (task : CallTask.t) (w : World) :
  same_rows w (snd (process_task env svc task w)).
Proof.
  destruct (process_task_effect env svc task w)
    as (_ & _ & _ & _ & [(Hsame & _)|(log & now & Hrow & [(Hw & _)|Hw])]).
  - intros k. rewrite Hsame. destruct (rows w !! k); [|exact I].
    now repeat split.
  - eapply same_rows_insert_mark; [exact Hrow| |exact Hw]. now repeat split.
  - destruct Hw as (st & d & e & s & now' & _ & _ & _ & Hw).
    eapply same_rows_insert_mark; [exact Hrow| |exact Hw]. now repeat split.
Qed.

Lemma execute_call_sequence_keeps (env : Env) (svc : TwilioService.t)
      (tasks : list CallTask.t) :
  forall w : World,
    same_rows w (snd (execute_call_sequence env svc tasks w))
    /\ next_id (snd (execute_call_sequence env svc tasks w)) = next_id w.
Proof.
  induction tasks as [|task tasks IH]; intros w.
  - split; [apply same_rows_refl|reflexivity].
  - rewrite execute_call_sequence_cons.
    pose proof (process_task_same_rows env svc task w) as H1.
    destruct (process_task_effect env svc task w) as (Hn & _).
    destruct (process_task env svc task w) as [[[]|e] w1]; cbn [snd] in *.
    + destruct (IH w1) as (H2 & Hn2). split.
      * exact (same_rows_trans _ _ _ H1 H2).
      * now rewrite Hn2.
    + now split.
Qed.

(** X11. A run of the sequencer creates no row and deletes none, and leaves
    the key, the number, the message and the creation time of every row as
    they were; the rows of other keys than those of its tasks it leaves
    untouched altogether.  This holds whatever the storage engine and the
    client do. *)
Theorem execute_call_sequence_same_rows (env : Env) (svc : TwilioService.t)
        (tasks : list CallTask.t) (w : World) :
  same_rows w (snd (execute_call_sequence env svc tasks w))
  /\ next_id (snd (execute_call_sequence env svc tasks w)) = next_id w
  /\ forall k, ~ In k (List.map CallTask.id tasks) ->
               rows (snd (execute_call_sequence env svc tasks w)) !! k
               = rows w !! k.
Proof.
  destruct (execute_call_sequence_keeps env svc tasks w) as (H1 & H2).
  split; [exact H1|]. split; [exact H2|].
  intros k Hk. now apply execute_call_sequence_frame.
Qed.

(** ** The upload route *)

Lemma validate_number_valid (num : string) :
  is_valid (validate_number num) = startswith num TWILIO_TEST_PREFIX
  /\ (startswith num TWILIO_TEST_PREFIX = true ->
      number (validate_number num) = num)
  /\ (startswith num TWILIO_TEST_PREFIX = false ->
      warning_of (validate_number num) = Some REASON_INDIAN
      \/ warning_of (validate_number num) = Some REASON_INVALID)
  /\ (startswith num TWILIO_TEST_PREFIX = true ->
      warning_of (validate_number num) = None).
Proof.
  unfold validate_number, warning_of.
  destruct (startswith num TWILIO_TEST_PREFIX).
  - cbn. repeat split; auto; discriminate.
  - destruct (Re.re_match INDIAN_NUMBER_REGEX num); cbn;
      repeat split; auto; discriminate.
Qed.

Lemma valid_numbers_filter (l : list string) :
  List.map number (List.filter is_valid (List.map validate_number l))
  = List.filter (fun num => startswith num TWILIO_TEST_PREFIX) l.
Proof.
  induction l as [|num l IH]; [reflexivity|]. cbn [List.map List.filter].
  destruct (validate_number_valid num) as (Hv & Hn & _). rewrite Hv.
  destruct (startswith num TWILIO_TEST_PREFIX); [|exact IH].
  cbn [List.map]. now rewrite IH, Hn.
Qed.

Lemma warnings_count (l : list string) :
  (length (List.filter (fun num => startswith num TWILIO_TEST_PREFIX) l)
   + length (List.flat_map
               (fun item => match warning_of item with
                            | Some r => [r]
                            | None => []
                            end) (List.map validate_number l))
   = length l)%nat
  /\ Forall (fun r => r = REASON_INDIAN \/ r = REASON_INVALID)
            (List.flat_map
               (fun item => match warning_of item with
                            | Some r => [r]
                            | None => []
                            end) (List.map validate_number l)).
Proof.
  induction l as [|num l (IHn & IHw)]; [split; [reflexivity|constructor]|].
  cbn [List.map List.filter List.flat_map].
  destruct (validate_number_valid num) as (_ & _ & Hbad & Hgood).
  destruct (startswith num TWILIO_TEST_PREFIX).
  - rewrite (Hgood eq_refl). cbn [app length]. split; [lia|exact IHw].
  - destruct (Hbad eq_refl) as [-> | ->]; cbn [app length];
      (split; [lia|constructor; [auto|exact IHw]]).
Qed.

Lemma list_filter_sublist {A} (p : A -> bool) (l : list A) :
  sublist (List.filter p l) l.
Proof.
  induction l as [|a l IH]; [constructor|]. cbn [List.filter].
  destruct (p a); [now constructor|now apply sublist_cons].
Qed.

Lemma limit_numbers_default (l : list string) :
  limit_numbers l (Z.of_nat MAX_BULK_UPLOAD) = firstn MAX_BULK_UPLOAD l.
Proof.
  unfold limit_numbers, slice_to.
  destruct (Z.leb_spec 0 (Z.of_nat MAX_BULK_UPLOAD)); [|lia].
  now rewrite Nat2Z.id.
Qed.

Lemma screen_numbers_valid (numbers : list string) :
  fst (screen_numbers numbers)
  = List.filter (fun num => startswith num TWILIO_TEST_PREFIX)
      (firstn MAX_BULK_UPLOAD (unique_preserve_order numbers)).
Proof.
  unfold screen_numbers. cbn [fst].
  now rewrite valid_numbers_filter, limit_numbers_default.
Qed.

(** X12. What the upload route queues: the numbers of the test range among
    the first [MAX_BULK_UPLOAD] = 100 distinct candidates, in the order of
    the input, without duplicates.  Every other one of these candidates
    gives one warning, the safety reason or the invalid-format reason. *)
Theorem screen_numbers_spec (numbers : list string) :
  let valid_numbers := fst (screen_numbers numbers) in
  let warnings := snd (screen_numbers numbers) in
  Forall (fun num => startswith num TWILIO_TEST_PREFIX = true) valid_numbers
  /\ NoDup valid_numbers
  /\ sublist valid_numbers numbers
  /\ (length valid_numbers <= 100)%nat
  /\ (length valid_numbers + length warnings
      = Nat.min 100 (length (unique_preserve_order numbers)))%nat
  /\ Forall (fun r => r = REASON_INDIAN \/ r = REASON_INVALID) warnings.
Proof.
  cbv zeta. rewrite screen_numbers_valid.
  destruct (unique_members numbers) as (Hnd & _ & Hsub).
  set (cands := firstn MAX_BULK_UPLOAD (unique_preserve_order numbers)).
  assert (Hcs : sublist cands (unique_preserve_order numbers))
    by apply sublist_take.
  assert (Hlen : (length cands
                  = Nat.min 100 (length (unique_preserve_order numbers)))%nat)
    by (subst cands; now rewrite length_firstn).
  assert (Hfs : sublist (List.filter (fun num => startswith num TWILIO_TEST_PREFIX)
                           cands) cands) by apply list_filter_sublist.
  split; [|split; [|split; [|split; [|split]]]].
  - apply List.Forall_forall. intros num Hin. now apply filter_In in Hin.
  - apply (sublist_NoDup _ cands); [|exact Hfs].
    apply (sublist_NoDup _ (unique_preserve_order numbers)); [exact Hnd|exact Hcs].
  - transitivity cands; [exact Hfs|].
    transitivity (unique_preserve_order numbers); [exact Hcs|exact Hsub].
  - apply sublist_length in Hfs. lia.
  - unfold screen_numbers. cbn [snd]. rewrite limit_numbers_default.
    fold cands. rewrite <- Hlen. apply warnings_count.
  - unfold screen_numbers. cbn [snd]. rewrite limit_numbers_default.
    apply warnings_count.
Qed.

(** ** From the upload to the end of the background run *)

Lemma new_tasks_length (numbers : list string) (msg : string) (nid : Z) :
  length (new_tasks numbers msg nid) = length numbers.
Proof.
  revert nid. induction numbers as [|num numbers IH]; intros nid; [reflexivity|].
  cbn. now rewrite IH.
Qed.

Lemma new_tasks_elem (numbers : list string) (msg : string) (nid : Z)
      (task : CallTask.t) :
  In task (new_tasks numbers msg nid) ->
  exists (i : nat) (num : string),
    numbers !! i = Some num
    /\ task = {| CallTask.id := (nid + Z.of_nat i)%Z; CallTask.number := num;
                 CallTask.message := msg |}.
Proof.
  intros Hin. apply list_elem_of_In, list_elem_of_lookup in Hin.
  destruct Hin as (i & Hi). rewrite new_tasks_lookup in Hi.
  destruct (numbers !! i) as [num|] eqn:Hnum; [|discriminate].
  injection Hi as <-. now exists i, num.
Qed.

Lemma screen_numbers_test_range (numbers : list string) :
  Forall (fun num => startswith num TWILIO_TEST_PREFIX = true)
         (fst (screen_numbers numbers))
  /\ (length (fst (screen_numbers numbers)) <= 100)%nat.
Proof.
  rewrite screen_numbers_valid.
  set (cands := firstn MAX_BULK_UPLOAD (unique_preserve_order numbers)).
  split.
  - apply List.Forall_forall. intros num Hin. now apply filter_In in Hin.
  - pose proof (sublist_length _ _
                  (list_filter_sublist
                     (fun num => startswith num TWILIO_TEST_PREFIX) cands)) as H.
    assert (length cands <= 100)%nat
      by (subst cands; rewrite length_firstn; apply Nat.le_min_l).
    lia.
Qed.

(** With a storage engine that answers, a run over tasks of the test range
    whose rows are as the builder made them settles every one of them as
    success or failed. *)
Lemma execute_call_sequence_settles (env : Env) (svc : TwilioService.t)
      (tasks : list CallTask.t) :
  forall w : World,
    reliable env ->
    NoDup (List.map CallTask.id tasks) ->
    (forall task, In task tasks ->
                  startswith (CallTask.number task) TWILIO_TEST_PREFIX = true
                  /\ exists log, rows w !! CallTask.id task = Some log
                                 /\ blank log) ->
    fst (execute_call_sequence env svc tasks w) = Ok tt
    /\ forall task, In task tasks ->
         exists log',
           rows (snd (execute_call_sequence env svc tasks w)) !! CallTask.id task
           = Some log'
           /\ (CallLog.status log' = SUCCESS \/ CallLog.status log' = FAILED)
           /\ fields_ok log'.
Proof.
  induction tasks as [|task tasks IH]; intros w Hrel Hnd Hpre.
  - split; [reflexivity|]. intros ? [].
  - destruct (Hpre task (or_introl eq_refl)) as (Hgate & log & Hrow & Hblank).
    destruct (process_task_outcome_blank env svc task w log Hrel Hrow Hblank)
      as (Hok & Hnext & log' & Hrows & _ & Hout).
    unfold dispatch_outcome in Hout.
    rewrite place_call_passed in Hout by exact Hgate. cbn [fst] in Hout.
    rewrite Hnext.
    cbn [List.map] in Hnd. apply NoDup_cons in Hnd. destruct Hnd as (Hfresh & Hnd).
    rewrite list_elem_of_In in Hfresh.
    destruct (IH (snd (process_task env svc task w)) Hrel Hnd) as (Hrun & Hall).
    { intros t Ht. destruct (Hpre t (or_intror Ht)) as (Hg & l & Hr & Hb).
      split; [exact Hg|]. exists l. split; [|exact Hb].
      rewrite Hrows, lookup_insert_ne; [exact Hr|].
      intros Heq. apply Hfresh. rewrite Heq. now apply in_map. }
    split; [exact Hrun|].
    intros t [<-|Ht]; [|now apply Hall].
    exists log'. split.
    + rewrite (execute_call_sequence_frame env svc tasks _ _ Hfresh), Hrows.
      apply lookup_insert_eq.
    + destruct (CallResult.success _).
      * destruct Hout as (Hst & _ & _ & Herr). split; [now left|].
        unfold fields_ok. rewrite Hst, Herr. repeat split; auto.
        intros H. now destruct H.
      * destruct Hout as (Hst & _ & Hdur & Hsid). split; [now right|].
        unfold fields_ok. rewrite Hst, Hdur, Hsid.
        repeat split; auto; intros H; now destruct H.
Qed.

(** The request and its background run, with a storage engine that
    answers. *)
Lemma upload_and_run_rows (env : Env) (svc : TwilioService.t)
        (numbers_text : string) (file_numbers : option (list string))
        (w : World) :
  reliable env ->
  exists tasks warnings w',
    upload_and_run env svc numbers_text file_numbers w
    = (Ok (tasks, warnings), w')
    /\ List.map CallTask.number tasks
       = fst (screen_numbers (upload_candidates numbers_text file_numbers))
    /\ (length tasks <= 100)%nat
    /\ (forall task, In task tasks ->
          startswith (CallTask.number task) TWILIO_TEST_PREFIX = true
          /\ CallTask.message task = DEFAULT_MESSAGE
          /\ exists log,
              rows w' !! CallTask.id task = Some log
              /\ CallLog.number log = CallTask.number task
              /\ CallLog.message log = Some DEFAULT_MESSAGE
              /\ (CallLog.status log = SUCCESS \/ CallLog.status log = FAILED)
              /\ fields_ok log)
    /\ (forall k : Z,
          (k < next_id w \/ next_id w + Z.of_nat (length tasks) <= k)%Z ->
          rows w' !! k = rows w !! k)
    /\ (forall k : Z,
          (next_id w <= k < next_id w + Z.of_nat (length tasks))%Z ->
          exists task, In task tasks /\ CallTask.id task = k).
Proof.
  intros Hrel. unfold upload_and_run, upload_numbers.
  set (cands := upload_candidates numbers_text file_numbers).
  destruct (screen_numbers_test_range cands) as (Hvalid & Hlen).
  destruct (screen_numbers cands) as [valid warnings]. cbn [fst snd] in *.
  destruct valid as [|v valid'] eqn:Ev.
  { exists [], warnings, w. cbn.
    repeat split; auto; try lia; try (intros ? []); intros k Hk; lia. }
  rewrite <- Ev in *. clear Ev v valid'.
  destruct (enqueue_calls_cases env valid DEFAULT_MESSAGE w)
    as [(w1 & Heq & Hnext & Hin & Hout)|(m & w1 & Heq & _)].
  2:{ rewrite enqueue_calls_ok in Heq; [discriminate|]. intros k _. apply Hrel. }
  set (tasks := new_tasks valid DEFAULT_MESSAGE (next_id w)) in *.
  assert (Hshape : forall task, In task tasks ->
            exists (i : nat) (num : string),
              valid !! i = Some num
              /\ task = {| CallTask.id := (next_id w + Z.of_nat i)%Z;
                           CallTask.number := num;
                           CallTask.message := DEFAULT_MESSAGE |})
    by (intros task; apply new_tasks_elem).
  assert (Hpre : forall task, In task tasks ->
            startswith (CallTask.number task) TWILIO_TEST_PREFIX = true
            /\ exists log, rows w1 !! CallTask.id task = Some log /\ blank log).
  { intros task Ht. destruct (Hshape task Ht) as (i & num & Hi & ->).
    cbn [CallTask.number CallTask.id]. split.
    - rewrite List.Forall_forall in Hvalid. apply Hvalid.
      apply list_elem_of_In, list_elem_of_lookup. now exists i.
    - destruct (Hin i num Hi) as (now & Hrow). eexists. split; [exact Hrow|].
      now repeat split. }
  destruct (execute_call_sequence_settles env svc tasks w1 Hrel
              (new_tasks_NoDup valid DEFAULT_MESSAGE (next_id w)) Hpre)
    as (Hrun & Hall).
  destruct (execute_call_sequence_keeps env svc tasks w1) as (Hsame & _).
  pose proof (execute_call_sequence_frame env svc tasks) as Hframe.
  destruct (execute_call_sequence env svc tasks w1) as [r w'] eqn:Hexec.
  cbn [fst snd] in *. subst r.
  exists tasks, warnings, w'. split.
  { rewrite (bind_ok _ _ _ w1 (tasks, warnings)).
    - cbn [fst]. now rewrite (bind_ok _ _ _ _ _ Hexec).
    - now rewrite (bind_ok _ _ _ _ _ Heq). }
  assert (Htl : length tasks = length valid) by apply new_tasks_length.
  split; [|split; [lia|split; [|split]]].
  - subst tasks. clear. generalize (next_id w).
    induction valid as [|num valid IH]; intros nid; [reflexivity|].
    cbn. now rewrite IH.
  - intros task Ht. destruct (Hpre task Ht) as (Hgate & _).
    destruct (Hshape task Ht) as (i & num & Hi & Htask).
    split; [exact Hgate|]. split; [now subst task|].
    destruct (Hall task Ht) as (log' & Hrow' & Hst & Hok).
    exists log'. split; [exact Hrow'|].
    destruct (Hin i num Hi) as (now & Hrow1).
    specialize (Hsame (CallTask.id task)). subst task.
    cbn [CallTask.id CallTask.number] in *.
    rewrite Hrow1, Hrow' in Hsame. destruct Hsame as (_ & Hnum & Hmsg & _).
    auto.
  - intros k Hk. rewrite <- (Hout k) by lia.
    specialize (Hframe k w1). rewrite Hexec in Hframe. apply Hframe.
    intros Hink. apply in_map_iff in Hink. destruct Hink as (t & <- & Ht).
    destruct (Hshape t Ht) as (i & num & Hi & ->).
    pose proof (lookup_lt_Some _ _ _ Hi). cbn [CallTask.id] in Hk. lia.
  - intros k Hk.
    destruct (lookup_lt_is_Some_2 valid (Z.to_nat (k - next_id w))) as (num & Hi);
      [lia|].
    eexists. split.
    + apply list_elem_of_In, list_elem_of_lookup. exists (Z.to_nat (k - next_id w)).
      subst tasks. rewrite new_tasks_lookup, Hi. reflexivity.
    + cbn [CallTask.id]. lia.
Qed.


(** X13. From the upload to the end of the background run, with a storage
    engine that answers: the request queues at most 100 tasks, all for
    numbers of the test range and with the default message; when the run
    is over the row of each of them carries its number and the message and
    is success or failed (never skipped, never left queued or
    in_progress), and no other row of the table has changed. *)
Theorem upload_and_run_settles (env : Env) (svc : TwilioService.t)
        (numbers_text : string) (file_numbers : option (list string))
        (w : World) :
  reliable env ->
  exists tasks warnings w',
    upload_and_run env svc numbers_text file_numbers w
    = (Ok (tasks, warnings), w')
    /\ List.map CallTask.number tasks
       = fst (screen_numbers (upload_candidates numbers_text file_numbers))
    /\ (length tasks <= 100)%nat
    /\ (forall task, In task tasks ->
          startswith (CallTask.number task) TWILIO_TEST_PREFIX = true
          /\ CallTask.message task = DEFAULT_MESSAGE
          /\ exists log,
              rows w' !! CallTask.id task = Some log
              /\ CallLog.number log = CallTask.number task
              /\ CallLog.message log = Some DEFAULT_MESSAGE
              /\ (CallLog.status log = SUCCESS \/ CallLog.status log = FAILED)
              /\ fields_ok log)
    /\ (forall k : Z,
          (k < next_id w \/ next_id w + Z.of_nat (length tasks) <= k)%Z ->
          rows w' !! k = rows w !! k).
Proof.
  intros Hrel.
  destruct (upload_and_run_rows env svc numbers_text file_numbers w Hrel)
    as (tasks & warnings & w' & Hrun & Hnum & Hlen & Hrows & Hout & _).
  exists tasks, warnings, w'. auto.
Qed.

Lemma upload_and_run_settles_witness :
  exists tasks warnings w',
    upload_and_run Sample.env_ok Sample.svc
      "+15005550001, 9876543210, +15005550002" None Sample.empty_world
    = (Ok (tasks, warnings), w')
    /\ List.map CallTask.number tasks = ["+15005550001"; "+15005550002"].
Proof.
  destruct (upload_and_run_settles Sample.env_ok Sample.svc
              "+15005550001, 9876543210, +15005550002" None Sample.empty_world
              (fun n => eq_refl))
    as (tasks & warnings & w' & Hrun & Hnum & _).
  exists tasks, warnings, w'. split; [exact Hrun|]. rewrite Hnum.
  vm_compute. reflexivity.
Defined.

(** ** The check of the assistant's answer *)

(** X14. [_validate_ai_result] lets a call through exactly when the parsed
    answer carries a number of the test range.  Then the feedback carries
    this number unchanged and a message that is not empty, and
    [place_call] does not raise for it.  Otherwise the feedback carries no
    number and exactly one warning: that no number was found, the safety
    reason or the invalid-format reason; the default text "Unsupported
    number provided." is never the warning. *)
Theorem validate_ai_result_gate (parsed : PromptParseResult.t) :
  let feedback := _validate_ai_result parsed in
  (AIValidationFeedback.warnings feedback = []
   <-> exists num, PromptParseResult.number parsed = Some num
                   /\ startswith num TWILIO_TEST_PREFIX = true)
  /\ (AIValidationFeedback.warnings feedback = [] ->
      exists num,
        AIValidationFeedback.number feedback = Some num
        /\ PromptParseResult.number parsed = Some num
        /\ AIValidationFeedback.message feedback <> EmptyString
        /\ forall (env : Env) (svc : TwilioService.t) (w : World),
            raised (fst (TwilioService.place_call env svc num
                           (AIValidationFeedback.message feedback) w)) = false)
  /\ (AIValidationFeedback.warnings feedback <> [] ->
      AIValidationFeedback.number feedback = None
      /\ exists r, AIValidationFeedback.warnings feedback = [r]
                   /\ (r = NO_NUMBER_WARNING \/ r = REASON_INDIAN
                       \/ r = REASON_INVALID)).
Proof.
  cbv zeta. unfold _validate_ai_result.
  destruct (PromptParseResult.number parsed) as [[|a num]|] eqn:Hnum.
  - cbn. split; [|split].
    + split; [discriminate|]. intros (n & Hn & Hpre). injection Hn as <-.
      discriminate.
    + discriminate.
    + intros _. split; [reflexivity|]. eexists. split; [reflexivity|]. auto.
  - unfold validate_number.
    destruct (startswith (String a num) TWILIO_TEST_PREFIX) eqn:Hpre;
      [|destruct (Re.re_match INDIAN_NUMBER_REGEX (String a num))];
      cbn [negb is_valid number reason or_default REASON_INDIAN REASON_INVALID
           AIValidationFeedback.warnings AIValidationFeedback.number
           AIValidationFeedback.message].
    + split; [|split].
      * split; [|reflexivity]. intros _. now exists (String a num).
      * intros _. exists (String a num). repeat split.
        -- unfold or_default.
           destruct (PromptParseResult.message parsed) as [[|b msg]|];
             discriminate.
        -- intros env svc w. now rewrite place_call_passed.
      * intros H. now destruct H.
    + split; [|split].
      * split; [discriminate|]. intros (n & Hn & Hn'). injection Hn as <-.
        congruence.
      * discriminate.
      * intros _. split; [reflexivity|]. eexists. split; [reflexivity|auto].
    + split; [|split].
      * split; [discriminate|]. intros (n & Hn & Hn'). injection Hn as <-.
        congruence.
      * discriminate.
      * intros _. split; [reflexivity|]. eexists. split; [reflexivity|auto].
  - cbn. split; [|split].
    + split; [discriminate|]. intros (n & Hn & _). discriminate.
    + discriminate.
    + intros _. split; [reflexivity|]. eexists. split; [reflexivity|]. auto.
Qed.

(** ** [strip_ansi] on whole texts *)

Lemma strip_ansi_some (text : string) :
  strip_ansi (Some text) = Some (Re.sub_empty ANSI_ESCAPE_REGEX text).
Proof. destruct text; reflexivity. Qed.

Lemma esc_free_app (a b : string) :
  esc_free (a ++ b) = esc_free a && esc_free b.
Proof.
  induction a as [|c a IH]; [now rewrite string_app_nil_l|].
  rewrite string_app_cons. cbn [esc_free]. now rewrite IH, andb_assoc.
Qed.

Lemma sub_scan_length (r : Re.regex) (s : string) :
  forall skip : nat,
    (String.length (Re.sub_scan r skip s) <= String.length s)%nat.
Proof.
  induction s as [|a s IH]; intros skip; [reflexivity|].
  cbn [Re.sub_scan String.length].
  destruct skip as [|n]; [|specialize (IH n); lia].
  destruct (Re.re_match r (String a s)) as [m|].
  - destruct (S (String.length s) - String.length (Re.rest m))%nat as [|n].
    + cbn [String.length]. specialize (IH 0%nat). lia.
    + specialize (IH n). lia.
  - cbn [String.length]. specialize (IH 0%nat). lia.
Qed.

(** X15. [strip_ansi] takes every control sequence out of a text in which
    the stretches between the sequences hold no ESC: what is left is the
    text without the sequences, it holds no ESC, and a second pass leaves
    it as it is. *)
Theorem strip_ansi_coloured (segments : list (string * string)) (last : string) :
  List.Forall (fun seg => esc_free (fst seg) = true /\ csi_sequence (snd seg))
              segments ->
  esc_free last = true ->
  strip_ansi (Some (coloured segments last)) = Some (plain_text segments last)
  /\ esc_free (plain_text segments last) = true
  /\ strip_ansi (Some (plain_text segments last))
     = Some (plain_text segments last).
Proof.
  intros Hsegs Hlast.
  assert (Hfree : esc_free (plain_text segments last) = true).
  { induction Hsegs as [|[text csi] segments (Ht & _) _ IH]; [exact Hlast|].
    cbn [plain_text fst] in *. now rewrite esc_free_app, Ht, IH. }
  split; [|split; [exact Hfree|now apply strip_ansi_plain]].
  rewrite strip_ansi_some. f_equal.
  induction Hsegs as [|[text csi] segments (Ht & Hc) Hsegs IH].
  - cbn [coloured plain_text].
    pose proof (strip_ansi_plain last Hlast) as H.
    rewrite strip_ansi_some in H. now injection H.
  - cbn [coloured plain_text fst snd] in *.
    rewrite (strip_ansi_removes_csi text csi _ Ht Hc). f_equal. apply IH.
    rewrite esc_free_app in Hfree. apply andb_true_iff in Hfree. apply Hfree.
Qed.

Lemma strip_ansi_coloured_witness :
  strip_ansi (Some ("HTTP " ++ String ESC "[1;31m" ++ "400"
                            ++ String ESC "[0m" ++ " error"))
  = Some "HTTP 400 error".
Proof.
  refine (proj1 (strip_ansi_coloured
                   [("HTTP ", String ESC "[1;31m"); ("400", String ESC "[0m")]
                   " error" _ eq_refl)).
  constructor; [split; [reflexivity|]|constructor; [split; [reflexivity|]|constructor]].
  - exists "1;31", EmptyString, "m"%char. now repeat split.
  - exists "0", EmptyString, "m"%char. now repeat split.
Defined.

(** X16. [strip_ansi] in general: no value stays no value and a text stays
    a text; the result is never longer than the text, and a text without
    ESC is returned as it is. *)
Theorem strip_ansi_shrinks (value : option string) :
  match value, strip_ansi value with
  | None, None => True
  | Some text, Some stripped =>
      (String.length stripped <= String.length text)%nat
      /\ (esc_free text = true -> stripped = text)
  | _, _ => False
  end.
Proof.
  destruct value as [text|]; [|exact I].
  rewrite strip_ansi_some. split.
  - apply sub_scan_length.
  - intros H. pose proof (strip_ansi_plain text H) as Hp.
    rewrite strip_ansi_some in Hp. now injection Hp.
Qed.

(** ** The counters of the dashboard *)

Lemma count_by_status (l : list (Z * CallLog.t)) :
  (length (List.filter (fun row => CallStatus_eqb (CallLog.status (snd row)) QUEUED) l)
   + length (List.filter (fun row => CallStatus_eqb (CallLog.status (snd row)) IN_PROGRESS) l)
   + length (List.filter (fun row => CallStatus_eqb (CallLog.status (snd row)) SUCCESS) l)
   + length (List.filter (fun row => CallStatus_eqb (CallLog.status (snd row)) FAILED) l)
   + length (List.filter (fun row => CallStatus_eqb (CallLog.status (snd row)) SKIPPED) l)
   = length l)%nat.
Proof.
  induction l as [|[k log] l IH]; [reflexivity|].
  cbn [List.filter snd]. destruct (CallLog.status log); cbn [CallStatus_eqb length]; lia.
Qed.

Lemma stats_get_count (st : CallStatus) (table : gmap Z CallLog.t) :
  stats_get (stats_result table) st 0 = count_rows st table.
Proof.
  unfold stats_get, stats_result. cbn [flat_map].
  destruct (count_rows QUEUED table) eqn:Hq,
           (count_rows IN_PROGRESS table) eqn:Hi,
           (count_rows SUCCESS table) eqn:Hs,
           (count_rows FAILED table) eqn:Hf,
           (count_rows SKIPPED table) eqn:Hk;
    destruct st; cbn; congruence.
Qed.

Lemma count_rows_zero (st : CallStatus) (table : gmap Z CallLog.t) :
  count_rows st table = 0%nat
  <-> forall k log, table !! k = Some log -> CallLog.status log <> st.
Proof.
  unfold count_rows. split.
  - intros H k log Hrow Hst. apply elem_of_map_to_list, list_elem_of_In in Hrow.
    assert (Hin : In (k, log)
                     (List.filter
                        (fun row => CallStatus_eqb (CallLog.status (snd row)) st)
                        (map_to_list table))).
    { apply filter_In. split; [exact Hrow|]. cbn [snd]. rewrite Hst.
      now destruct st. }
    destruct (List.filter _ _); [destruct Hin|discriminate].
  - intros H.
    destruct (List.filter _ _) as [|[k log] l] eqn:Hl; [reflexivity|exfalso].
    assert (Hin : In (k, log) ((k, log) :: l)) by now left.
    rewrite <- Hl in Hin. apply filter_In in Hin. destruct Hin as (Hin & Hst).
    apply list_elem_of_In, elem_of_map_to_list in Hin.
    apply (H k log Hin). cbn [snd] in Hst.
    destruct (CallLog.status log), st; (reflexivity || discriminate).
Qed.

(** X17. The counters of the dashboard add up.  Each of the five counters
    is the number of rows with its status, 0 for a status no row has; the
    total is the number of rows of the table and the sum of the five; a
    counter is 0 exactly when no row has its status. *)
Theorem dashboard_stats_add_up (table : gmap Z CallLog.t) :
  let stats := dashboard_stats table in
  DashboardStats.success stats = count_rows SUCCESS table
  /\ DashboardStats.failed stats = count_rows FAILED table
  /\ DashboardStats.skipped stats = count_rows SKIPPED table
  /\ DashboardStats.queued stats = count_rows QUEUED table
  /\ DashboardStats.in_progress stats = count_rows IN_PROGRESS table
  /\ DashboardStats.total_calls stats = size table
  /\ (DashboardStats.success stats + DashboardStats.failed stats
      + DashboardStats.skipped stats + DashboardStats.queued stats
      + DashboardStats.in_progress stats
      = DashboardStats.total_calls stats)%nat
  /\ forall st : CallStatus,
      count_rows st table = 0%nat
      <-> forall k log, table !! k = Some log -> CallLog.status log <> st.
Proof.
  cbv zeta. unfold dashboard_stats.
  cbn [DashboardStats.success DashboardStats.failed DashboardStats.skipped
       DashboardStats.queued DashboardStats.in_progress
       DashboardStats.total_calls].
  rewrite !stats_get_count.
  assert (Htotal : list_sum (List.map snd (stats_result table)) = size table).
  { rewrite <- length_map_to_list, <- (count_by_status (map_to_list table)).
    unfold stats_result. cbn [flat_map]. fold (count_rows QUEUED table).
    fold (count_rows IN_PROGRESS table). fold (count_rows SUCCESS table).
    fold (count_rows FAILED table). fold (count_rows SKIPPED table).
    destruct (count_rows QUEUED table), (count_rows IN_PROGRESS table),
             (count_rows SUCCESS table), (count_rows FAILED table),
             (count_rows SKIPPED table); cbn; lia. }
  repeat split; try reflexivity; try exact Htotal; try apply count_rows_zero.
  rewrite Htotal, <- length_map_to_list, <- (count_by_status (map_to_list table)).
  unfold count_rows. lia.
Qed.

(** X18. Nothing stays pending.  When no row of the table is queued or
    in_progress before an upload, then with a storage engine that answers
    no row is after the background run of the request is over: the
    dashboard shows 0 queued and 0 in progress, and each row it counts is
    success, failed or skipped. *)
Theorem dashboard_after_upload_run (env : Env) (svc : TwilioService.t)
        (numbers_text : string) (file_numbers : option (list string))
        (w : World) :
  reliable env ->
  (forall k log, rows w !! k = Some log ->
                 is_terminal (CallLog.status log) = true) ->
  let w' := snd (upload_and_run env svc numbers_text file_numbers w) in
  let stats := dashboard_stats (rows w') in
  (forall k log, rows w' !! k = Some log ->
                 is_terminal (CallLog.status log) = true)
  /\ DashboardStats.queued stats = 0%nat
  /\ DashboardStats.in_progress stats = 0%nat
  /\ (DashboardStats.success stats + DashboardStats.failed stats
      + DashboardStats.skipped stats
      = DashboardStats.total_calls stats)%nat.
Proof.
  intros Hrel Hterm. cbv zeta.
  destruct (upload_and_run_rows env svc numbers_text file_numbers w Hrel)
    as (tasks & warnings & w' & Hrun & _ & _ & Hrows & Hout & Hids).
  rewrite Hrun. cbn [snd].
  assert (Hall : forall k log, rows w' !! k = Some log ->
                               is_terminal (CallLog.status log) = true).
  { intros k log Hrow.
    destruct (Z_lt_ge_dec k (next_id w)) as [Hlo|Hlo];
      [rewrite Hout in Hrow by lia; now apply (Hterm k)|].
    destruct (Z_lt_ge_dec k (next_id w + Z.of_nat (length tasks))) as [Hhi|Hhi];
      [|rewrite Hout in Hrow by lia; now apply (Hterm k)].
    destruct (Hids k) as (task & Ht & <-); [lia|].
    destruct (Hrows task Ht) as (_ & _ & log' & Hrow' & _ & _ & Hst & _).
    rewrite Hrow in Hrow'. injection Hrow' as <-.
    now destruct Hst as [-> | ->]. }
  assert (Hq : count_rows QUEUED (rows w') = 0%nat).
  { apply count_rows_zero. intros k log Hrow Hst.
    specialize (Hall k log Hrow). now rewrite Hst in Hall. }
  assert (Hi : count_rows IN_PROGRESS (rows w') = 0%nat).
  { apply count_rows_zero. intros k log Hrow Hst.
    specialize (Hall k log Hrow). now rewrite Hst in Hall. }
  split; [exact Hall|].
  unfold dashboard_stats.
  cbn [DashboardStats.success DashboardStats.failed DashboardStats.skipped
       DashboardStats.queued DashboardStats.in_progress
       DashboardStats.total_calls].
  rewrite !stats_get_count. split; [exact Hq|]. split; [exact Hi|].
  unfold stats_result. cbn [flat_map]. rewrite Hq, Hi.
  destruct (count_rows SUCCESS (rows w')), (count_rows FAILED (rows w')),
           (count_rows SKIPPED (rows w')); cbn; lia.
Qed.

Lemma dashboard_after_upload_run_witness :
  DashboardStats.queued
    (dashboard_stats
       (rows (snd (upload_and_run Sample.env_ok Sample.svc
                     "+15005550001, 9876543210, +15005550002" None
                     Sample.empty_world)))) = 0%nat.
Proof.
  refine (proj1 (proj2 (dashboard_after_upload_run Sample.env_ok Sample.svc
                          "+15005550001, 9876543210, +15005550002" None
                          Sample.empty_world (fun n => eq_refl) _))).
  intros k log H. cbn in H. rewrite lookup_empty in H. discriminate H.
Defined.

(** ** The fallback of the assistant *)

Lemma lang_upto (n : nat) (lo hi : ascii) (s s' : string) :
  lang (upto n (Re.Range lo hi)) s s'
  <-> exists ds, (String.length ds <= n)%nat /\ all_in lo hi ds = true
                 /\ s = ds ++ s'.
Proof.
  revert s. induction n as [|n IH]; intros s; cbn [upto lang].
  - split.
    + intros ->. now exists EmptyString.
    + intros (ds & Hlen & _ & ->). destruct ds; [reflexivity|cbn in Hlen; lia].
  - split.
    + intros [(m & (a & Ha & ->) & Hm) | ->].
      * apply IH in Hm. destruct Hm as (ds & Hlen & Hall & ->).
        exists (String a ds). cbn [String.length all_in]. rewrite Ha, Hall.
        split; [lia|]. split; [reflexivity|]. now rewrite string_app_cons.
      * exists EmptyString. split; [cbn; lia|]. split; reflexivity.
    + intros (ds & Hlen & Hall & ->). destruct ds as [|a ds]; [now right|].
      cbn [String.length all_in] in *. apply andb_true_iff in Hall.
      destruct Hall as (Ha & Hall). left.
      exists (ds ++ s'). split; [now exists a|].
      apply IH. exists ds. repeat split; [lia|exact Hall].
Qed.

Lemma all_in_app (lo hi : ascii) (a b : string) :
  all_in lo hi (a ++ b) = all_in lo hi a && all_in lo hi b.
Proof.
  induction a as [|x a IH]; [reflexivity|].
  rewrite string_app_cons. cbn [all_in]. now rewrite IH, andb_assoc.
Qed.

Lemma string_split_at (n : nat) :
  forall s : string,
    (n <= String.length s)%nat ->
    exists x y, s = x ++ y /\ String.length x = n.
Proof.
  induction n as [|n IH]; intros s Hlen; [now exists EmptyString, s|].
  destruct s as [|a s]; [cbn in Hlen; lia|]. cbn [String.length] in Hlen.
  destruct (IH s) as (x & y & -> & Hl); [lia|].
  exists (String a x), y. cbn [String.length]. now rewrite Hl.
Qed.

Lemma lang_fallback (s s' : string) :
  lang FALLBACK_NUMBER_REGEX s s'
  <-> exists sign ds,
      (sign = EmptyString \/ sign = "+")
      /\ (7 <= String.length ds <= 15)%nat
      /\ all_in "0" "9" ds = true
      /\ s = sign ++ ds ++ s'.
Proof.
  unfold FALLBACK_NUMBER_REGEX.
  change (lang (Re.Seq ?a (Re.Seq ?b ?c)) s s')
    with (exists m, lang a s m /\ exists m', lang b m m' /\ lang c m' s').
  split.
  - intros (m & Hsign & m' & H7 & H8).
    apply lang_times_range in H7. destruct H7 as (d7 & Hl7 & Ha7 & ->).
    apply lang_upto in H8. destruct H8 as (d8 & Hl8 & Ha8 & ->).
    exists (if string_dec s (d7 ++ d8 ++ s') then EmptyString else "+"), (d7 ++ d8).
    rewrite string_length_app, all_in_app, Ha7, Ha8, string_app_assoc.
    cbn [lang] in Hsign. destruct Hsign as [-> | <-].
    + destruct (string_dec _ _) as [H|_]; [|repeat split; auto; lia].
      exfalso. apply (f_equal String.length) in H. cbn [String.length] in H. lia.
    + destruct (string_dec _ _) as [_|H]; [|now destruct H].
      repeat split; auto; lia.
  - intros (sign & ds & Hsign & Hlen & Hall & ->).
    destruct (string_split_at 7 ds) as (d7 & d8 & -> & Hl7); [lia|].
    rewrite all_in_app in Hall. apply andb_true_iff in Hall.
    destruct Hall as (Ha7 & Ha8). rewrite string_length_app in Hlen.
    exists ((d7 ++ d8) ++ s'). split.
    + cbn [lang]. destruct Hsign as [-> | ->]; [now right|now left].
    + exists (d8 ++ s'). split.
      * apply lang_times_range. exists d7. now rewrite string_app_assoc.
      * apply lang_upto. exists d8. repeat split; [lia|exact Ha8].
Qed.

Lemma re_match_rest (r : Re.regex) (s : string) (m : Re.Match) :
  Re.re_match r s = Some m -> lang r s (Re.rest m).
Proof.
  unfold Re.re_match. intros H.
  destruct (rmatch_sound r _ _ _ _ H) as (s' & cap' & Hl & Hk).
  injection Hk as <-. exact Hl.
Qed.

Lemma substring_app (x y : string) :
  substring 0 (String.length (x ++ y) - String.length y) (x ++ y) = x.
Proof.
  rewrite string_length_app.
  replace (String.length x + String.length y - String.length y)%nat
    with (String.length x) by lia.
  induction x as [|a x IH].
  - rewrite string_app_nil_l. now destruct y.
  - rewrite string_app_cons. cbn [String.length substring]. now rewrite IH.
Qed.

Lemma first_match_none (r : Re.regex) (s : string) :
  first_match r s = None ->
  forall pre t, s = pre ++ t -> Re.re_match r t = None.
Proof.
  induction s as [|a s IH]; cbn [first_match].
  - destruct (Re.re_match r EmptyString) eqn:Hm; [discriminate|].
    intros _ pre t H. destruct pre as [|b pre]; [|discriminate H].
    rewrite string_app_nil_l in H. now subst t.
  - destruct (Re.re_match r (String a s)) eqn:Hm; [discriminate|].
    intros H pre t Hs. destruct pre as [|b pre].
    + rewrite string_app_nil_l in Hs. now subst t.
    + rewrite string_app_cons in Hs. injection Hs as _ Hs.
      now apply (IH H pre).
Qed.

Lemma first_match_some (r : Re.regex) (s d : string) :
  first_match r s = Some d ->
  exists pre t m,
    s = pre ++ t /\ Re.re_match r t = Some m
    /\ d = substring 0 (String.length t - String.length (Re.rest m)) t.
Proof.
  induction s as [|a s IH]; cbn [first_match].
  - destruct (Re.re_match r EmptyString) as [m|] eqn:Hm; [|discriminate].
    intros H. injection H as <-. now exists EmptyString, EmptyString, m.
  - destruct (Re.re_match r (String a s)) as [m|] eqn:Hm.
    + intros H. injection H as <-. now exists EmptyString, (String a s), m.
    + intros H. destruct (IH H) as (pre & t & m & -> & Ht & Hd).
      now exists (String a pre), t, m.
Qed.

Lemma rmatch_times_range {R} (n : nat) (lo hi : ascii) :
  forall (ds t : string) (cap : option string)
         (k : string -> option string -> option R),
    String.length ds = n -> all_in lo hi ds = true ->
    Re.rmatch (Re.times n (Re.Range lo hi)) (ds ++ t) cap k = k t cap.
Proof.
  induction n as [|n IH]; intros ds t cap k Hlen Hall.
  - destruct ds; [reflexivity|discriminate].
  - destruct ds as [|a ds]; [discriminate|].
    cbn [String.length all_in] in *. apply andb_true_iff in Hall.
    destruct Hall as (Ha & Hall). injection Hlen as Hlen.
    rewrite string_app_cons. cbn [Re.times Re.rmatch]. rewrite Ha.
    now apply IH.
Qed.

Lemma rmatch_upto_run {R} (n : nat) (lo hi : ascii) :
  forall (ds t : string) (cap : option string)
         (k : string -> option string -> option R) (x : R),
    (String.length ds <= n)%nat -> all_in lo hi ds = true ->
    match t with
    | EmptyString => True
    | String b _ => Re.in_range lo hi b = false
    end ->
    k t cap = Some x ->
    Re.rmatch (upto n (Re.Range lo hi)) (ds ++ t) cap k = Some x.
Proof.
  induction n as [|n IH]; intros ds t cap k x Hlen Hall Hstop Hk.
  - destruct ds; [exact Hk|cbn in Hlen; lia].
  - destruct ds as [|a ds].
    + rewrite string_app_nil_l. cbn [upto Re.rmatch].
      destruct t as [|b t]; [exact Hk|]. now rewrite Hstop.
    + cbn [String.length all_in] in *. apply andb_true_iff in Hall.
      destruct Hall as (Ha & Hall).
      rewrite string_app_cons. cbn [upto Re.rmatch]. rewrite Ha.
      rewrite (IH ds t cap k x); [reflexivity|lia|exact Hall|exact Hstop|exact Hk].
Qed.

Lemma fallback_no_match (a : ascii) (s : string) :
  is_digit a = false -> no_digit_ahead s ->
  Re.re_match FALLBACK_NUMBER_REGEX (String a s) = None.
Proof.
  unfold is_digit, no_digit_ahead, Re.re_match, FALLBACK_NUMBER_REGEX.
  intros Ha Hs. cbn [Re.rmatch Re.times]. rewrite Ha.
  destruct (Ascii.eqb a "+"); [|reflexivity].
  destruct s as [|b s]; [reflexivity|]. unfold is_digit in Hs. now rewrite Hs.
Qed.

Lemma fallback_match_signed (ds post : string) :
  (7 <= String.length ds <= 15)%nat -> all_in "0" "9" ds = true ->
  no_digit_ahead post ->
  Re.re_match FALLBACK_NUMBER_REGEX (String "+" (ds ++ post))
  = Some {| Re.rest := post; Re.group1 := None |}.
Proof.
  intros Hlen Hall Hpost.
  destruct (string_split_at 7 ds) as (d7 & d8 & -> & Hl7); [lia|].
  rewrite all_in_app in Hall. apply andb_true_iff in Hall.
  destruct Hall as (Ha7 & Ha8). rewrite string_length_app in Hlen.
  unfold Re.re_match, FALLBACK_NUMBER_REGEX.
  cbn [Re.rmatch]. cbn [Ascii.eqb Bool.eqb].
  rewrite string_app_assoc.
  rewrite (rmatch_times_range 7 "0" "9" d7 _ _ _ Hl7 Ha7).
  rewrite (rmatch_upto_run 8 "0" "9" d8 post None _
             {| Re.rest := post; Re.group1 := None |});
    [reflexivity|lia|exact Ha8|exact Hpost|reflexivity].
Qed.

(** X19. The fallback of the assistant, [_fallback_number].  It finds no
    number exactly when the prompt holds no seven digits in a row.  What it
    returns is [normalize_number] of a piece of the prompt, an optional [+]
    and 7 to 15 digits: digits and [+] only, and a text [normalize_number]
    leaves as it is.  A number written with [+] and 7 to 15 digits, with no
    digit before it in the prompt and no digit right after it, is returned
    as written. *)
Theorem fallback_number_spec (prompt : string) :
  (_fallback_number prompt = None <-> ~ has_digit_run 7 prompt)
  /\ (forall num, _fallback_number prompt = Some num ->
        (exists pre sign ds post,
            prompt = pre ++ sign ++ ds ++ post
            /\ (sign = EmptyString \/ sign = "+")
            /\ (7 <= String.length ds <= 15)%nat
            /\ all_in "0" "9" ds = true
            /\ num = normalize_number (sign ++ ds))
        /\ string_all is_dial_char num = true
        /\ normalize_number num = num)
  /\ (forall pre ds post,
        prompt = pre ++ String "+" (ds ++ post) ->
        string_all (fun a => negb (is_digit a)) pre = true ->
        (7 <= String.length ds <= 15)%nat ->
        all_in "0" "9" ds = true ->
        no_digit_ahead post ->
        _fallback_number prompt = Some (String "+" ds)).
Proof.
  assert (Hshape : forall d, first_match FALLBACK_NUMBER_REGEX prompt = Some d ->
            exists pre sign ds post,
              prompt = pre ++ sign ++ ds ++ post
              /\ (sign = EmptyString \/ sign = "+")
              /\ (7 <= String.length ds <= 15)%nat
              /\ all_in "0" "9" ds = true
              /\ d = sign ++ ds).
  { intros d Hd.
    destruct (first_match_some _ _ _ Hd) as (pre & t & m & -> & Hm & ->).
    apply re_match_rest, lang_fallback in Hm.
    destruct Hm as (sign & ds & Hsign & Hlen & Hall & ->).
    exists pre, sign, ds, (Re.rest m). repeat split; auto; try lia.
    now rewrite <- string_app_assoc, substring_app. }
  unfold _fallback_number. split; [|split].
  - split.
    + destruct (first_match _ prompt) eqn:Hf; [discriminate|]. intros _.
      intros (pre & ds & post & -> & Hlen & Hall).
      pose proof (first_match_none _ _ Hf pre (ds ++ post) eq_refl) as Hnone.
      assert (Hsome : is_Some (Re.re_match FALLBACK_NUMBER_REGEX (ds ++ post))).
      { apply re_match_spec. exists post. apply lang_fallback.
        exists EmptyString, ds. repeat split; auto; lia. }
      rewrite Hnone in Hsome. now destruct Hsome.
    + intros Hrun. destruct (first_match _ prompt) as [d|] eqn:Hf; [|reflexivity].
      exfalso. apply Hrun.
      destruct (Hshape d eq_refl) as (pre & sign & ds & post & -> & _ & Hlen & Hall & _).
      destruct (string_split_at 7 ds) as (d7 & d8 & -> & Hl7); [lia|].
      rewrite all_in_app in Hall. apply andb_true_iff in Hall.
      exists (pre ++ sign), d7, (d8 ++ post).
      rewrite !string_app_assoc. repeat split; [exact Hl7|apply Hall].
  - intros num Hnum.
    destruct (first_match _ prompt) as [d|] eqn:Hf; [|discriminate].
    injection Hnum as <-. split; [|split].
    + destruct (Hshape d eq_refl) as (pre & sign & ds & post & H).
      exists pre, sign, ds, post.
      destruct H as (H1 & H2 & H3 & H4 & ->). auto.
    + apply normalize_number_dial.
    + unfold normalize_number at 1.
      rewrite (sanitise_id _ (normalize_number_dial d)).
      unfold normalize_number. apply canonical_prefix_idem.
  - intros pre ds post -> Hpre Hlen Hall Hpost.
    assert (Hdial : string_all is_dial_char (String "+" ds) = true).
    { cbn [string_all]. clear - Hall. induction ds as [|a ds IH]; [reflexivity|].
      cbn [all_in string_all] in *. apply andb_true_iff in Hall.
      destruct Hall as (Ha & Hall). unfold is_dial_char at 2, is_digit.
      rewrite Ha. cbn [orb andb]. now apply IH. }
    assert (Hfirst : first_match FALLBACK_NUMBER_REGEX
                       (pre ++ String "+" (ds ++ post))
                     = Some (String "+" ds)).
    { clear Hshape. induction pre as [|a pre IH].
      - rewrite string_app_nil_l.
        change (String "+" (ds ++ post)) with (String "+" ds ++ post) at 1.
        destruct (String "+" ds ++ post) as [|c u] eqn:Hu; [discriminate Hu|].
        cbn [first_match]. rewrite <- Hu.
        change (String "+" ds ++ post) with (String "+" (ds ++ post)) at 1.
        rewrite (fallback_match_signed ds post Hlen Hall Hpost).
        cbn [Re.rest]. now rewrite substring_app.
      - cbn [string_all] in Hpre. apply andb_true_iff in Hpre.
        destruct Hpre as (Ha & Hpre). apply negb_true_iff in Ha.
        rewrite string_app_cons. cbn [first_match].
        rewrite fallback_no_match; [now apply IH|exact Ha|].
        destruct pre as [|b pre]; [reflexivity|].
        cbn [string_all] in Hpre. apply andb_true_iff in Hpre.
        rewrite string_app_cons. cbn [no_digit_ahead].
        now apply negb_true_iff, Hpre. }
    rewrite Hfirst. f_equal. unfold normalize_number.
    rewrite (sanitise_id _ Hdial). apply canonical_prefix_plus.
Qed.

(** ** Rows and runs *)


